(** * Rate limiting and quota tracking of the location-assistant backend

    A shallow embedding of [backend/app/middleware/rate_limiter.py]
    ([TokenBucket], [RateLimiter]) and of [QuotaTracker] from
    [backend/app/config.py], with the properties of the admission-control
    core stated and proved over it.

    Modelling choices.
    - Python [int] values are [Z].
    - Python [float] values (token counts, rates, timestamps) are
      embedded twice.  In [TokenBucket], [RateLimiter] and [Core] they are
      exact rationals [Q]: rounding, overflow and underflow of IEEE
      doubles are left out, and what is proved there is proved of the
      algorithm.  In [IEEE.TokenBucket], [IEEE.RateLimiter] and
      [IEEE.Core] they are IEEE-754 doubles: every operation rounds to the
      nearest double, a value is an [int] or a [float] as in the source,
      and the exceptions of the arithmetic are raised.  What depends on
      rounding, overflow or underflow (the rate and the capacity the
      constructor computes, which calls can raise) is proved there.
    - [time.time()] reads a clock: an infinite sequence of readings with a
      cursor.  Every call site of [time.time()] in the source is one
      [time_time] in the model, so a method that reads the clock several
      times sees several readings.
    - A raised exception is the result [None] on exact rationals, and the
      exception itself on doubles.
    - [dict] and [defaultdict] objects keyed by [str] are [gmap string _];
      a bucket obtained from the mapping is mutated in place in the
      source, which the model renders by writing it back under its key. *)

From Stdlib Require Import ZArith QArith Qround Qminmax Qpower Lia Lqa.
From stdpp Require Import gmap strings list fin_maps.
From Stdlib Require Import Ascii DecimalString.

Local Open Scope Z_scope.

(** ** Python arithmetic on the rational model of floats *)

(** [x < y] and [x > y] on floats, as booleans. *)
Definition Qltb (x y : Q) : bool := negb (Qle_bool y x).

(** [x >= y]. *)
Definition Qgeb (x y : Q) : bool := Qle_bool y x.

(** [int(x)]: truncation toward zero. *)
Definition py_int (x : Q) : Z := Z.quot (Qnum x) (Z.pos (Qden x)).

(** [math.ceil(x)], the rounding the specification text speaks of. *)
Definition py_ceil (x : Q) : Z := Qceiling x.

(** [x or y] for an [Optional[int]] left operand: [None] and [0] are falsy. *)
Definition py_or (x : option Z) (y : Z) : Z :=
  match x with
  | Some v => if Z.eqb v 0 then y else v
  | None => y
  end.

(** ** The clock and the monad of clock-reading, possibly failing code *)

Record Clock : Type := mkClock { readings : nat -> Q; cursor : nat }.

Definition advance (n : nat) (c : Clock) : Clock :=
  {| readings := readings c; cursor := (cursor c + n)%nat |}.


Definition non_decreasing (c : Clock) : Prop :=
  forall i j : nat, (i <= j)%nat -> (readings c i <= readings c j)%Q.

Definition M (A : Type) : Type := Clock -> option (A * Clock).

#[global] Instance M_ret : MRet M := fun A a c => Some (a, c).

#[global] Instance M_bind : MBind M := fun A B k m c =>
  match m c with
  | Some (a, c') => k a c'
  | None => None
  end.

Definition ret {A : Type} (a : A) : M A := mret a.

Definition raise {A : Type} : M A := fun _ => None.

(** [time.time()] *)
Definition time_time : M Q :=
  fun c => Some (readings c (cursor c), advance 1 c).

(** The reading the next [time.time()] will return; the clock does not
    move.  Used by the model to date the calls of a run, not by the source. *)
Definition peek_time : M Q :=
  fun c => Some (readings c (cursor c), c).

(** [a / b] on floats; a zero divisor raises [ZeroDivisionError]. *)
Definition py_truediv (a b : Q) : M Q :=
  if Qeq_bool b 0 then raise else ret (a / b)%Q.

(** ** TokenBucket *)

Module TokenBucket.

Record t : Type := mk {
  rate : Q;
  capacity : Q;
  tokens : Q;
  last_update : Q
}.

(** [TokenBucket.__init__(rate, capacity)] *)
Definition __init__ (rate capacity : Q) : M t :=
  now ← time_time;
  ret {| rate := rate; capacity := capacity; tokens := capacity;
         last_update := now |}.

(** [TokenBucket._refill()] *)
Definition _refill (self : t) : M t :=
  now ← time_time;
  let elapsed := (now - last_update self)%Q in
  let tokens_to_add := (elapsed * rate self)%Q in
  ret {| rate := rate self; capacity := capacity self;
         tokens := Qmin (capacity self) (tokens self + tokens_to_add)%Q;
         last_update := now |}.

(** [TokenBucket.consume(tokens)]: the result and the bucket after the call. *)
Definition consume (n : Z) (self : t) : M (bool * t) :=
  self ← _refill self;
  if Qgeb (tokens self) (inject_Z n) then
    ret (true, {| rate := rate self; capacity := capacity self;
                  tokens := (tokens self - inject_Z n)%Q;
                  last_update := last_update self |})
  else ret (false, self).

(** [TokenBucket.time_until_available(tokens)] *)
Definition time_until_available (n : Z) (self : t) : M (Q * t) :=
  self ← _refill self;
  if Qgeb (tokens self) (inject_Z n) then ret (0%Q, self)
  else
    let needed := (inject_Z n - tokens self)%Q in
    d ← py_truediv needed (rate self);
    ret (d, self).


(** The bucket [_refill] leaves when the clock reads [now]. *)
Definition refilled (now : Q) (self : t) : t :=
  {| rate := rate self; capacity := capacity self;
     tokens := Qmin (capacity self)
                 (tokens self + (now - last_update self) * rate self)%Q;
     last_update := now |}.


End TokenBucket.

(** ** Settings: the three fields of [config.Settings] the core reads *)

Module Settings.

Record t : Type := mk {
  rate_limit_requests : Z;
  rate_limit_window : Z;
  daily_quota_limit : Z
}.

(** The defaults declared in [config.py]. *)
Definition default : t :=
  {| rate_limit_requests := 100; rate_limit_window := 3600;
     daily_quota_limit := 1000 |}.

End Settings.

(** ** RateLimiter *)

Module RateLimiter.

Record t : Type := mk {
  requests_per_window : Z;
  window_seconds : Z;
  rate : Q;
  capacity : Z;
  _buckets : gmap string TokenBucket.t;
  _last_cleanup : Q;
  _cleanup_interval : Q
}.

(** [RateLimiter.__init__(requests_per_window, window_seconds,
    burst_multiplier)]; [settings] is the module-level [settings] object. *)
Definition __init__ (settings : Settings.t)
    (requests_per_window window_seconds : option Z) (burst_multiplier : Q)
    : M t :=
  let requests_per_window :=
    py_or requests_per_window (Settings.rate_limit_requests settings) in
  let window_seconds :=
    py_or window_seconds (Settings.rate_limit_window settings) in
  rate ← py_truediv (inject_Z requests_per_window) (inject_Z window_seconds);
  let capacity := py_int (inject_Z requests_per_window * burst_multiplier)%Q in
  now ← time_time;
  ret {| requests_per_window := requests_per_window;
         window_seconds := window_seconds;
         rate := rate;
         capacity := capacity;
         _buckets := ∅;
         _last_cleanup := now;
         _cleanup_interval := 3600%Q |}.

Definition set_buckets (buckets : gmap string TokenBucket.t) (self : t) : t :=
  {| requests_per_window := requests_per_window self;
     window_seconds := window_seconds self;
     rate := rate self;
     capacity := capacity self;
     _buckets := buckets;
     _last_cleanup := _last_cleanup self;
     _cleanup_interval := _cleanup_interval self |}.

(** The first loop of [_maybe_cleanup]: the keys appended to
    [stale_clients], in iteration order. *)
Fixpoint stale_clients (now interval : Q)
    (items : list (string * TokenBucket.t)) : list string :=
  match items with
  | [] => []
  | (client_id, bucket) :: rest =>
      if Qltb interval (now - TokenBucket.last_update bucket)%Q
      then client_id :: stale_clients now interval rest
      else stale_clients now interval rest
  end.

(** The second loop: [del self._buckets[client_id]] for each collected key. *)
Fixpoint delete_all (keys : list string) (buckets : gmap string TokenBucket.t)
    : gmap string TokenBucket.t :=
  match keys with
  | [] => buckets
  | client_id :: rest => delete_all rest (delete client_id buckets)
  end.

(** The test at the head of [_maybe_cleanup]: the sweep runs unless
    [now - self._last_cleanup < self._cleanup_interval]. *)
Definition sweep_due (now : Q) (self : t) : bool :=
  negb (Qltb (now - _last_cleanup self)%Q (_cleanup_interval self)).

(** The body of [_maybe_cleanup] once the clock has been read. *)
Definition cleanup_at (now : Q) (self : t) : t :=
  if sweep_due now self then
    let stale :=
      stale_clients now (_cleanup_interval self) (map_to_list (_buckets self)) in
    {| requests_per_window := requests_per_window self;
       window_seconds := window_seconds self;
       rate := rate self;
       capacity := capacity self;
       _buckets := delete_all stale (_buckets self);
       _last_cleanup := now;
       _cleanup_interval := _cleanup_interval self |}
  else self.

(** [RateLimiter._maybe_cleanup()] *)
Definition _maybe_cleanup (self : t) : M t :=
  now ← time_time;
  ret (cleanup_at now self).

(** [self._buckets[client_id]] on the [defaultdict]: a missing key is
    filled by the factory [TokenBucket(self.rate, self.capacity)]. *)
Definition getitem (client_id : string) (self : t) : M (TokenBucket.t * t) :=
  match _buckets self !! client_id with
  | Some bucket => ret (bucket, self)
  | None =>
      bucket ← TokenBucket.__init__ (rate self) (inject_Z (capacity self));
      ret (bucket, set_buckets (<[client_id := bucket]> (_buckets self)) self)
  end.

(** The bucket held under [client_id] after a method mutated it in place. *)
Definition store (client_id : string) (bucket : TokenBucket.t) (self : t) : t :=
  set_buckets (<[client_id := bucket]> (_buckets self)) self.

(** [RateLimiter.is_allowed(client_id)]: the returned pair and the limiter
    after the call. *)
Definition is_allowed (client_id : string) (self : t) : M ((bool * Z) * t) :=
  self ← _maybe_cleanup self;
  '(bucket, self) ← getitem client_id self;
  '(ok, bucket) ← TokenBucket.consume 1 bucket;
  let self := store client_id bucket self in
  if (ok : bool) then ret ((true, 0), self)
  else
    '(wait, bucket) ← TokenBucket.time_until_available 1 bucket;
    let self := store client_id bucket self in
    let retry_after := py_int wait + 1 in
    ret ((false, retry_after), self).

(** A run of [is_allowed] calls, one per key of the list.  The log has one
    entry per call: the key, the time at which the call began (the reading
    its cleanup takes) and the pair the call returned. *)
Fixpoint is_allowed_all (client_ids : list string) (self : t)
    : M (list (string * Q * (bool * Z)) * t) :=
  match client_ids with
  | [] => ret (@nil (string * Q * (bool * Z)), self)
  | client_id :: rest =>
      started ← peek_time;
      '(r, self) ← is_allowed client_id self;
      '(log, self) ← is_allowed_all rest self;
      ret ((client_id, started, r) :: log, self)
  end.

End RateLimiter.

(** ** QuotaTracker *)

Module QuotaTracker.

Record t : Type := mk {
  daily_limit : Z;
  _usage : gmap string Z
}.

(** [QuotaTracker.__init__(daily_limit)] *)
Definition __init__ (daily_limit : Z) : t :=
  {| daily_limit := daily_limit; _usage := ∅ |}.

(** [self._usage.get(user_id, 0)] *)
Definition usage_get (user_id : string) (self : t) : Z :=
  default 0 (_usage self !! user_id).

(** [check_quota(user_id)]: the result and the tracker after the call. *)
Definition check_quota (user_id : string) (self : t) : bool * t :=
  let current := usage_get user_id self in
  (Z.ltb current (daily_limit self), self).

(** [increment_usage(user_id, amount)] *)
Definition increment_usage (user_id : string) (amount : Z) (self : t) : Z * t :=
  let current := usage_get user_id self in
  let new_total := current + amount in
  (new_total,
   {| daily_limit := daily_limit self;
      _usage := <[user_id := new_total]> (_usage self) |}).

(** [get_remaining(user_id)] *)
Definition get_remaining (user_id : string) (self : t) : Z * t :=
  let current := usage_get user_id self in
  (Z.max 0 (daily_limit self - current), self).

(** [reset_user(user_id)] *)
Definition reset_user (user_id : string) (self : t) : t :=
  {| daily_limit := daily_limit self;
     _usage := <[user_id := 0]> (_usage self) |}.

(** [reset_all()] *)
Definition reset_all (self : t) : t :=
  {| daily_limit := daily_limit self; _usage := ∅ |}.

(** A run of [increment_usage] calls on one key, with the value
    [get_remaining] reports after each call. *)
Fixpoint remaining_trace (user_id : string) (amounts : list Z) (self : t)
    : list Z :=
  match amounts with
  | [] => []
  | amount :: rest =>
      let self := snd (increment_usage user_id amount self) in
      fst (get_remaining user_id self) :: remaining_trace user_id rest self
  end.

End QuotaTracker.

(** ** Clocks and scenarios used as concrete inputs *)

(** A clock that stands still at [now]. *)
Definition frozen (now : Q) : Clock := {| readings := fun _ => now; cursor := 0 |}.

(** A clock that advances by one second per reading, from 0. *)
Definition ticking : Clock :=
  {| readings := fun i => inject_Z (Z.of_nat i); cursor := 0 |}.

(** A clock that reads the values of [ts] in turn, then stays at [final]. *)
Definition scripted (ts : list Q) (final : Q) : Clock :=
  {| readings := fun i => nth i ts final; cursor := 0 |}.

(** A limiter built by the constructor and then put through the calls of
    [client_ids], with the pairs the calls returned. *)
Definition after_calls (settings : Settings.t) (requests_per_window
    window_seconds : Z) (burst_multiplier : Q) (client_ids : list string)
    : M (list (string * Q * (bool * Z)) * RateLimiter.t) :=
  self ← RateLimiter.__init__ settings (Some requests_per_window)
           (Some window_seconds) burst_multiplier;
  RateLimiter.is_allowed_all client_ids self.

(** The limiter [RateLimiter(2, 3, 1.5)] created at time 0 whose client
    ["a"] has spent its three tokens at time 0. *)
Definition drained_limiter : RateLimiter.t :=
  {| RateLimiter.requests_per_window := 2;
     RateLimiter.window_seconds := 3;
     RateLimiter.rate := 2 # 3;
     RateLimiter.capacity := 3;
     RateLimiter._buckets :=
       {[ "a"%string :=
            {| TokenBucket.rate := 2 # 3; TokenBucket.capacity := 3;
               TokenBucket.tokens := 0; TokenBucket.last_update := 0 |} ]};
     RateLimiter._last_cleanup := 0;
     RateLimiter._cleanup_interval := 3600 |}.

(** Successive values are strictly smaller, or both 0. *)
Fixpoint decreasing_or_zero (previous : Z) (values : list Z) : Prop :=
  match values with
  | [] => True
  | v :: rest =>
      (v < previous \/ (v = 0 /\ previous = 0)) /\ decreasing_or_zero v rest
  end.

(** What [is_allowed] does with the client's bucket once the cleanup has
    run: [found] is what the mapping holds under the key, [rate] and
    [capacity] are the limiter's, used by the [defaultdict] factory.  The
    result is the returned pair and the bucket as the call leaves it. *)
Definition bucket_decision (found : option TokenBucket.t) (rate : Q)
    (capacity : Z) : M ((bool * Z) * TokenBucket.t) :=
  bucket ← match found with
           | Some bucket => ret bucket
           | None => TokenBucket.__init__ rate (inject_Z capacity)
           end;
  '(ok, bucket) ← TokenBucket.consume 1 bucket;
  if (ok : bool) then ret ((true, 0), bucket)
  else
    '(wait, bucket) ← TokenBucket.time_until_available 1 bucket;
    ret ((false, py_int wait + 1), bucket).

(** Every bucket of the limiter carries the limiter's positive rate. *)
Definition positive_rates (self : RateLimiter.t) : Prop :=
  (0 < RateLimiter.rate self)%Q /\
  forall (k : string) (b : TokenBucket.t),
    RateLimiter._buckets self !! k = Some b ->
    TokenBucket.rate b = RateLimiter.rate self.

(** The rate of the bucket the decision works on. *)
Definition decision_rate (found : option TokenBucket.t) (rate0 : Q) : Q :=
  match found with
  | Some b => TokenBucket.rate b
  | None => rate0
  end.



(** ** The core as its collaborators see it: one limiter, one tracker *)

Module Core.

Record t : Type := mk {
  limiter : RateLimiter.t;
  tracker : QuotaTracker.t
}.

(** The operations of the external interface. *)
Inductive call : Type :=
  | IsAllowed (client_id : string)
  | CheckQuota (user_id : string)
  | IncrementUsage (user_id : string) (amount : Z)
  | GetRemaining (user_id : string).

Inductive answer : Type :=
  | Decision (allowed : bool) (retry_after : Z)
  | Flag (b : bool)
  | Count (n : Z).

(** The limiter of [main.py] and the tracker of [MapsService]. *)
Definition start (settings : Settings.t) (requests_per_window
    window_seconds : option Z) (burst_multiplier : Q) (daily_limit : Z)
    : M t :=
  limiter ← RateLimiter.__init__ settings requests_per_window window_seconds
              burst_multiplier;
  ret {| limiter := limiter; tracker := QuotaTracker.__init__ daily_limit |}.

Definition perform (op : call) (self : t) : M (answer * t) :=
  match op with
  | IsAllowed client_id =>
      '((allowed, retry_after), limiter) ←
        RateLimiter.is_allowed client_id (limiter self);
      ret (Decision allowed retry_after,
           {| limiter := limiter; tracker := tracker self |})
  | CheckQuota user_id =>
      let '(b, tracker) := QuotaTracker.check_quota user_id (tracker self) in
      ret (Flag b, {| limiter := limiter self; tracker := tracker |})
  | IncrementUsage user_id amount =>
      let '(n, tracker) :=
        QuotaTracker.increment_usage user_id amount (tracker self) in
      ret (Count n, {| limiter := limiter self; tracker := tracker |})
  | GetRemaining user_id =>
      let '(n, tracker) := QuotaTracker.get_remaining user_id (tracker self) in
      ret (Count n, {| limiter := limiter self; tracker := tracker |})
  end.

Fixpoint perform_all (ops : list call) (self : t) : M (list answer * t) :=
  match ops with
  | [] => ret (@nil answer, self)
  | op :: rest =>
      '(a, self) ← perform op self;
      '(answers, self) ← perform_all rest self;
      ret (a :: answers, self)
  end.

End Core.

(** ** Notions used to state per-key independence *)

(** The two limiters differ at most in the bucket held under [A]. *)
Definition agree_except (A : string) (s1 s2 : RateLimiter.t) : Prop :=
  RateLimiter.requests_per_window s1 = RateLimiter.requests_per_window s2 /\
  RateLimiter.window_seconds s1 = RateLimiter.window_seconds s2 /\
  RateLimiter.rate s1 = RateLimiter.rate s2 /\
  RateLimiter.capacity s1 = RateLimiter.capacity s2 /\
  RateLimiter._last_cleanup s1 = RateLimiter._last_cleanup s2 /\
  RateLimiter._cleanup_interval s1 = RateLimiter._cleanup_interval s2 /\
  forall k : string,
    k <> A -> RateLimiter._buckets s1 !! k = RateLimiter._buckets s2 !! k.

(** The pair a call returned, or [None] if it raised. *)
Definition outcome (res : option ((bool * Z) * RateLimiter.t * Clock))
    : option (bool * Z) :=
  match res with
  | Some ((r, _), _) => Some r
  | None => None
  end.



(** The limiter [RateLimiter(2, 3, 1.5)] created at time 0, with a full
    bucket for ["b"] and an idle one, last touched at time -4000, for
    ["idle"]. *)
Definition two_client_limiter : RateLimiter.t :=
  {| RateLimiter.requests_per_window := 2;
     RateLimiter.window_seconds := 3;
     RateLimiter.rate := 2 # 3;
     RateLimiter.capacity := 3;
     RateLimiter._buckets :=
       <[ "b"%string :=
            {| TokenBucket.rate := 2 # 3; TokenBucket.capacity := 3;
               TokenBucket.tokens := 3; TokenBucket.last_update := 0 |} ]>
       {[ "idle"%string :=
            {| TokenBucket.rate := 2 # 3; TokenBucket.capacity := 3;
               TokenBucket.tokens := 1; TokenBucket.last_update := -4000 |} ]};
     RateLimiter._last_cleanup := -3600;
     RateLimiter._cleanup_interval := 3600 |}.

(** ** Notions used to state the budget a bucket grants *)



(** Every bucket of the limiter was made by the limiter's factory: it has
    the limiter's positive rate and the limiter's capacity. *)
Definition conforming (self : RateLimiter.t) : Prop :=
  positive_rates self /\
  forall (k : string) (b : TokenBucket.t),
    RateLimiter._buckets self !! k = Some b ->
    TokenBucket.capacity b = inject_Z (RateLimiter.capacity self).

(** The limiter with the entry of [client_id] taken out of the mapping. *)
Definition without_client (client_id : string) (self : RateLimiter.t)
    : RateLimiter.t :=
  RateLimiter.set_buckets (delete client_id (RateLimiter._buckets self)) self.

(** A clock on which three readings in a row show the same second and the
    time then moves on by one second. *)
Definition three_a_second : Clock :=
  {| readings := fun i => inject_Z (Z.of_nat (i / 3)); cursor := 0 |}.

(** ** Python [str] operations used by the middleware and the settings

    A Python [str] is a Rocq [string], one character per code point below
    256.  Header values reach the application decoded as Latin-1, so they
    are covered entirely; text with other code points is not modelled. *)

(** [ch.isspace()] on a code point below 256: TAB to CR, FS to US, the
    space, NEL and the no-break space. *)
Definition py_isspace (a : ascii) : bool :=
  let n := N_of_ascii a in
  ((9 <=? n)%N && (n <=? 13)%N) || ((28 <=? n)%N && (n <=? 32)%N)
  || (n =? 133)%N || (n =? 160)%N.

(** [s.lstrip()] *)
Fixpoint py_lstrip (s : string) : string :=
  match s with
  | EmptyString => EmptyString
  | String a s' => if py_isspace a then py_lstrip s' else s
  end.

(** [s.rstrip()] *)
Fixpoint py_rstrip (s : string) : string :=
  match s with
  | EmptyString => EmptyString
  | String a s' =>
      match py_rstrip s' with
      | EmptyString =>
          if py_isspace a then EmptyString else String a EmptyString
      | r => String a r
      end
  end.

(** [s.strip()] *)
Definition py_strip (s : string) : string := py_rstrip (py_lstrip s).

(** [s.split(sep)] for a one-character separator. *)
Fixpoint py_split (sep : ascii) (s : string) : list string :=
  match s with
  | EmptyString => [EmptyString]
  | String a s' =>
      if Ascii.eqb a sep then EmptyString :: py_split sep s'
      else match py_split sep s' with
           | field :: fields => String a field :: fields
           | [] => [String a EmptyString]
           end
  end.

(** [parts[0]]; an empty list raises [IndexError]. *)
Definition py_first (parts : list string) : option string := head parts.

(** [s.startswith(prefix)] *)
Definition py_startswith (s prefix : string) : bool := String.prefix prefix s.

(** [s[:n]] and [s[-n:]] for a natural [n]. *)
Definition py_head (n : nat) (s : string) : string := String.substring 0 n s.
Definition py_tail (n : nat) (s : string) : string :=
  String.substring (String.length s - n) n s.

(** [str(n)] for an [int]. *)
Definition py_str_int (n : Z) : string := NilZero.string_of_int (Z.to_int n).

(** [bool(s)] for a [str]: the empty string is falsy. *)
Definition py_bool_str (s : string) : bool := negb (String.eqb s "").

(** The character [a] occurs in [s]. *)
Fixpoint occurs (a : ascii) (s : string) : bool :=
  match s with
  | EmptyString => false
  | String b s' => Ascii.eqb b a || occurs a s'
  end.

(** The number of occurrences of [a] in [s]. *)
Fixpoint count_char (a : ascii) (s : string) : nat :=
  match s with
  | EmptyString => 0
  | String b s' => (if Ascii.eqb b a then 1 else 0) + count_char a s'
  end.

(** The first and the last character of [s]. *)
Definition first_char (s : string) : option ascii :=
  match s with
  | EmptyString => None
  | String a _ => Some a
  end.

Fixpoint last_char (s : string) : option ascii :=
  match s with
  | EmptyString => None
  | String a EmptyString => Some a
  | String _ s' => last_char s'
  end.

(** [s] neither begins nor ends with white space. *)
Definition stripped (s : string) : Prop :=
  (forall a, first_char s = Some a -> py_isspace a = false) /\
  (forall a, last_char s = Some a -> py_isspace a = false).

(** Every character of [s] is white space. *)
Fixpoint blank (s : string) : bool :=
  match s with
  | EmptyString => true
  | String a s' => py_isspace a && blank s'
  end.

(** ** The request and the middleware *)

Module Request.

(** What [dispatch] reads of a request: [request.url.path],
    [request.headers.get("X-Forwarded-For")] and, when [request.client] is
    not [None], [request.client.host]. *)
Record t : Type := mk {
  path : string;
  x_forwarded_for : option string;
  client_host : option string
}.

End Request.

Module RateLimitExceeded.

(** The [HTTPException] raised on a denial. *)
Record t : Type := mk {
  status_code : Z;
  retry_after : Z;
  headers : list (string * string)
}.

(** [RateLimitExceeded.__init__(retry_after)] *)
Definition __init__ (retry_after : Z) : t :=
  {| status_code := 429;
     retry_after := retry_after;
     headers := [("Retry-After"%string, py_str_int retry_after)] |}.

End RateLimitExceeded.

Module RateLimitMiddleware.

Record t : Type := mk {
  limiter : RateLimiter.t;
  exclude_paths : list string
}.

(** How a [dispatch] call ends: with the response it returns, with the
    [RateLimitExceeded] it raises, or with the exception the handler
    raised. *)
Inductive ending (Response : Type) : Type :=
  | Returned (response : Response)
  | Limited (e : RateLimitExceeded.t)
  | HandlerRaised.

Arguments Returned {Response} response.
Arguments Limited {Response} e.
Arguments HandlerRaised {Response}.

Definition default_exclude_paths : list string :=
  ["/health"; "/docs"; "/openapi.json"; "/redoc"]%string.

(** [RateLimitMiddleware.__init__(app, limiter, exclude_paths)]:
    [limiter or RateLimiter()] and [exclude_paths or [...]]; an empty list
    is falsy. *)
Definition __init__ (settings : Settings.t) (limiter : option RateLimiter.t)
    (exclude_paths : option (list string)) : M t :=
  limiter ← match limiter with
            | Some limiter => ret limiter
            | None => RateLimiter.__init__ settings None None (3 # 2)
            end;
  ret {| limiter := limiter;
         exclude_paths := match exclude_paths with
                          | Some (p :: ps) => p :: ps
                          | Some [] | None => default_exclude_paths
                          end |}.

(** [_get_client_id(request)] *)
Definition _get_client_id (request : Request.t) : string :=
  match Request.x_forwarded_for request with
  | Some forwarded =>
      if py_bool_str forwarded then
        match py_first (py_split "," forwarded) with
        | Some first => py_strip first
        | None => EmptyString
        end
      else match Request.client_host request with
           | Some host => host
           | None => "unknown"
           end
  | None =>
      match Request.client_host request with
      | Some host => host
      | None => "unknown"
      end
  end.

(** The test at the head of [dispatch]:
    [any(request.url.path.startswith(path) for path in self.exclude_paths)]. *)
Definition excluded (self : t) (request : Request.t) : bool :=
  existsb (py_startswith (Request.path request)) (exclude_paths self).

(** [dispatch(request, call_next)].  [call_next] is the rest of the
    application: it turns a request and the application's state into a
    response, or [None] when it raises, and a new state.  [set_header] is
    [response.headers[name] = value]. *)
Definition dispatch {Response App : Type}
    (call_next : Request.t -> App -> option Response * App)
    (set_header : string -> string -> Response -> Response)
    (self : t) (request : Request.t) (app : App)
    : M (ending Response * t * App) :=
  if excluded self request then
    let '(response, app) := call_next request app in
    ret (match response with
         | Some response => Returned response
         | None => HandlerRaised
         end, self, app)
  else
    let client_id := _get_client_id request in
    '((allowed, retry_after), limiter) ←
      RateLimiter.is_allowed client_id (limiter self);
    let self := {| limiter := limiter; exclude_paths := exclude_paths self |} in
    if (allowed : bool) then
      let '(response, app) := call_next request app in
      match response with
      | Some response =>
          let response :=
            set_header "X-RateLimit-Limit"
              (py_str_int (RateLimiter.requests_per_window limiter)) response in
          let response :=
            set_header "X-RateLimit-Window"
              (py_str_int (RateLimiter.window_seconds limiter)) response in
          ret (Returned response, self, app)
      | None => ret (HandlerRaised, self, app)
      end
    else
      ret (Limited (RateLimitExceeded.__init__ retry_after), self, app).

End RateLimitMiddleware.

(** The exclusion list [main.py] passes to the middleware. *)
Definition main_exclude_paths : list string :=
  ["/health"; "/docs"; "/openapi.json"; "/redoc"; "/"]%string.

(** What the handler makes of a request that reaches it. *)
Definition served {Response App : Type}
    (call_next : Request.t -> App -> option Response * App)
    (request : Request.t) (app : App)
    : RateLimitMiddleware.ending Response :=
  match fst (call_next request app) with
  | Some response => RateLimitMiddleware.Returned response
  | None => RateLimitMiddleware.HandlerRaised
  end.

(** A small application used as a concrete input: its state counts the
    requests that reached the handler, a response is its list of headers,
    and the handler answers with no header of its own. *)
Definition counting_handler (request : Request.t) (handled : nat)
    : option (list (string * string)) * nat :=
  (Some [], S handled).

Definition cons_header (name value : string)
    (response : list (string * string)) : list (string * string) :=
  (name, value) :: response.

(** ** The text settings of [config.py] and the key manager *)

Module TextSettings.

(** The string fields of [config.Settings] that carry validators or
    properties. *)
Record t : Type := mk {
  google_maps_api_key : string;
  google_maps_frontend_key : string;
  allowed_origins : string
}.

(** [Settings.validate_api_key(v)]; [None] is the [ValueError]. *)
Definition validate_api_key (v : string) : option string :=
  if py_bool_str v && (String.length v <? 20)%nat then None else Some v.

(** [Settings.parse_origins(v)] *)
Definition parse_origins (v : string) : string := py_strip v.

(** The settings object built from raw values: [validate_api_key] runs on
    both keys and [parse_origins] on the origins, as their
    [field_validator] decorators say; [None] when a validator raises. *)
Definition validated (api_key frontend_key origins : string) : option t :=
  match validate_api_key api_key, validate_api_key frontend_key with
  | Some api_key, Some frontend_key =>
      Some {| google_maps_api_key := api_key;
              google_maps_frontend_key := frontend_key;
              allowed_origins := parse_origins origins |}
  | _, _ => None
  end.

(** The [cors_origins] property. *)
Definition cors_origins (self : t) : list string :=
  py_strip <$> py_split "," (allowed_origins self).

End TextSettings.

Module APIKeyManager.

Record t : Type := mk { settings : TextSettings.t }.

(** [_validate_keys()]; [None] is the [ValueError]. *)
Definition _validate_keys (self : t) : option unit :=
  if negb (py_bool_str (TextSettings.google_maps_api_key (settings self)))
  then None else Some tt.

(** [APIKeyManager.__init__(settings)] *)
Definition __init__ (settings : TextSettings.t) : option t :=
  let self := {| settings := settings |} in
  match _validate_keys self with
  | Some _ => Some self
  | None => None
  end.

(** [get_backend_key()] *)
Definition get_backend_key (self : t) : string :=
  TextSettings.google_maps_api_key (settings self).

(** [get_frontend_key()]: [self.settings.google_maps_frontend_key or None]. *)
Definition get_frontend_key (self : t) : option string :=
  let key := TextSettings.google_maps_frontend_key (settings self) in
  if py_bool_str key then Some key else None.

(** [mask_key(key)] *)
Definition mask_key (key : string) : string :=
  if (String.length key <=? 8)%nat then "***"%string
  else (py_head 4 key +:+ "..." +:+ py_tail 4 key)%string.

End APIKeyManager.

(** The masked key [main.py] writes to the log at start-up, when a key is
    configured: [f"{key[:4]}...{key[-4:]}"]. *)
Definition lifespan_masked_key (settings : TextSettings.t) : option string :=
  let key := TextSettings.google_maps_api_key settings in
  if py_bool_str key
  then Some (py_head 4 key +:+ "..." +:+ py_tail 4 key)%string
  else None.

(** ** Runs of the quota tracker *)

(** [increment_usage(user_id, amount)] for each amount in turn: the totals
    the calls returned and the tracker they leave. *)
Fixpoint increment_each (user_id : string) (amounts : list Z)
    (self : QuotaTracker.t) : list Z * QuotaTracker.t :=
  match amounts with
  | [] => ([], self)
  | amount :: rest =>
      let '(total, self) := QuotaTracker.increment_usage user_id amount self in
      let '(totals, self) := increment_each user_id rest self in
      (total :: totals, self)
  end.

(** What the two read operations answer for a key. *)
Definition quota_reads (user_id : string) (self : QuotaTracker.t) : bool * Z :=
  (fst (QuotaTracker.check_quota user_id self),
   fst (QuotaTracker.get_remaining user_id self)).

(** ** MapsService: the quota gate around the calls to the maps API

    The HTTP client and the JSON payloads are collaborators of the
    service.  [client_get] stands for [await client.get(url, params)]: it
    takes the request and the state of the outside world and gives the
    reply and the new state.  A payload is a value of an abstract type
    [Data], read through the accessors of [Api]; where the source builds
    its result objects from the payload, the accessor returns the object,
    or tells that building it raised. *)

Module MapsService.

(** The two fields of [config.Settings] the searches read. *)
Record SearchSettings : Type := {
  default_search_radius : Z;
  max_search_results : Z
}.

(** The URL and the parameters of a request. *)
Inductive request : Type :=
  | TextSearch (query key : string) (location : option ((Q * Q) * Z))
      (place_type : option string)
  | PlaceDetailsOf (place_id key : string)
  | DirectionsBetween (origin destination : Q * Q) (mode key : string)
  | GeocodeOf (address key : string).

(** How [await client.get(...)] ends: with a response, whose [json()]
    gives a payload or raises, with [httpx.TimeoutException], or with
    another exception; an exception comes with its [str(e)]. *)
Inductive reply (Data : Type) : Type :=
  | Responded (status_code : Z) (json : Data + string)
  | TimedOut
  | Raised (message : string).

Arguments Responded {Data} status_code json.
Arguments TimedOut {Data}.
Arguments Raised {Data} message.

Record SearchResponse (Place : Type) : Type := {
  success : bool;
  places : list Place;
  error : option string;
  quota_remaining : option Z
}.

Arguments success {Place} _.
Arguments places {Place} _.
Arguments error {Place} _.
Arguments quota_remaining {Place} _.

Record t : Type := mk {
  api_key : string;
  quota_tracker : QuotaTracker.t
}.

(** [MapsService.__init__()] *)
Definition __init__ (keys : TextSettings.t) (settings : Settings.t) : t :=
  {| api_key := TextSettings.google_maps_api_key keys;
     quota_tracker :=
       QuotaTracker.__init__ (Settings.daily_quota_limit settings) |}.

(** [_check_quota(user_id)] *)
Definition _check_quota (user_id : string) (self : t) : bool :=
  fst (QuotaTracker.check_quota user_id (quota_tracker self)).

(** [_increment_quota(user_id, amount)] *)
Definition _increment_quota (user_id : string) (amount : Z) (self : t) : t :=
  {| api_key := api_key self;
     quota_tracker :=
       snd (QuotaTracker.increment_usage user_id amount (quota_tracker self)) |}.

(** The usage recorded for a user, and the daily limit. *)
Definition usage (user_id : string) (self : t) : Z :=
  QuotaTracker.usage_get user_id (quota_tracker self).

Definition limit (self : t) : Z :=
  QuotaTracker.daily_limit (quota_tracker self).

(** [items[:n]] for an [int] bound. *)
Definition py_upto {A : Type} (n : Z) (items : list A) : list A :=
  if n <? 0 then take (length items - Z.to_nat (- n)) items
  else take (Z.to_nat n) items.

Section WithApi.

Context {World Data Raw Place Details Directions Geocoded : Type}.

(** The collaborators. *)
Record Api : Type := {
  client_get : request -> World -> reply Data * World;
  (** [data.get("status")] and [data.get("error_message")] *)
  status : Data -> option string;
  error_message : Data -> option string;
  (** [data.get("results", [])] and the [PlaceResult] built from one
      entry, or the message of the exception that building it raised *)
  results : Data -> list Raw;
  place_result : Raw -> Place + string;
  (** the object the method builds from the payload, [None] when building
      it raises *)
  place_details : string -> Data -> option Details;
  directions_result : Q * Q -> Q * Q -> Data -> option Directions;
  geocode_result : Data -> option Geocoded
}.

Variable api : Api.
Variable settings : SearchSettings.

(** The loop of [search_places] that builds the list of places. *)
Fixpoint build_places (raws : list Raw) : list Place + string :=
  match raws with
  | [] => inl []
  | raw :: rest =>
      match place_result api raw with
      | inl place =>
          match build_places rest with
          | inl places => inl (place :: places)
          | inr message => inr message
          end
      | inr message => inr message
      end
  end.

Definition failure (message : string) : SearchResponse Place :=
  {| success := false; places := []; error := Some message;
     quota_remaining := None |}.

(** What [search_places] does once [await client.get(...)] has come back
    with [r].  The service is a module-level object shared by all
    requests, and other calls can run while this one waits: [self] is the
    service as it is when the call resumes. *)
Definition search_places_resume (user_id : string) (r : reply Data)
    (self : t) : SearchResponse Place * t :=
  match r with
  | TimedOut => (failure "Request timed out. Please try again.", self)
  | Raised message => (failure message, self)
  | Responded status_code json =>
      let self := _increment_quota user_id 1 self in
      if negb (status_code =? 200) then
        (failure ("API request failed: " +:+ py_str_int status_code), self)
      else
        match json with
        | inr message => (failure message, self)
        | inl data =>
            let ok :=
              match status api data with
              | Some st => String.eqb st "OK" || String.eqb st "ZERO_RESULTS"
              | None => false
              end in
            if negb ok then
              let error_msg :=
                match error_message api data with
                | Some message => message
                | None => default "Unknown error"%string (status api data)
                end in
              (failure error_msg, self)
            else
              match build_places
                      (py_upto (max_search_results settings)
                         (results api data)) with
              | inr message => (failure message, self)
              | inl places =>
                  ({| success := true; places := places; error := None;
                      quota_remaining :=
                        Some (fst (QuotaTracker.get_remaining user_id
                                     (quota_tracker self))) |},
                   self)
              end
        end
  end.

(** [search_places(query, location, radius, place_type, user_id)], when no
    other call touches the service while the request is awaited. *)
Definition search_places (query : string) (location : option (Q * Q))
    (radius : option Z) (place_type : option string) (user_id : string)
    (self : t) (world : World) : SearchResponse Place * t * World :=
  if negb (_check_quota user_id self) then
    ({| success := false; places := [];
        error := Some "Daily API quota exceeded. Please try again tomorrow."%string;
        quota_remaining := Some 0 |}, self, world)
  else
    let location :=
      match location with
      | Some l => Some (l, py_or radius (default_search_radius settings))
      | None => None
      end in
    let place_type :=
      match place_type with
      | Some ty => if py_bool_str ty then Some ty else None
      | None => None
      end in
    let '(r, world) :=
      client_get api (TextSearch query (api_key self) location place_type)
        world in
    let '(response, self) := search_places_resume user_id r self in
    (response, self, world).

(** The part the three other methods share in the source text: the quota
    gate, the request, the charge, and the checks of the status code and
    of the payload's status; [build] makes the result from the payload. *)
Definition gated {Result : Type} (req : request)
    (build : Data -> option Result) (user_id : string) (self : t)
    (world : World) : option Result * t * World :=
  if negb (_check_quota user_id self) then (None, self, world)
  else
    let '(r, world) := client_get api req world in
    match r with
    | TimedOut | Raised _ => (None, self, world)
    | Responded status_code json =>
        let self := _increment_quota user_id 1 self in
        if negb (status_code =? 200) then (None, self, world)
        else
          match json with
          | inr _ => (None, self, world)
          | inl data =>
              match status api data with
              | Some st =>
                  if String.eqb st "OK" then (build data, self, world)
                  else (None, self, world)
              | None => (None, self, world)
              end
          end
    end.

(** [get_place_details(place_id, user_id)] *)
Definition get_place_details (place_id user_id : string) (self : t)
    (world : World) : option Details * t * World :=
  gated (PlaceDetailsOf place_id (api_key self))
    (place_details api place_id) user_id self world.

(** [get_directions(origin, destination, mode, user_id)] *)
Definition get_directions (origin destination : Q * Q) (mode user_id : string)
    (self : t) (world : World) : option Directions * t * World :=
  gated (DirectionsBetween origin destination mode (api_key self))
    (directions_result api origin destination) user_id self world.

(** [geocode(address, user_id)] *)
Definition geocode (address user_id : string) (self : t) (world : World)
    : option Geocoded * t * World :=
  gated (GeocodeOf address (api_key self)) (geocode_result api) user_id self
    world.

(** The calls a route can make, and what they return. *)
Inductive call : Type :=
  | SearchPlaces (query : string) (location : option (Q * Q))
      (radius : option Z) (place_type : option string) (user_id : string)
  | GetPlaceDetails (place_id user_id : string)
  | GetDirections (origin destination : Q * Q) (mode user_id : string)
  | Geocode (address user_id : string).

Inductive answer : Type :=
  | Searched (response : SearchResponse Place)
  | Detailed (details : option Details)
  | Directed (directions : option Directions)
  | Geocoded_ (location : option Geocoded).

Definition user_of (c : call) : string :=
  match c with
  | SearchPlaces _ _ _ _ user_id | GetPlaceDetails _ user_id
  | GetDirections _ _ _ user_id | Geocode _ user_id => user_id
  end.

(** The request a call sends when the quota lets it through. *)
Definition request_of (c : call) (self : t) : request :=
  match c with
  | SearchPlaces query location radius place_type _ =>
      TextSearch query (api_key self)
        (match location with
         | Some l => Some (l, py_or radius (default_search_radius settings))
         | None => None
         end)
        (match place_type with
         | Some ty => if py_bool_str ty then Some ty else None
         | None => None
         end)
  | GetPlaceDetails place_id _ => PlaceDetailsOf place_id (api_key self)
  | GetDirections origin destination mode _ =>
      DirectionsBetween origin destination mode (api_key self)
  | Geocode address _ => GeocodeOf address (api_key self)
  end.

Definition perform (c : call) (self : t) (world : World)
    : answer * t * World :=
  match c with
  | SearchPlaces query location radius place_type user_id =>
      let '(r, self, world) :=
        search_places query location radius place_type user_id self world in
      (Searched r, self, world)
  | GetPlaceDetails place_id user_id =>
      let '(r, self, world) := get_place_details place_id user_id self world in
      (Detailed r, self, world)
  | GetDirections origin destination mode user_id =>
      let '(r, self, world) :=
        get_directions origin destination mode user_id self world in
      (Directed r, self, world)
  | Geocode address user_id =>
      let '(r, self, world) := geocode address user_id self world in
      (Geocoded_ r, self, world)
  end.

Fixpoint perform_all (cs : list call) (self : t) (world : World)
    : list answer * t * World :=
  match cs with
  | [] => ([], self, world)
  | c :: rest =>
      let '(a, self, world) := perform c self world in
      let '(answers, self, world) := perform_all rest self world in
      (a :: answers, self, world)
  end.

(** What a call adds to the usage of its user, given the reply. *)
Definition charge_for (r : reply Data) : Z :=
  match r with
  | Responded _ _ => 1
  | TimedOut | Raised _ => 0
  end.

(** The effect of one call on the tracker and on the outside world: when
    the quota check of the user passes, the request is sent once and the
    user is charged if a response came back; otherwise nothing happens. *)
Definition quota_effect (c : call) (self self' : t) (world world' : World)
    : Prop :=
  api_key self' = api_key self /\
  limit self' = limit self /\
  if _check_quota (user_of c) self then
    world' = snd (client_get api (request_of c self) world) /\
    forall other,
      usage other self'
      = usage other self
        + (if decide (other = user_of c)
           then charge_for (fst (client_get api (request_of c self) world))
           else 0)
  else self' = self /\ world' = world.

End WithApi.

Arguments Api : clear implicits.

End MapsService.

(** A maps API used as a concrete input: the world counts the requests it
    received; every request is answered 200 with a payload of status OK
    that lists three results. *)
Definition counting_api : MapsService.Api nat unit nat nat nat nat nat :=
  {| MapsService.client_get := fun _ received =>
       (MapsService.Responded 200 (inl tt), S received);
     MapsService.status := fun _ => Some "OK"%string;
     MapsService.error_message := fun _ => None;
     MapsService.results := fun _ => [1; 2; 3]%nat;
     MapsService.place_result := fun raw => inl raw;
     MapsService.place_details := fun _ _ => Some 0%nat;
     MapsService.directions_result := fun _ _ _ => Some 0%nat;
     MapsService.geocode_result := fun _ => Some 0%nat |}.

Definition two_results : MapsService.SearchSettings :=
  {| MapsService.default_search_radius := 5000;
     MapsService.max_search_results := 2 |}.

(** A service whose daily limit is 2, before any call. *)
Definition small_service : MapsService.t :=
  {| MapsService.api_key := "test_api_key_12345678901234567890";
     MapsService.quota_tracker := QuotaTracker.__init__ 2 |}.

(** * The same core on IEEE-754 doubles

    The second embedding of [TokenBucket] and [RateLimiter].  A Python
    [float] is a binary64 value: a finite double, given by its exact
    rational value, an infinity or NaN.  Every arithmetic operation
    returns the exact result rounded to the nearest double, ties to the
    even mantissa, as IEEE 754 prescribes and CPython does for [+], [-],
    [*], [/] on floats, for [float(int)] and for [int / int].  A Python
    [int] stays a [Z], and a value that may be either is a [num].  The two
    zeros are not told apart: this code compares, truncates and divides,
    and [-0.0] behaves as [0.0] in all three (a division by either raises
    [ZeroDivisionError]). *)

(** ** Rounding to the nearest double *)

(** [2^e] for an integer exponent. *)
Definition pow2 (e : Z) : Q := (2 ^ e)%Q.

(** The exponent [e] with [2^e <= q < 2^(e+1)], for [q > 0]. *)
Definition ilog2 (q : Q) : Z :=
  let e0 := Z.log2 (Qnum q) - Z.log2 (Z.pos (Qden q)) in
  if Qle_bool (pow2 e0) q then e0 else e0 - 1.

(** Rounding to the nearest integer, ties to the even one. *)
Definition rne (s : Q) : Z :=
  let f := Qfloor s in
  match (s - inject_Z f ?= 1 # 2)%Q with
  | Lt => f
  | Gt => f + 1
  | Eq => if Z.even f then f else f + 1
  end.

(** A double: finite, with its exact value, an infinity with its sign, or
    NaN. *)
Inductive float : Type :=
  | Fin (q : Q)
  | Inf (negative : bool)
  | NaN.

(** The exponent of the last place of the doubles around [q > 0]. *)
Definition ulp_exponent (q : Q) : Z := Z.max (ilog2 q - 52) (-1074).

(** [q > 0] rounded to 53 significant bits, or to a multiple of 2^-1074
    below the normal range; the exponent is not bounded above. *)
Definition rounded (q : Q) : Q :=
  (inject_Z (rne (q / pow2 (ulp_exponent q))) * pow2 (ulp_exponent q))%Q.

(** The double nearest to [q > 0]: a rounded value of 2^1024 or more
    overflows to infinity. *)
Definition round_pos (q : Q) : float :=
  if Qle_bool (pow2 1024) (rounded q) then Inf false
  else Fin (Qred (rounded q)).

Definition fneg (x : float) : float :=
  match x with
  | Fin q => Fin (- q)
  | Inf s => Inf (negb s)
  | NaN => NaN
  end.

(** The double nearest to [q]. *)
Definition round64 (q : Q) : float :=
  match (q ?= 0)%Q with
  | Eq => Fin 0
  | Gt => round_pos q
  | Lt => fneg (round_pos (- q))
  end.

(** [x <= y] on the values a rounding returns. *)
Definition fle (x y : float) : Prop :=
  match x, y with
  | Fin a, Fin b => (a <= b)%Q
  | Fin _, Inf false => True
  | Inf false, Inf false => True
  | Inf true, (Fin _ | Inf _) => True
  | _, _ => False
  end.

(** The largest finite double. *)
Definition max_double : Q := (inject_Z (2 ^ 53 - 1) * pow2 971)%Q.



(** ** Arithmetic and comparisons of doubles *)

(** The double a decimal literal denotes. *)
Definition double (q : Q) : float := round64 q.

(** [x + y], [x - y], [x * y] and [x / y] on doubles; [fdiv] is used with
    a divisor that is not zero. *)
Definition fadd (x y : float) : float :=
  match x, y with
  | Fin a, Fin b => round64 (a + b)
  | Fin _, Inf s | Inf s, Fin _ => Inf s
  | Inf s, Inf s' => if Bool.eqb s s' then Inf s else NaN
  | _, _ => NaN
  end.

Definition fsub (x y : float) : float := fadd x (fneg y).

Definition fmul (x y : float) : float :=
  match x, y with
  | Fin a, Fin b => round64 (a * b)
  | Fin a, Inf s | Inf s, Fin a =>
      match (a ?= 0)%Q with
      | Eq => NaN
      | Gt => Inf s
      | Lt => Inf (negb s)
      end
  | Inf s, Inf s' => Inf (xorb s s')
  | _, _ => NaN
  end.

Definition fdiv (x y : float) : float :=
  match x, y with
  | Fin a, Fin b => round64 (a / b)
  | Fin _, Inf _ => Fin 0
  | Inf s, Fin b => if Qltb b 0 then Inf (negb s) else Inf s
  | _, _ => NaN
  end.

(** [x < y] and [x <= y]; a comparison with NaN is false. *)
Definition flt (x y : float) : bool :=
  match x, y with
  | Fin a, Fin b => Qltb a b
  | Fin _, Inf s => negb s
  | Inf s, Fin _ => s
  | Inf s, Inf s' => s && negb s'
  | _, _ => false
  end.

Definition fleb (x y : float) : bool :=
  match x, y with
  | Fin a, Fin b => Qle_bool a b
  | Fin _, Inf s => negb s
  | Inf s, Fin _ => s
  | Inf s, Inf s' => s || negb s'
  | _, _ => false
  end.

Definition is_zero (x : float) : bool :=
  match x with
  | Fin q => Qeq_bool q 0
  | _ => false
  end.

(** ** Python numbers: [int] and [float] *)

Inductive exception : Type :=
  | ZeroDivisionError
  | OverflowError
  | ValueError.

(** A value that is an [int] or a [float]. *)
Inductive num : Type :=
  | PyInt (z : Z)
  | PyFloat (x : float).

(** [float(z)]: the nearest double; an integer beyond the doubles raises
    [OverflowError]. *)
Definition float_of_int (z : Z) : exception + float :=
  match round64 (inject_Z z) with
  | Inf _ => inl OverflowError
  | x => inr x
  end.

Definition to_float (x : num) : exception + float :=
  match x with
  | PyInt z => float_of_int z
  | PyFloat x => inr x
  end.

(** The arithmetic of two numbers: exact on two [int]s, otherwise on the
    doubles the operands convert to. *)
Definition mixed (on_int : Z -> Z -> Z) (on_float : float -> float -> float)
    (x y : num) : exception + num :=
  match x, y with
  | PyInt a, PyInt b => inr (PyInt (on_int a b))
  | _, _ =>
      match to_float x with
      | inl e => inl e
      | inr a =>
          match to_float y with
          | inl e => inl e
          | inr b => inr (PyFloat (on_float a b))
          end
      end
  end.

Definition num_add : num -> num -> exception + num := mixed Z.add fadd.
Definition num_sub : num -> num -> exception + num := mixed Z.sub fsub.
Definition num_mul : num -> num -> exception + num := mixed Z.mul fmul.

(** [x / y]: the quotient of two [int]s is the double nearest to the exact
    quotient; a zero divisor raises [ZeroDivisionError] and a quotient of
    [int]s beyond the doubles raises [OverflowError]. *)
Definition num_truediv (x y : num) : exception + num :=
  match x, y with
  | PyInt a, PyInt b =>
      if Z.eqb b 0 then inl ZeroDivisionError
      else match round64 (inject_Z a / inject_Z b) with
           | Inf _ => inl OverflowError
           | q => inr (PyFloat q)
           end
  | _, _ =>
      match to_float x with
      | inl e => inl e
      | inr a =>
          match to_float y with
          | inl e => inl e
          | inr b =>
              if is_zero b then inl ZeroDivisionError
              else inr (PyFloat (fdiv a b))
          end
      end
  end.

(** The value of a number for a comparison, which Python makes on exact
    values. *)
Definition compared (x : num) : float :=
  match x with
  | PyInt z => Fin (inject_Z z)
  | PyFloat x => x
  end.

Definition num_lt (x y : num) : bool := flt (compared x) (compared y).
Definition num_ge (x y : num) : bool := fleb (compared y) (compared x).

(** [min(x, y)]: [y] when [y < x], else [x]. *)
Definition num_min (x y : num) : num := if num_lt y x then y else x.

(** [int(x)] *)
Definition num_int (x : num) : exception + Z :=
  match x with
  | PyInt z => inr z
  | PyFloat (Fin q) => inr (py_int q)
  | PyFloat (Inf _) => inl OverflowError
  | PyFloat NaN => inl ValueError
  end.

(** ** The monad of clock-reading code that can raise *)

Definition E (A : Type) : Type := Clock -> exception + (A * Clock).

#[global] Instance E_ret : MRet E := fun A a c => inr (a, c).

#[global] Instance E_bind : MBind E := fun A B k m c =>
  match m c with
  | inr (a, c') => k a c'
  | inl e => inl e
  end.

Definition lift {A : Type} (r : exception + A) : E A :=
  fun c => match r with
           | inl e => inl e
           | inr a => inr (a, c)
           end.

(** ** TokenBucket, RateLimiter and the core, on doubles *)

Module IEEE.

(** [time.time()]: the reading, a finite double. *)
Definition time_time : E float :=
  fun c => inr (Fin (readings c (cursor c)), advance 1 c).

Module TokenBucket.

Record t : Type := mk {
  rate : num;
  capacity : num;
  tokens : num;
  last_update : float
}.

(** [TokenBucket.__init__(rate, capacity)] *)
Definition __init__ (rate capacity : num) : E t :=
  now ← time_time;
  mret {| rate := rate; capacity := capacity; tokens := capacity;
          last_update := now |}.

(** [TokenBucket._refill()] *)
Definition _refill (self : t) : E t :=
  now ← time_time;
  let elapsed := fsub now (last_update self) in
  tokens_to_add ← lift (num_mul (PyFloat elapsed) (rate self));
  total ← lift (num_add (tokens self) tokens_to_add);
  mret {| rate := rate self; capacity := capacity self;
          tokens := num_min (capacity self) total;
          last_update := now |}.

(** [TokenBucket.consume(tokens)] *)
Definition consume (n : Z) (self : t) : E (bool * t) :=
  self ← _refill self;
  if num_ge (tokens self) (PyInt n) then
    left ← lift (num_sub (tokens self) (PyInt n));
    mret (true, {| rate := rate self; capacity := capacity self;
                   tokens := left; last_update := last_update self |})
  else mret (false, self).

(** [TokenBucket.time_until_available(tokens)] *)
Definition time_until_available (n : Z) (self : t) : E (num * t) :=
  self ← _refill self;
  if num_ge (tokens self) (PyInt n) then mret (PyInt 0, self)
  else
    needed ← lift (num_sub (PyInt n) (tokens self));
    wait ← lift (num_truediv needed (rate self));
    mret (wait, self).

End TokenBucket.

Module RateLimiter.

Record t : Type := mk {
  requests_per_window : Z;
  window_seconds : Z;
  rate : num;
  capacity : Z;
  _buckets : gmap string TokenBucket.t;
  _last_cleanup : float;
  _cleanup_interval : Z
}.

(** [RateLimiter.__init__(requests_per_window, window_seconds,
    burst_multiplier)] *)
Definition __init__ (settings : Settings.t)
    (requests_per_window window_seconds : option Z) (burst_multiplier : float)
    : E t :=
  let requests_per_window :=
    py_or requests_per_window (Settings.rate_limit_requests settings) in
  let window_seconds :=
    py_or window_seconds (Settings.rate_limit_window settings) in
  rate ← lift (num_truediv (PyInt requests_per_window) (PyInt window_seconds));
  product ← lift (num_mul (PyInt requests_per_window)
                    (PyFloat burst_multiplier));
  capacity ← lift (num_int product);
  now ← time_time;
  mret {| requests_per_window := requests_per_window;
          window_seconds := window_seconds;
          rate := rate;
          capacity := capacity;
          _buckets := ∅;
          _last_cleanup := now;
          _cleanup_interval := 3600 |}.

Definition set_buckets (buckets : gmap string TokenBucket.t) (self : t) : t :=
  {| requests_per_window := requests_per_window self;
     window_seconds := window_seconds self;
     rate := rate self;
     capacity := capacity self;
     _buckets := buckets;
     _last_cleanup := _last_cleanup self;
     _cleanup_interval := _cleanup_interval self |}.

(** The first loop of [_maybe_cleanup]: a bucket is stale when
    [now - bucket.last_update > self._cleanup_interval]. *)
Fixpoint stale_clients (now : float) (interval : Z)
    (items : list (string * TokenBucket.t)) : list string :=
  match items with
  | [] => []
  | (client_id, bucket) :: rest =>
      if num_lt (PyInt interval)
           (PyFloat (fsub now (TokenBucket.last_update bucket)))
      then client_id :: stale_clients now interval rest
      else stale_clients now interval rest
  end.

(** The second loop. *)
Fixpoint delete_all (keys : list string) (buckets : gmap string TokenBucket.t)
    : gmap string TokenBucket.t :=
  match keys with
  | [] => buckets
  | client_id :: rest => delete_all rest (delete client_id buckets)
  end.

(** The body of [_maybe_cleanup] once the clock has been read: it returns
    at once when [now - self._last_cleanup < self._cleanup_interval]. *)
Definition cleanup_at (now : float) (self : t) : t :=
  if num_lt (PyFloat (fsub now (_last_cleanup self)))
       (PyInt (_cleanup_interval self))
  then self
  else
    let stale :=
      stale_clients now (_cleanup_interval self) (map_to_list (_buckets self)) in
    {| requests_per_window := requests_per_window self;
       window_seconds := window_seconds self;
       rate := rate self;
       capacity := capacity self;
       _buckets := delete_all stale (_buckets self);
       _last_cleanup := now;
       _cleanup_interval := _cleanup_interval self |}.

(** [RateLimiter._maybe_cleanup()] *)
Definition _maybe_cleanup (self : t) : E t :=
  now ← time_time;
  mret (cleanup_at now self).

(** [self._buckets[client_id]] on the [defaultdict]. *)
Definition getitem (client_id : string) (self : t) : E (TokenBucket.t * t) :=
  match _buckets self !! client_id with
  | Some bucket => mret (bucket, self)
  | None =>
      bucket ← TokenBucket.__init__ (rate self) (PyInt (capacity self));
      mret (bucket, set_buckets (<[client_id := bucket]> (_buckets self)) self)
  end.

Definition store (client_id : string) (bucket : TokenBucket.t) (self : t) : t :=
  set_buckets (<[client_id := bucket]> (_buckets self)) self.

(** [RateLimiter.is_allowed(client_id)] *)
Definition is_allowed (client_id : string) (self : t) : E ((bool * Z) * t) :=
  self ← _maybe_cleanup self;
  '(bucket, self) ← getitem client_id self;
  '(ok, bucket) ← TokenBucket.consume 1 bucket;
  let self := store client_id bucket self in
  if (ok : bool) then mret ((true, 0), self)
  else
    '(wait, bucket) ← TokenBucket.time_until_available 1 bucket;
    let self := store client_id bucket self in
    seconds ← lift (num_int wait);
    mret ((false, seconds + 1), self).

End RateLimiter.

(** One limiter and one tracker, with the calls and answers of [Core]. *)
Module Core.

Record t : Type := mk {
  limiter : RateLimiter.t;
  tracker : QuotaTracker.t
}.

Definition start (settings : Settings.t) (requests_per_window
    window_seconds : option Z) (burst_multiplier : float) (daily_limit : Z)
    : E t :=
  limiter ← RateLimiter.__init__ settings requests_per_window window_seconds
              burst_multiplier;
  mret {| limiter := limiter; tracker := QuotaTracker.__init__ daily_limit |}.

Definition perform (op : Core.call) (self : t) : E (Core.answer * t) :=
  match op with
  | Core.IsAllowed client_id =>
      '((allowed, retry_after), limiter) ←
        RateLimiter.is_allowed client_id (limiter self);
      mret (Core.Decision allowed retry_after,
            {| limiter := limiter; tracker := tracker self |})
  | Core.CheckQuota user_id =>
      let '(b, tracker) := QuotaTracker.check_quota user_id (tracker self) in
      mret (Core.Flag b, {| limiter := limiter self; tracker := tracker |})
  | Core.IncrementUsage user_id amount =>
      let '(n, tracker) :=
        QuotaTracker.increment_usage user_id amount (tracker self) in
      mret (Core.Count n, {| limiter := limiter self; tracker := tracker |})
  | Core.GetRemaining user_id =>
      let '(n, tracker) := QuotaTracker.get_remaining user_id (tracker self) in
      mret (Core.Count n, {| limiter := limiter self; tracker := tracker |})
  end.

Fixpoint perform_all (ops : list Core.call) (self : t)
    : E (list Core.answer * t) :=
  match ops with
  | [] => mret (@nil Core.answer, self)
  | op :: rest =>
      '(a, self) ← perform op self;
      '(answers, self) ← perform_all rest self;
      mret (a :: answers, self)
  end.

End Core.

End IEEE.

(** ** Invariants of the limiter on doubles *)

(** A double that is not negative, or plus infinity. *)
Definition not_negative (x : float) : Prop :=
  x = Inf false \/ exists v, x = Fin v /\ (0 <= v)%Q.

(** A token count between 0 and the capacity, as the bucket holds it: the
    capacity itself, an [int], or a double. *)
Definition token_count (cap : Z) (x : num) : Prop :=
  match x with
  | PyInt z => 0 <= z <= cap
  | PyFloat (Fin q) => (0 <= q)%Q /\ (q <= max_double)%Q
  | PyFloat _ => False
  end.

(** The buckets of a limiter of rate [r] and capacity [cap], at clock [c]. *)
Definition bucket_sound (r : Q) (cap : Z) (c : Clock)
    (b : IEEE.TokenBucket.t) : Prop :=
  IEEE.TokenBucket.rate b = PyFloat (Fin r) /\
  IEEE.TokenBucket.capacity b = PyInt cap /\
  token_count cap (IEEE.TokenBucket.tokens b) /\
  exists t, IEEE.TokenBucket.last_update b = Fin t /\
            (t <= readings c (cursor c))%Q.

(** A limiter whose rate is a normal double and whose capacity is not
    negative and converts to a double. *)
Definition limiter_sound (r : Q) (c : Clock) (self : IEEE.RateLimiter.t)
    : Prop :=
  IEEE.RateLimiter.rate self = PyFloat (Fin r) /\
  (pow2 (-1022) <= r)%Q /\
  0 <= IEEE.RateLimiter.capacity self /\
  (inject_Z (IEEE.RateLimiter.capacity self) <= max_double)%Q /\
  forall (k : string) (b : IEEE.TokenBucket.t),
    IEEE.RateLimiter._buckets self !! k = Some b ->
    bucket_sound r (IEEE.RateLimiter.capacity self) c b.

(** * Properties *)

(** ** Comparisons and rounding *)

Lemma Qltb_true (x y : Q) : Qltb x y = true <-> (x < y)%Q.
Proof.
  unfold Qltb. rewrite negb_true_iff, <- not_true_iff_false, Qle_bool_iff.
  split; [apply Qnot_le_lt | apply Qlt_not_le].
Qed.

Lemma Qltb_false (x y : Q) : Qltb x y = false <-> (y <= x)%Q.
Proof. unfold Qltb. rewrite negb_false_iff. apply Qle_bool_iff. Qed.

Lemma Qgeb_true (x y : Q) : Qgeb x y = true <-> (y <= x)%Q.
Proof. apply Qle_bool_iff. Qed.

Lemma Qgeb_false (x y : Q) : Qgeb x y = false <-> (x < y)%Q.
Proof.
  unfold Qgeb. rewrite <- not_true_iff_false, Qle_bool_iff.
  split; [apply Qnot_le_lt | apply Qlt_not_le].
Qed.

(** On non-negative values [int] is the floor. *)
Lemma py_int_floor (x : Q) : (0 <= x)%Q -> py_int x = Qfloor x.
Proof.
  destruct x as [n d]. unfold Qle, py_int, Qfloor. simpl. intros H.
  apply Z.quot_div_nonneg; lia.
Qed.

(** ** The monad *)

Lemma bind_Some {A B : Type} (m : M A) (k : A -> M B) (c : Clock) r :
  (m ≫= k) c = Some r <->
  exists a c1, m c = Some (a, c1) /\ k a c1 = Some r.
Proof.
  unfold mbind, M_bind. split.
  - destruct (m c) as [[a c1]|]; [eauto | discriminate].
  - intros (a & c1 & -> & H). exact H.
Qed.

Lemma bind_eq {A B : Type} (m : M A) (k : A -> M B) (c c1 : Clock) (a : A) :
  m c = Some (a, c1) -> (m ≫= k) c = k a c1.
Proof. intros H. unfold mbind, M_bind. now rewrite H. Qed.

Lemma advance_advance (n m : nat) (c : Clock) :
  advance m (advance n c) = advance (n + m) c.
Proof. unfold advance. simpl. f_equal. lia. Qed.

(** ** TokenBucket: what one call does *)

Section BucketSteps.

Import TokenBucket.

Lemma _refill_eq (self : t) (c : Clock) :
  _refill self c = Some (refilled (readings c (cursor c)) self, advance 1 c).
Proof. reflexivity. Qed.


Lemma time_until_available_eq (n : Z) (self : t) (c : Clock) :
  time_until_available n self c =
  let b := refilled (readings c (cursor c)) self in
  if Qgeb (tokens b) (inject_Z n) then Some ((0%Q, b), advance 1 c)
  else if Qeq_bool (rate b) 0 then None
  else Some (((inject_Z n - tokens b) / rate b)%Q, b, advance 1 c).
Proof.
  unfold time_until_available.
  rewrite (bind_eq _ _ _ _ _ (_refill_eq self c)). simpl.
  destruct (Qgeb _ _); [reflexivity |].
  unfold py_truediv, mbind, M_bind. simpl.
  destruct (Qeq_bool _ _); reflexivity.
Qed.



End BucketSteps.

(** ** TokenBucket: runs of [consume] *)

Section BucketRuns.

Import TokenBucket.



End BucketRuns.

Lemma frozen_non_decreasing (now : Q) : non_decreasing (frozen now).
Proof. intros i j _. simpl. apply Qle_refl. Qed.

Lemma ticking_non_decreasing : non_decreasing ticking.
Proof. intros i j H. simpl. rewrite <- Zle_Qle. lia. Qed.



(** ** TokenBucket: a burst on a clock that stands still *)

Section Burst.

Import TokenBucket.






End Burst.


(** ** Rounding of the retry delay *)

Lemma Qfloor_Qceiling_cases (x : Q) :
  ((inject_Z (Qfloor x) == x)%Q /\ Qceiling x = Qfloor x) \/
  (~ (inject_Z (Qfloor x) == x)%Q /\ Qceiling x = Qfloor x + 1).
Proof.
  pose proof (Qfloor_le x) as Hf. pose proof (Qlt_floor x) as Hf'.
  pose proof (Qle_ceiling x) as Hc. pose proof (Qceiling_lt x) as Hc'.
  assert (Hup : Qceiling x - 1 < Qfloor x + 1)
    by (rewrite Zlt_Qlt; eapply Qlt_trans; eassumption).
  assert (Hlo : Qfloor x <= Qceiling x)
    by (rewrite Zle_Qle; eapply Qle_trans; eassumption).
  destruct (Qeq_dec (inject_Z (Qfloor x)) x) as [E | E].
  - left. split; [exact E |].
    assert (Hc'' : (inject_Z (Qceiling x - 1) < inject_Z (Qfloor x))%Q)
      by (eapply Qlt_le_trans; [exact Hc' | rewrite E; apply Qle_refl]).
    rewrite <- Zlt_Qlt in Hc''. lia.
  - right. split; [exact E |].
    assert (Hlt : (inject_Z (Qfloor x) < x)%Q).
    { apply Qle_lteq in Hf. destruct Hf; [assumption | contradiction]. }
    assert (Qfloor x < Qceiling x)
      by (rewrite Zlt_Qlt; eapply Qlt_le_trans; eassumption).
    lia.
Qed.

Section RetryAfter.

Import RateLimiter.

(** What [time_until_available] returns is never negative when the rate is
    positive. *)
Lemma time_until_available_nonneg (n : Z) (b b' : TokenBucket.t)
    (c c' : Clock) (wait : Q) :
  (0 < TokenBucket.rate b)%Q ->
  TokenBucket.time_until_available n b c = Some ((wait, b'), c') ->
  (0 <= wait)%Q.
Proof.
  intros Hr H. rewrite time_until_available_eq in H. cbv zeta in H.
  destruct (Qgeb _ _) eqn:E.
  - injection H as <- _ _. apply Qle_refl.
  - destruct (Qeq_bool _ _); [discriminate |]. injection H as <- _ _.
    apply Qgeb_false in E. simpl in *.
    apply Qle_shift_div_l; [exact Hr | lra].
Qed.

(** C1 (as amended).  A denied [is_allowed] call returns
    [int(w) + 1], where [w] is what [time_until_available(1)] returned on
    the client's bucket after the failed [consume]; the bucket kept under
    the key is the one that call left.  When the rate is positive this is
    [floor(w) + 1], at least 1, and it coincides with [ceil(w) + 1] exactly
    when [w] is a whole number. *)
Theorem retry_after_truncates (client_id : string) (self self' : t)
    (c c' : Clock) (r : Z) :
  is_allowed client_id self c = Some ((false, r), self', c') ->
  exists self1 bucket0 c0 bucket1 c1 wait bucket2,
    (_maybe_cleanup self ≫= getitem client_id) c
      = Some ((bucket0, self1), c0) /\
    TokenBucket.consume 1 bucket0 c0 = Some ((false, bucket1), c1) /\
    TokenBucket.time_until_available 1 bucket1 c1
      = Some ((wait, bucket2), c') /\
    _buckets self' !! client_id = Some bucket2 /\
    r = py_int wait + 1 /\
    ((0 < TokenBucket.rate bucket1)%Q ->
     r = Qfloor wait + 1 /\ 1 <= r /\
     (r = py_ceil wait + 1 <-> (inject_Z (Qfloor wait) == wait)%Q)).
Proof.
  intros H. unfold is_allowed in H.
  apply bind_Some in H as (self0 & c00 & Hclean & H).
  apply bind_Some in H as ([bucket0 self1] & c0 & Hget & H).
  apply bind_Some in H as ([ok bucket1] & c1 & Hcons & H).
  destruct ok; [discriminate |].
  apply bind_Some in H as ([wait bucket2] & c2 & Hwait & H).
  injection H as <- <- <-.
  exists self1, bucket0, c0, bucket1, c1, wait, bucket2.
  split; [| split; [exact Hcons | split; [exact Hwait | split; [| split]]]].
  - apply bind_Some. eauto.
  - unfold store, set_buckets. simpl. apply lookup_insert_eq.
  - reflexivity.
  - intros Hr.
    pose proof (time_until_available_nonneg _ _ _ _ _ _ Hr Hwait) as Hw.
    rewrite (py_int_floor _ Hw). split; [reflexivity |].
    assert (0 <= Qfloor wait).
    { apply Qfloor_resp_le in Hw. exact Hw. }
    split; [lia |]. unfold py_ceil.
    destruct (Qfloor_Qceiling_cases wait) as [[E ->] | [E ->]].
    + split; [intros _; exact E | reflexivity].
    + split; [lia | intros E'; contradiction].
Qed.

End RetryAfter.

(** The denied call of the drained client, at time 0. *)
Lemma retry_after_truncates_witness :
  exists self1 bucket0 c0 bucket1 c1 wait bucket2,
    (RateLimiter._maybe_cleanup drained_limiter
       ≫= RateLimiter.getitem "a") (frozen 0)
      = Some ((bucket0, self1), c0) /\
    TokenBucket.consume 1 bucket0 c0 = Some ((false, bucket1), c1) /\
    TokenBucket.time_until_available 1 bucket1 c1
      = Some ((wait, bucket2), advance 3 (frozen 0)) /\
    RateLimiter._buckets
      (RateLimiter.store "a" (TokenBucket.refilled 0 (TokenBucket.refilled 0
         (TokenBucket.mk (2 # 3) 3 0 0)))
         (RateLimiter.store "a" (TokenBucket.refilled 0
            (TokenBucket.mk (2 # 3) 3 0 0)) drained_limiter))
      !! "a"%string = Some bucket2 /\
    2 = py_int wait + 1 /\
    ((0 < TokenBucket.rate bucket1)%Q ->
     2 = Qfloor wait + 1 /\ 1 <= 2 /\
     (2 = py_ceil wait + 1 <-> (inject_Z (Qfloor wait) == wait)%Q)).
Proof.
  apply (retry_after_truncates "a" drained_limiter _ (frozen 0) _ 2).
  reflexivity.
Defined.

(** C1, counterexample.  [RateLimiter(2, 3, 1.5)] has rate 2/3 and capacity
    3.  After three admitted calls at time 0 the fourth call, still at time
    0, is denied with [retry_after = 2], while [time_until_available(1)] on
    the client's bucket at that moment is 3/2, whose ceiling plus one
    is 3. *)
Lemma retry_after_counterexample :
  exists rs self c self' c' b wait b' c'',
    after_calls Settings.default 2 3 (3 # 2) ["a"; "a"; "a"]%string (frozen 0)
      = Some ((rs, self), c) /\
    RateLimiter.is_allowed "a" self c = Some ((false, 2), self', c') /\
    RateLimiter._buckets self !! "a"%string = Some b /\
    TokenBucket.time_until_available 1 b c = Some ((wait, b'), c'') /\
    (wait == 3 # 2)%Q /\
    py_ceil wait + 1 = 3.
Proof.
  eexists _, _, _, _, _, _, _, _, _.
  split; [vm_compute; reflexivity |].
  split; [vm_compute; reflexivity |].
  split; [vm_compute; reflexivity |].
  split; [vm_compute; reflexivity |].
  split; vm_compute; reflexivity.
Qed.

(** ** QuotaTracker *)

(** C7.  [check_quota(key)] answers [True] exactly when
    [usage.get(key, 0) < daily_limit], and the tracker after the call is
    the tracker before it. *)
Theorem check_quota_reads_only (user_id : string) (self : QuotaTracker.t) :
  (fst (QuotaTracker.check_quota user_id self) = true <->
   default 0 (QuotaTracker._usage self !! user_id)
   < QuotaTracker.daily_limit self) /\
  snd (QuotaTracker.check_quota user_id self) = self.
Proof.
  unfold QuotaTracker.check_quota, QuotaTracker.usage_get. simpl.
  split; [apply Z.ltb_lt | reflexivity].
Qed.

Lemma usage_get_increment (user_id : string) (amount : Z)
    (self : QuotaTracker.t) :
  QuotaTracker.usage_get user_id
    (snd (QuotaTracker.increment_usage user_id amount self))
  = QuotaTracker.usage_get user_id self + amount.
Proof.
  unfold QuotaTracker.increment_usage, QuotaTracker.usage_get. simpl.
  now rewrite lookup_insert_eq.
Qed.

Lemma remaining_trace_decreasing (user_id : string) (amounts : list Z) :
  forall self : QuotaTracker.t,
    Forall (fun amount => 0 < amount) amounts ->
    decreasing_or_zero (fst (QuotaTracker.get_remaining user_id self))
      (QuotaTracker.remaining_trace user_id amounts self) /\
    Forall (fun v => 0 <= v)
      (QuotaTracker.remaining_trace user_id amounts self).
Proof.
  induction amounts as [|amount rest IH]; intros self Hpos.
  - split; constructor.
  - inversion Hpos as [|? ? Ha Hrest]; subst.
    destruct (IH (snd (QuotaTracker.increment_usage user_id amount self))
                Hrest) as [IH1 IH2].
    cbn [QuotaTracker.remaining_trace decreasing_or_zero].
    split; [split; [| exact IH1] | constructor; [| exact IH2]].
    + unfold QuotaTracker.get_remaining. cbn [fst].
      rewrite usage_get_increment.
      cbn [QuotaTracker.increment_usage snd QuotaTracker.daily_limit]. lia.
    + unfold QuotaTracker.get_remaining. cbn [fst]. lia.
Qed.

(** C8 (as amended).  [get_remaining(key)] is
    [max(0, daily_limit - usage.get(key, 0))], never negative, and leaves
    the tracker as it was; under repeated [increment_usage(key, amount)]
    calls with [amount >= 1] each new value is strictly below the previous
    one, or both are 0. *)
Theorem remaining_monotone (user_id : string) (amounts : list Z)
    (self : QuotaTracker.t) :
  fst (QuotaTracker.get_remaining user_id self)
  = Z.max 0 (QuotaTracker.daily_limit self
             - default 0 (QuotaTracker._usage self !! user_id)) /\
  0 <= fst (QuotaTracker.get_remaining user_id self) /\
  snd (QuotaTracker.get_remaining user_id self) = self /\
  (Forall (fun amount => 1 <= amount) amounts ->
   decreasing_or_zero (fst (QuotaTracker.get_remaining user_id self))
     (QuotaTracker.remaining_trace user_id amounts self) /\
   Forall (fun v => 0 <= v)
     (QuotaTracker.remaining_trace user_id amounts self)).
Proof.
  split; [reflexivity |]. split; [simpl; lia |]. split; [reflexivity |].
  intros H. apply remaining_trace_decreasing.
  eapply Forall_impl; [exact H |]. simpl. intros; lia.
Qed.

(** C8, counterexample.  With [daily_limit = 10] and no usage yet,
    [increment_usage(key, 0)] leaves [get_remaining] at 10 and
    [increment_usage(key, -1)] raises it to 11: neither strictly smaller
    nor 0. *)
Lemma remaining_monotone_counterexample :
  fst (QuotaTracker.get_remaining "k" (QuotaTracker.__init__ 10)) = 10 /\
  QuotaTracker.remaining_trace "k" [0] (QuotaTracker.__init__ 10) = [10] /\
  QuotaTracker.remaining_trace "k" [-1] (QuotaTracker.__init__ 10) = [11] /\
  ~ decreasing_or_zero
      (fst (QuotaTracker.get_remaining "k" (QuotaTracker.__init__ 10)))
      (QuotaTracker.remaining_trace "k" [0] (QuotaTracker.__init__ 10)) /\
  ~ decreasing_or_zero
      (fst (QuotaTracker.get_remaining "k" (QuotaTracker.__init__ 10)))
      (QuotaTracker.remaining_trace "k" [-1] (QuotaTracker.__init__ 10)).
Proof.
  split; [reflexivity |]. split; [reflexivity |]. split; [reflexivity |].
  split; vm_compute; intros [[H | [H _]] _]; discriminate.
Qed.

(** Four increments of a tracker whose daily limit is 1000. *)
Lemma remaining_monotone_witness :
  Forall (fun amount => 1 <= amount) [1; 2; 400; 1000] /\
  decreasing_or_zero
    (fst (QuotaTracker.get_remaining "k" (QuotaTracker.__init__ 1000)))
    (QuotaTracker.remaining_trace "k" [1; 2; 400; 1000]
       (QuotaTracker.__init__ 1000)).
Proof.
  assert (H : Forall (fun amount => 1 <= amount) [1; 2; 400; 1000])
    by (repeat constructor; lia).
  split; [exact H |].
  exact (proj1 (proj2 (proj2 (proj2
    (remaining_monotone "k" [1; 2; 400; 1000] (QuotaTracker.__init__ 1000))))
    H)).
Defined.

(** ** RateLimiter: the cleanup sweep *)

Section Cleanup.

Import RateLimiter.

Lemma elem_of_stale_clients (now interval : Q)
    (items : list (string * TokenBucket.t)) (k : string) :
  k ∈ stale_clients now interval items <->
  exists b, (k, b) ∈ items /\ (interval < now - TokenBucket.last_update b)%Q.
Proof.
  induction items as [|[k' b'] items IH]; simpl.
  - split; [intros H; inversion H | intros (b & H & _); inversion H].
  - destruct (Qltb _ _) eqn:E.
    + rewrite elem_of_cons, IH. split.
      * intros [-> | (b & Hb & Hlt)].
        -- exists b'. split; [left | apply Qltb_true; exact E].
        -- exists b. split; [right; exact Hb | exact Hlt].
      * intros (b & Hb & Hlt). apply elem_of_cons in Hb as [Hb | Hb].
        -- left. congruence.
        -- right. eauto.
    + rewrite IH. split.
      * intros (b & Hb & Hlt). exists b. split; [right; exact Hb | exact Hlt].
      * intros (b & Hb & Hlt). apply elem_of_cons in Hb as [Hb | Hb].
        -- injection Hb as -> ->. apply Qltb_false in E.
           exfalso. apply (Qlt_not_le _ _ Hlt E).
        -- eauto.
Qed.

Lemma lookup_delete_all (keys : list string) :
  forall (buckets : gmap string TokenBucket.t) (k : string),
    delete_all keys buckets !! k
    = if decide (k ∈ keys) then None else buckets !! k.
Proof.
  induction keys as [|k' keys IH]; intros buckets k; simpl.
  - destruct (decide (k ∈ [])) as [H |]; [inversion H | reflexivity].
  - rewrite IH. destruct (decide (k ∈ keys)) as [Hin | Hnin].
    + rewrite decide_True by (right; exact Hin). reflexivity.
    + destruct (decide (k = k')) as [-> | Hne].
      * rewrite decide_True by left. apply lookup_delete_eq.
      * rewrite decide_False by (rewrite elem_of_cons; tauto).
        apply lookup_delete_ne. congruence.
Qed.

(** What the mapping holds under [k] after the body of [_maybe_cleanup]. *)
Lemma lookup_cleanup_at (now : Q) (self : t) (k : string) :
  _buckets (cleanup_at now self) !! k =
  if sweep_due now self then
    match _buckets self !! k with
    | Some b =>
        if Qltb (_cleanup_interval self) (now - TokenBucket.last_update b)%Q
        then None else Some b
    | None => None
    end
  else _buckets self !! k.
Proof.
  unfold cleanup_at. destruct (sweep_due now self); [| reflexivity].
  simpl. rewrite lookup_delete_all.
  destruct (decide _) as [Hin | Hnin].
  - apply elem_of_stale_clients in Hin as (b & Hb & Hlt).
    apply elem_of_map_to_list in Hb. rewrite Hb.
    apply Qltb_true in Hlt. now rewrite Hlt.
  - destruct (_buckets self !! k) as [b|] eqn:Hb; [| reflexivity].
    destruct (Qltb _ _) eqn:E; [| reflexivity].
    exfalso. apply Hnin. apply elem_of_stale_clients. exists b.
    split; [apply elem_of_map_to_list; exact Hb | apply Qltb_true; exact E].
Qed.

Lemma sweep_due_true (now : Q) (self : t) :
  sweep_due now self = true <->
  (_cleanup_interval self <= now - _last_cleanup self)%Q.
Proof. unfold sweep_due. rewrite negb_true_iff. apply Qltb_false. Qed.

Lemma sweep_due_false (now : Q) (self : t) :
  sweep_due now self = false <->
  (now - _last_cleanup self < _cleanup_interval self)%Q.
Proof. unfold sweep_due. rewrite negb_false_iff. apply Qltb_true. Qed.

Lemma _maybe_cleanup_eq (self : t) (c : Clock) :
  _maybe_cleanup self c
  = Some (cleanup_at (readings c (cursor c)) self, advance 1 c).
Proof. reflexivity. Qed.

(** C4.  [_maybe_cleanup] always returns.  When the sweep is not due
    ([now - last_cleanup < cleanup_interval]) it changes nothing.  When it
    is due, every bucket whose [last_update] is more than
    [cleanup_interval] old is gone from the mapping, every bucket touched
    within the interval is kept as it was, no key appears, and
    [last_cleanup] becomes [now]; as a consequence a later call whose clock
    reads less than [cleanup_interval] after [now] does not sweep: it
    leaves the limiter unchanged. *)
Theorem idle_eviction (self : t) (c : Clock) :
  let now := readings c (cursor c) in
  exists self',
    _maybe_cleanup self c = Some (self', advance 1 c) /\
    ((now - _last_cleanup self < _cleanup_interval self)%Q -> self' = self) /\
    ((_cleanup_interval self <= now - _last_cleanup self)%Q ->
     (forall k b, _buckets self !! k = Some b ->
        (_cleanup_interval self < now - TokenBucket.last_update b)%Q ->
        _buckets self' !! k = None) /\
     (forall k b, _buckets self !! k = Some b ->
        (now - TokenBucket.last_update b <= _cleanup_interval self)%Q ->
        _buckets self' !! k = Some b) /\
     (forall k, _buckets self !! k = None -> _buckets self' !! k = None) /\
     _last_cleanup self' = now /\
     _cleanup_interval self' = _cleanup_interval self /\
     (forall c2 : Clock,
        (readings c2 (cursor c2) - now < _cleanup_interval self)%Q ->
        _maybe_cleanup self' c2 = Some (self', advance 1 c2))).
Proof.
  intros now. exists (cleanup_at now self).
  split; [apply _maybe_cleanup_eq |]. split.
  - intros H. apply sweep_due_false in H. unfold cleanup_at. now rewrite H.
  - intros H. apply sweep_due_true in H.
    assert (Hlc : _last_cleanup (cleanup_at now self) = now)
      by (unfold cleanup_at; rewrite H; reflexivity).
    assert (Hci : _cleanup_interval (cleanup_at now self)
                  = _cleanup_interval self)
      by (unfold cleanup_at; rewrite H; reflexivity).
    repeat split.
    + intros k b Hb Hold. rewrite lookup_cleanup_at, H, Hb.
      apply Qltb_true in Hold. now rewrite Hold.
    + intros k b Hb Hnew. rewrite lookup_cleanup_at, H, Hb.
      apply Qltb_false in Hnew. now rewrite Hnew.
    + intros k Hk. rewrite lookup_cleanup_at, H, Hk. reflexivity.
    + exact Hlc.
    + exact Hci.
    + intros c2 Hc2. rewrite _maybe_cleanup_eq. f_equal. f_equal.
      unfold cleanup_at at 1.
      replace (sweep_due (readings c2 (cursor c2)) (cleanup_at now self))
        with false; [reflexivity |].
      symmetry. apply sweep_due_false. rewrite Hlc, Hci. exact Hc2.
Qed.

End Cleanup.

(** ** RateLimiter: one [is_allowed] call *)

Section OneCall.

Import RateLimiter.

Lemma store_store (k : string) (b1 b2 : TokenBucket.t) (self : t) :
  store k b2 (store k b1 self) = store k b2 self.
Proof. unfold store, set_buckets. simpl. now rewrite insert_insert_eq. Qed.

Lemma cleanup_at_fields (now : Q) (self : t) :
  rate (cleanup_at now self) = rate self /\
  capacity (cleanup_at now self) = capacity self /\
  requests_per_window (cleanup_at now self) = requests_per_window self /\
  window_seconds (cleanup_at now self) = window_seconds self /\
  _cleanup_interval (cleanup_at now self) = _cleanup_interval self.
Proof. unfold cleanup_at. destruct (sweep_due now self); auto. Qed.

(** [is_allowed] is the cleanup, then the decision on the client's bucket,
    then the bucket written back under the key. *)
Lemma is_allowed_decision (client_id : string) (self : t) (c : Clock) :
  is_allowed client_id self c =
  let cleaned := cleanup_at (readings c (cursor c)) self in
  match bucket_decision (_buckets cleaned !! client_id) (rate cleaned)
          (capacity cleaned) (advance 1 c) with
  | Some ((r, bucket), c') => Some ((r, store client_id bucket cleaned), c')
  | None => None
  end.
Proof.
  assert (Hst : forall m b0 b1, store client_id b1
            (set_buckets (<[client_id:=b0]> (_buckets m)) m)
            = store client_id b1 m).
  { intros m b0 b1. unfold store, set_buckets. simpl.
    now rewrite insert_insert_eq. }
  cbv zeta. set (cleaned := cleanup_at _ self).
  unfold is_allowed, bucket_decision, getitem, _maybe_cleanup,
    TokenBucket.consume, TokenBucket.time_until_available,
    TokenBucket._refill, TokenBucket.__init__, py_truediv, raise, time_time,
    ret, mbind, M_bind, mret, M_ret.
  cbn beta iota zeta. fold cleaned.
  destruct (_buckets cleaned !! client_id) as [b|] eqn:Hb; cbn beta iota zeta;
    repeat match goal with
           | |- context [if ?x then _ else _] => destruct x eqn:?
           end;
    cbn beta iota zeta; rewrite ?store_store, ?Hst; reflexivity.
Qed.

Ltac unfold_decision :=
  unfold bucket_decision, TokenBucket.consume,
    TokenBucket.time_until_available, TokenBucket._refill,
    TokenBucket.__init__, py_truediv, raise, time_time, ret, mbind, M_bind,
    mret, M_ret;
  cbn beta iota zeta.

(** A decision that returns has read the clock between one and three times,
    has stamped the bucket with the last of these readings, and has kept
    the bucket's rate. *)
Lemma bucket_decision_inv (found : option TokenBucket.t) (rate0 : Q)
    (cap : Z) (c c' : Clock) (r : bool * Z) (b' : TokenBucket.t) :
  bucket_decision found rate0 cap c = Some ((r, b'), c') ->
  exists n : nat,
    c' = advance n c /\ (1 <= n <= 3)%nat /\
    TokenBucket.last_update b' = readings c (cursor c + n - 1)%nat /\
    TokenBucket.rate b' = decision_rate found rate0.
Proof.
  unfold_decision. unfold advance.
  destruct found as [b|]; cbn beta iota zeta;
    repeat match goal with
           | |- context [if ?x then _ else _] => destruct x eqn:?
           end;
    cbn beta iota zeta; intros H; try discriminate;
    injection H as <- <- <-; simpl;
    [ exists 1%nat | exists 2%nat | exists 2%nat
    | exists 2%nat | exists 3%nat | exists 3%nat ];
    (split; [f_equal; lia |]); (split; [lia |]);
    (split; [f_equal; lia | reflexivity]).
Qed.


(** An [is_allowed] call that returns has swept (or not), then left under
    the key a bucket stamped with the last clock reading it took. *)
Lemma is_allowed_inv (client_id : string) (self self' : t) (c c' : Clock)
    (r : bool * Z) :
  is_allowed client_id self c = Some ((r, self'), c') ->
  let cleaned := cleanup_at (readings c (cursor c)) self in
  exists (b' : TokenBucket.t) (n : nat),
    self' = store client_id b' cleaned /\
    c' = advance n c /\ (2 <= n <= 4)%nat /\
    TokenBucket.last_update b' = readings c (cursor c + n - 1)%nat /\
    TokenBucket.rate b'
    = decision_rate (_buckets cleaned !! client_id) (rate self).
Proof.
  rewrite is_allowed_decision. cbv zeta.
  destruct (bucket_decision _ _ _ _) as [[[r0 b'] c0]|] eqn:Hd;
    [| discriminate].
  intros H. injection H as <- <- <-.
  apply bucket_decision_inv in Hd as (n & -> & Hn & Hlu & Hrate).
  exists b', (S n). repeat split.
  - rewrite advance_advance. reflexivity.
  - lia.
  - lia.
  - rewrite Hlu. simpl. f_equal. lia.
  - rewrite Hrate. now destruct (cleanup_at_fields (readings c (cursor c)) self)
      as (-> & _).
Qed.

Lemma positive_rates_cleanup_at (now : Q) (self : t) :
  positive_rates self -> positive_rates (cleanup_at now self).
Proof.
  intros [Hr Hb].
  destruct (cleanup_at_fields now self) as (Hrate & _).
  split; [rewrite Hrate; exact Hr |].
  intros k b Hk. rewrite Hrate. apply (Hb k).
  rewrite lookup_cleanup_at in Hk.
  destruct (sweep_due now self); [| exact Hk].
  destruct (_buckets self !! k) as [b0|]; [| discriminate].
  destruct (Qltb _ _); [discriminate | exact Hk].
Qed.

Lemma decision_rate_positive (self : t) (k : string) :
  positive_rates self ->
  decision_rate (_buckets self !! k) (rate self) = rate self.
Proof.
  intros [_ Hb]. unfold decision_rate.
  destruct (_buckets self !! k) as [b|] eqn:E; [apply (Hb k b E) | reflexivity].
Qed.


End OneCall.

(** ** The constructor of the limiter on exact rationals *)

Section ExactConstructor.


End ExactConstructor.

(** ** RateLimiter: runs of [is_allowed] and the life of a bucket *)

Section Runs.

Import RateLimiter.

Lemma is_allowed_all_cons (k : string) (ks : list string) (self s1 : t)
    (c c1 : Clock) (r : bool * Z) :
  is_allowed k self c = Some ((r, s1), c1) ->
  is_allowed_all (k :: ks) self c =
  match is_allowed_all ks s1 c1 with
  | Some ((log, s2), c2) =>
      Some (((k, readings c (cursor c), r) :: log, s2), c2)
  | None => None
  end.
Proof.
  intros H. cbn [is_allowed_all].
  unfold mbind at 1, M_bind at 1, peek_time. cbn beta iota.
  rewrite (bind_eq _ _ _ _ _ H). unfold mbind, M_bind.
  destruct (is_allowed_all ks s1 c1) as [[[log s2] c2]|]; reflexivity.
Qed.




End Runs.

(** ** Per-key independence *)

Section Independence.

Import RateLimiter.

Lemma agree_except_refl (A : string) (s : t) : agree_except A s s.
Proof. unfold agree_except. repeat split. Qed.

Lemma agree_except_trans (A : string) (s1 s2 s3 : t) :
  agree_except A s1 s2 -> agree_except A s2 s3 -> agree_except A s1 s3.
Proof.
  unfold agree_except.
  intros (H1 & H2 & H3 & H4 & H5 & H6 & H7) (G1 & G2 & G3 & G4 & G5 & G6 & G7).
  repeat split; try congruence. intros k Hk. rewrite H7, G7; auto.
Qed.

Lemma agree_except_store (A : string) (b : TokenBucket.t) (s : t) :
  agree_except A (store A b s) s.
Proof.
  unfold agree_except, store, set_buckets. simpl. repeat split.
  intros k Hk. apply lookup_insert_ne. congruence.
Qed.

Lemma agree_except_cleanup_at (A : string) (now : Q) (s1 s2 : t) :
  agree_except A s1 s2 ->
  agree_except A (cleanup_at now s1) (cleanup_at now s2).
Proof.
  intros (H1 & H2 & H3 & H4 & H5 & H6 & H7).
  assert (Hdue : sweep_due now s1 = sweep_due now s2)
    by (unfold sweep_due; now rewrite H5, H6).
  pose proof (cleanup_at_fields now s1) as (F1 & F2 & F3 & F4 & F5).
  pose proof (cleanup_at_fields now s2) as (G1 & G2 & G3 & G4 & G5).
  unfold agree_except. rewrite F1, F2, F3, F4, F5, G1, G2, G3, G4, G5.
  repeat split; try assumption.
  - unfold cleanup_at. rewrite Hdue. destruct (sweep_due now s2);
      [reflexivity | exact H5].
  - intros k Hk. rewrite !lookup_cleanup_at, Hdue, H6, (H7 k Hk). reflexivity.
Qed.

(** A call for [B] answers the same on two limiters that differ only in
    the bucket of another key. *)
Lemma agree_except_outcome (A B : string) (s1 s2 : t) (c : Clock) :
  A <> B -> agree_except A s1 s2 ->
  outcome (is_allowed B s1 c) = outcome (is_allowed B s2 c).
Proof.
  intros Hne Hagree.
  apply (agree_except_cleanup_at A (readings c (cursor c))) in Hagree.
  destruct Hagree as (_ & _ & H3 & H4 & _ & _ & H7).
  rewrite !is_allowed_decision. cbv zeta.
  rewrite H3, H4, (H7 B) by congruence.
  destruct (bucket_decision _ _ _ _) as [[[r b] c']|]; reflexivity.
Qed.

Lemma is_allowed_all_clock (ks : list string) :
  forall (self self' : t) (c c' : Clock) log,
    is_allowed_all ks self c = Some ((log, self'), c') ->
    readings c' = readings c /\ (cursor c <= cursor c')%nat.
Proof.
  induction ks as [|k ks IH]; intros self self' c c' log Hrun.
  - injection Hrun as <- <- <-. split; [reflexivity | lia].
  - destruct (is_allowed k self c) as [[[r s1] c1]|] eqn:Hstep.
    2:{ cbn [is_allowed_all] in Hrun. unfold mbind at 1, M_bind at 1 in Hrun.
        unfold peek_time in Hrun. cbn beta iota in Hrun.
        unfold mbind at 1, M_bind at 1 in Hrun. rewrite Hstep in Hrun.
        discriminate. }
    rewrite (is_allowed_all_cons _ _ _ _ _ _ _ Hstep) in Hrun.
    destruct (is_allowed_all ks s1 c1) as [[[log1 s2] c2]|] eqn:Hrest;
      [| discriminate].
    injection Hrun as <- <- <-.
    apply is_allowed_inv in Hstep. cbv zeta in Hstep.
    destruct Hstep as (b' & n & _ & -> & Hn & _).
    apply IH in Hrest as [Hr Hc]. simpl in *. split; [exact Hr | lia].
Qed.

(** A run of calls for [A] leaves the entry of another key as it was, or
    removes it; and when no sweep falls due during the run the limiter
    changes in the bucket of [A] only. *)
Lemma run_of_one_key (A B : string) (n : nat) :
  forall (self self' : t) (c c' : Clock) log,
    A <> B ->
    is_allowed_all (replicate n A) self c = Some ((log, self'), c') ->
    (_buckets self' !! B = _buckets self !! B \/ _buckets self' !! B = None) /\
    ((forall i : nat, (cursor c <= i < cursor c')%nat ->
        (readings c i - _last_cleanup self < _cleanup_interval self)%Q) ->
     agree_except A self' self).
Proof.
  induction n as [|n IH]; intros self self' c c' log Hne Hrun.
  - injection Hrun as <- <- <-.
    split; [left; reflexivity | intros _; apply agree_except_refl].
  - change (replicate (S n) A) with (A :: replicate n A) in Hrun.
    destruct (is_allowed A self c) as [[[r s1] c1]|] eqn:Hstep.
    2:{ cbn [is_allowed_all] in Hrun. unfold mbind at 1, M_bind at 1 in Hrun.
        unfold peek_time in Hrun. cbn beta iota in Hrun.
        unfold mbind at 1, M_bind at 1 in Hrun. rewrite Hstep in Hrun.
        discriminate. }
    rewrite (is_allowed_all_cons _ _ _ _ _ _ _ Hstep) in Hrun.
    destruct (is_allowed_all (replicate n A) s1 c1) as [[[log1 s2] c2]|]
      eqn:Hrest; [| discriminate].
    injection Hrun as <- <- <-.
    pose proof (is_allowed_all_clock _ _ _ _ _ _ Hrest) as [Hread Hcur].
    apply is_allowed_inv in Hstep. cbv zeta in Hstep.
    destruct Hstep as (b' & m & -> & -> & Hm & _).
    destruct (IH _ _ _ _ _ Hne Hrest) as [IH1 IH2].
    set (now := readings c (cursor c)) in *.
    assert (HB : _buckets (store A b' (cleanup_at now self)) !! B
                 = _buckets (cleanup_at now self) !! B).
    { unfold store, set_buckets. simpl. now apply lookup_insert_ne. }
    split.
    + rewrite HB in IH1. rewrite lookup_cleanup_at in IH1.
      destruct IH1 as [IH1 | IH1]; [| right; exact IH1].
      rewrite IH1. destruct (sweep_due now self); [| left; reflexivity].
      destruct (_buckets self !! B) as [bB|]; [| left; reflexivity].
      destruct (Qltb _ _); [right | left]; reflexivity.
    + intros Hquiet. simpl in Hcur.
      assert (Hnot : sweep_due now self = false).
      { apply sweep_due_false. apply Hquiet. lia. }
      assert (Hsame : cleanup_at now self = self)
        by (unfold cleanup_at; now rewrite Hnot).
      rewrite Hsame in *.
      eapply agree_except_trans; [| apply (agree_except_store A b' self)].
      apply IH2. intros i Hi. simpl. simpl in Hi.
      apply Hquiet. lia.
Qed.

(** C6 (as amended).  For distinct keys [A] and [B], a run of
    [is_allowed(A)] calls never modifies the bucket of [B]: after the run
    the mapping holds under [B] what it held before, or nothing (the shared
    sweep removed the entry).  When no sweep falls due during the run, that
    is when the clock stays within [cleanup_interval] of [last_cleanup],
    the entry of [B] is unchanged and the next [is_allowed(B)] call returns
    the same pair as it would have without the run, at whatever time it is
    made. *)
Theorem per_key_independence (A B : string) (n : nat) (self self' : t)
    (c c' : Clock) (log : list (string * Q * (bool * Z))) :
  A <> B ->
  is_allowed_all (replicate n A) self c = Some ((log, self'), c') ->
  (_buckets self' !! B = _buckets self !! B \/ _buckets self' !! B = None) /\
  ((forall i : nat, (cursor c <= i < cursor c')%nat ->
      (readings c i - _last_cleanup self < _cleanup_interval self)%Q) ->
   _buckets self' !! B = _buckets self !! B /\
   forall cB : Clock,
     outcome (is_allowed B self' cB) = outcome (is_allowed B self cB)).
Proof.
  intros Hne Hrun.
  destruct (run_of_one_key A B n self self' c c' log Hne Hrun) as [H1 H2].
  split; [exact H1 |]. intros Hquiet. specialize (H2 Hquiet). split.
  - destruct H2 as (_ & _ & _ & _ & _ & _ & H7). apply H7. congruence.
  - intros cB. apply (agree_except_outcome A B); assumption.
Qed.

End Independence.

(** ** Concrete runs *)

(** A due sweep at time 0: the idle bucket goes, the other one stays. *)
Lemma idle_eviction_witness :
  exists self',
    RateLimiter._maybe_cleanup two_client_limiter (frozen 0)
      = Some (self', advance 1 (frozen 0)) /\
    RateLimiter._buckets self' !! "idle"%string = None /\
    RateLimiter._buckets self' !! "b"%string
      = RateLimiter._buckets two_client_limiter !! "b"%string /\
    RateLimiter._last_cleanup self' = 0%Q.
Proof.
  destruct (idle_eviction two_client_limiter (frozen 0))
    as (self' & Hrun & _ & Hdue).
  exists self'. split; [exact Hrun |].
  destruct Hdue as (Hold & Hnew & _ & Hlast & _).
  { vm_compute. discriminate. }
  split; [| split].
  - eapply Hold; [reflexivity | vm_compute; reflexivity].
  - eapply Hnew; [reflexivity | vm_compute; discriminate].
  - exact Hlast.
Defined.

(** Client ["a"] exhausts its bucket before any sweep is due; the entry and
    the next answer of client ["b"] are as before. *)
Lemma per_key_independence_witness :
  match RateLimiter.is_allowed_all (replicate 4 "a"%string) two_client_limiter
          (frozen (-1)) with
  | Some ((log, self'), c') =>
      snd <$> log = [(true, 0); (true, 0); (true, 0); (false, 2)] /\
      RateLimiter._buckets self' !! "b"%string
      = RateLimiter._buckets two_client_limiter !! "b"%string /\
      forall cB : Clock,
        outcome (RateLimiter.is_allowed "b" self' cB)
        = outcome (RateLimiter.is_allowed "b" two_client_limiter cB)
  | None => False
  end.
Proof.
  destruct (RateLimiter.is_allowed_all (replicate 4 "a"%string)
              two_client_limiter (frozen (-1)))
    as [[[log self'] c']|] eqn:Hrun.
  - split.
    + vm_compute in Hrun. injection Hrun as <- _ _. reflexivity.
    + apply (per_key_independence "a" "b" 4 two_client_limiter self'
               (frozen (-1)) c' log); [discriminate | exact Hrun |].
      intros i _. vm_compute. reflexivity.
  - vm_compute in Hrun. discriminate.
Defined.

(** C6, counterexample.  [RateLimiter(1, 86400, 1.5)] is created at time 0
    and client ["b"] spends its one token at time 1000.  At time 3600
    client ["a"] is admitted once and then denied: its calls ran the sweep,
    which kept the bucket of ["b"] untouched but moved [last_cleanup] to
    3600.  At time 5000 the next call of ["b"] is denied, whereas without
    the calls of ["a"] the same call is admitted, because it then runs the
    sweep itself, finds its own bucket idle for 4000 seconds and starts
    from a fresh, full one. *)
Lemma per_key_independence_counterexample :
  exists log0 self c0 logA self' c',
    after_calls Settings.default 1 86400 (3 # 2) ["b"%string]
      (scripted [0; 1000; 1000; 1000]%Q 3600) = Some ((log0, self), c0) /\
    "a"%string <> "b"%string /\
    RateLimiter.is_allowed_all ["a"; "a"]%string self c0
      = Some ((logA, self'), c') /\
    snd <$> logA = [(true, 0); (false, 86401)] /\
    RateLimiter._buckets self' !! "b"%string
    = RateLimiter._buckets self !! "b"%string /\
    outcome (RateLimiter.is_allowed "b" self (frozen 5000))
    = Some (true, 0) /\
    outcome (RateLimiter.is_allowed "b" self' (frozen 5000))
    = Some (false, 82401).
Proof.
  eexists _, _, _, _, _, _.
  split; [vm_compute; reflexivity |].
  split; [discriminate |].
  split; [vm_compute; reflexivity |].
  split; [vm_compute; reflexivity |].
  split; [vm_compute; reflexivity |].
  split; vm_compute; reflexivity.
Qed.




(** ** The two scenarios of the specification *)

(** 100 requests per 3600 seconds with burst 1.5: 150 instantaneous calls
    are admitted and the 151st is denied with [retry_after = 37]. *)
Example scenario_burst_of_151 :
  exists log self c,
    after_calls Settings.default 100 3600 (3 # 2) (replicate 151 "a"%string)
      (frozen 0) = Some ((log, self), c) /\
    snd <$> log = replicate 150 (true, 0) ++ [(false, 37)].
Proof.
  eexists _, _, _. split; [vm_compute; reflexivity |].
  vm_compute. reflexivity.
Qed.

(** [daily_limit = 1000]: after 999 increments of 1 the quota check passes
    with 1 remaining; the 1000th increment leaves 0 and the check fails. *)
Example scenario_daily_limit :
  let after n :=
    foldr (fun amount q => snd (QuotaTracker.increment_usage "k" amount q))
      (QuotaTracker.__init__ 1000) (replicate n 1) in
  fst (QuotaTracker.check_quota "k" (after 999%nat)) = true /\
  fst (QuotaTracker.get_remaining "k" (after 999%nat)) = 1 /\
  fst (QuotaTracker.get_remaining "k" (after 1000%nat)) = 0 /\
  fst (QuotaTracker.check_quota "k" (after 1000%nat)) = false.
Proof. vm_compute. repeat split. Qed.

(** * Further properties of the token bucket *)

Section BucketBudget.

Import TokenBucket.



End BucketBudget.



(** * Further properties of the limiter *)

Ltac unfold_bucket_decision :=
  unfold bucket_decision, TokenBucket.consume,
    TokenBucket.time_until_available, TokenBucket._refill,
    TokenBucket.__init__, py_truediv, raise, time_time, ret, mbind, M_bind,
    mret, M_ret;
  cbn beta iota zeta.

Section Decisions.

Import RateLimiter.

(** The capacity of the bucket the decision works on. *)
Lemma bucket_decision_capacity (found : option TokenBucket.t) (rate0 : Q)
    (cap : Z) (c c' : Clock) (r : bool * Z) (b' : TokenBucket.t) :
  bucket_decision found rate0 cap c = Some ((r, b'), c') ->
  TokenBucket.capacity b'
  = match found with
    | Some b => TokenBucket.capacity b
    | None => inject_Z cap
    end.
Proof.
  unfold_bucket_decision.
  destruct found as [b|]; cbn beta iota zeta;
    repeat match goal with
           | |- context [if ?x then _ else _] => destruct x eqn:?
           end;
    cbn beta iota zeta; intros H; try discriminate;
    injection H as <- <- <-; reflexivity.
Qed.

(** The delay [time_until_available] returns makes up, at the bucket's
    rate, for what the bucket lacks. *)
Lemma time_until_available_covers (n : Z) (b b' : TokenBucket.t)
    (c c' : Clock) (w : Q) :
  (0 < TokenBucket.rate b)%Q ->
  TokenBucket.time_until_available n b c = Some ((w, b'), c') ->
  (0 <= w)%Q /\ TokenBucket.rate b' = TokenBucket.rate b /\
  (inject_Z n <= TokenBucket.tokens b' + w * TokenBucket.rate b')%Q.
Proof.
  intros Hr H.
  pose proof (time_until_available_nonneg _ _ _ _ _ _ Hr H) as Hw0.
  split; [exact Hw0 |].
  rewrite time_until_available_eq in H. cbv zeta in H.
  set (b1 := TokenBucket.refilled (readings c (cursor c)) b) in *.
  assert (Hr1 : TokenBucket.rate b1 = TokenBucket.rate b) by reflexivity.
  destruct (Qgeb (TokenBucket.tokens b1) (inject_Z n)) eqn:E.
  - injection H as <- <- _. apply Qgeb_true in E.
    split; [exact Hr1 |]. rewrite Qmult_0_l, Qplus_0_r. exact E.
  - destruct (Qeq_bool _ _) eqn:E0; [discriminate |].
    injection H as <- <- _. split; [exact Hr1 |].
    assert (Hne : ~ (TokenBucket.rate b1 == 0)%Q).
    { rewrite Hr1. intros E1. rewrite E1 in Hr. revert Hr. apply Qlt_irrefl. }
    assert (Hw : ((inject_Z n - TokenBucket.tokens b1) / TokenBucket.rate b1
                  * TokenBucket.rate b1
                  == inject_Z n - TokenBucket.tokens b1)%Q)
      by (field; exact Hne).
    change (inject_Z n
            <= TokenBucket.tokens b1
               + (inject_Z n - TokenBucket.tokens b1) / TokenBucket.rate b1
                 * TokenBucket.rate b1)%Q.
    rewrite Hw. apply Qle_lteq. right. ring.
Qed.

(** A denial comes with a delay after which the rate has made up for the
    missing part of a token. *)
Lemma bucket_decision_denied (found : option TokenBucket.t) (rate0 : Q)
    (cap : Z) (c c' : Clock) (R : Z) (b' : TokenBucket.t) :
  bucket_decision found rate0 cap c = Some (((false, R), b'), c') ->
  (0 < decision_rate found rate0)%Q ->
  1 <= R /\
  (1 <= TokenBucket.tokens b' + inject_Z R * TokenBucket.rate b')%Q.
Proof.
  intros H Hr.
  pose proof (bucket_decision_inv _ _ _ _ _ _ _ H) as (_ & _ & _ & _ & Hrate).
  rewrite <- Hrate in Hr. clear Hrate.
  unfold bucket_decision in H.
  apply bind_Some in H as (b0 & c0 & _ & H).
  apply bind_Some in H as ([ok b1] & c1 & Hcons & H).
  destruct ok; [discriminate |].
  apply bind_Some in H as ([w b2] & c2 & Hwait & H).
  injection H as <- <- <-.
  assert (Hr1 : (0 < TokenBucket.rate b1)%Q).
  { rewrite time_until_available_eq in Hwait. cbv zeta in Hwait.
    destruct (Qgeb _ _); [injection Hwait as _ <- _; exact Hr |].
    destruct (Qeq_bool _ _); [discriminate |].
    injection Hwait as _ <- _. exact Hr. }
  destruct (time_until_available_covers _ _ _ _ _ _ Hr1 Hwait)
    as (Hw & _ & Hcover).
  rewrite (py_int_floor _ Hw).
  pose proof (Qlt_floor w) as Hfl.
  assert (H0 : 0 <= Qfloor w)
    by (apply Qfloor_resp_le in Hw; exact Hw).
  split; [lia |].
  assert (Hmul : (w * TokenBucket.rate b2
                  <= inject_Z (Qfloor w + 1) * TokenBucket.rate b2)%Q)
    by (apply Qmult_le_r; [exact Hr | lra]).
  change (inject_Z 1) with 1%Q in Hcover. lra.
Qed.

(** The decision on a key the mapping does not hold: the fresh bucket is
    full, so the call is admitted as soon as the capacity is at least 1. *)
Lemma bucket_decision_fresh (rate0 : Q) (cap : Z) (c : Clock) :
  (0 <= rate0)%Q -> 1 <= cap -> non_decreasing c ->
  exists b',
    bucket_decision None rate0 cap c = Some (((true, 0), b'), advance 2 c) /\
    (TokenBucket.tokens b' == inject_Z cap - 1)%Q.
Proof.
  intros Hr Hcap Hmono. unfold_bucket_decision.
  set (t1 := readings c (cursor c)).
  set (t2 := readings (advance 1 c) (cursor (advance 1 c))).
  assert (Ht : (t1 <= t2)%Q) by (apply Hmono; simpl; lia).
  assert (Hgain : (0 <= (t2 - t1) * rate0)%Q)
    by (apply Qmult_le_0_compat; lra).
  assert (Hcapq : (1 <= inject_Z cap)%Q)
    by (change 1%Q with (inject_Z 1); rewrite <- Zle_Qle; exact Hcap).
  assert (Hfull : (Qmin (inject_Z cap) (inject_Z cap + (t2 - t1) * rate0)
                   == inject_Z cap)%Q) by (apply Q.min_l; lra).
  destruct (Qgeb _ _) eqn:E; cbn beta iota zeta.
  - eexists. split; [rewrite advance_advance; reflexivity |].
    cbn [TokenBucket.tokens]. fold t1 t2. rewrite Hfull.
    change (inject_Z 1) with 1%Q. reflexivity.
  - exfalso. apply Qgeb_false in E. cbn [TokenBucket.tokens] in E.
    fold t1 t2 in E. rewrite Hfull in E. change (inject_Z 1) with 1%Q in E.
    lra.
Qed.

(** The decision on a bucket that holds a token once refilled. *)
Lemma bucket_decision_enough (b : TokenBucket.t) (rate0 : Q) (cap : Z)
    (c : Clock) :
  (1 <= Qmin (TokenBucket.capacity b)
          (TokenBucket.tokens b
           + (readings c (cursor c) - TokenBucket.last_update b)
             * TokenBucket.rate b))%Q ->
  exists b',
    bucket_decision (Some b) rate0 cap c = Some (((true, 0), b'), advance 1 c).
Proof.
  intros H. unfold_bucket_decision.
  destruct (Qgeb _ _) eqn:E; cbn beta iota zeta; [eauto |].
  exfalso. apply Qgeb_false in E. cbn [TokenBucket.tokens] in E.
  change (inject_Z 1) with 1%Q in E. lra.
Qed.


End Decisions.

Section Conforming.

Import RateLimiter.

Lemma store_fields (k : string) (b : TokenBucket.t) (self : t) :
  rate (store k b self) = rate self /\
  capacity (store k b self) = capacity self /\
  _last_cleanup (store k b self) = _last_cleanup self /\
  _cleanup_interval (store k b self) = _cleanup_interval self.
Proof. unfold store, set_buckets. simpl. auto. Qed.

Lemma conforming_cleanup_at (now : Q) (self : t) :
  conforming self -> conforming (cleanup_at now self).
Proof.
  intros [Hpos Hcap]. split; [apply positive_rates_cleanup_at; exact Hpos |].
  destruct (cleanup_at_fields now self) as (_ & -> & _).
  intros k b Hk. apply (Hcap k).
  rewrite lookup_cleanup_at in Hk.
  destruct (sweep_due now self); [| exact Hk].
  destruct (_buckets self !! k) as [b0|]; [| discriminate].
  destruct (Qltb _ _); [discriminate | exact Hk].
Qed.

(** A call keeps the limiter's rate and capacity and leaves every bucket
    made by the limiter's factory. *)
Lemma conforming_is_allowed (k : string) (self self' : t) (c c' : Clock)
    (r : bool * Z) :
  conforming self ->
  is_allowed k self c = Some ((r, self'), c') ->
  conforming self' /\ rate self' = rate self /\
  capacity self' = capacity self.
Proof.
  intros Hconf Hrun.
  pose proof (conforming_cleanup_at (readings c (cursor c)) self Hconf)
    as [Hpos Hcap].
  destruct (cleanup_at_fields (readings c (cursor c)) self)
    as (Hrate & Hcapacity & _).
  rewrite is_allowed_decision in Hrun. cbv zeta in Hrun.
  destruct (bucket_decision _ _ _ _) as [[[r0 b'] c0]|] eqn:Hd;
    [| discriminate].
  injection Hrun as <- <- <-.
  pose proof (bucket_decision_capacity _ _ _ _ _ _ _ Hd) as Hbcap.
  apply bucket_decision_inv in Hd as (_ & _ & _ & _ & Hbrate).
  rewrite (decision_rate_positive _ k Hpos) in Hbrate.
  destruct (store_fields k b' (cleanup_at (readings c (cursor c)) self))
    as (Hs1 & Hs2 & _).
  split; [| split; congruence].
  split; [split |].
  - rewrite Hs1. exact (proj1 Hpos).
  - intros k0 b0. rewrite Hs1. unfold store, set_buckets. simpl.
    destruct (decide (k = k0)) as [-> | Hne].
    + rewrite lookup_insert_eq. intros [= <-]. exact Hbrate.
    + rewrite lookup_insert_ne by exact Hne. apply (proj2 Hpos).
  - intros k0 b0. rewrite Hs2. unfold store, set_buckets. simpl.
    destruct (decide (k = k0)) as [-> | Hne].
    + rewrite lookup_insert_eq. intros [= <-]. rewrite Hbcap.
      destruct (_buckets _ !! k0) as [b1|] eqn:E; [apply (Hcap k0 b1 E) |].
      reflexivity.
    + rewrite lookup_insert_ne by exact Hne. apply Hcap.
Qed.


(** Calls for other keys leave the entry of [k] as it was, or remove it. *)
Lemma others_keep_or_remove (k : string) (ks : list string) :
  forall (self self' : t) (c c' : Clock) log,
    k ∉ ks -> conforming self ->
    is_allowed_all ks self c = Some ((log, self'), c') ->
    (_buckets self' !! k = _buckets self !! k \/ _buckets self' !! k = None) /\
    conforming self' /\ rate self' = rate self /\
    capacity self' = capacity self /\
    readings c' = readings c /\ (cursor c <= cursor c')%nat.
Proof.
  induction ks as [|k0 ks IH]; intros self self' c c' log Hnin Hconf Hrun.
  - injection Hrun as <- <- <-.
    split; [left; reflexivity |]. repeat split; auto; try apply Hconf.
  - apply not_elem_of_cons in Hnin as [Hne Hnin].
    destruct (is_allowed k0 self c) as [[[r s1] c1]|] eqn:Hstep.
    2:{ cbn [is_allowed_all] in Hrun. unfold mbind at 1, M_bind at 1 in Hrun.
        unfold peek_time in Hrun. cbn beta iota in Hrun.
        unfold mbind at 1, M_bind at 1 in Hrun. rewrite Hstep in Hrun.
        discriminate. }
    rewrite (is_allowed_all_cons _ _ _ _ _ _ _ Hstep) in Hrun.
    destruct (is_allowed_all ks s1 c1) as [[[log1 s2] c2]|] eqn:Hrest;
      [| discriminate].
    injection Hrun as <- <- <-.
    destruct (conforming_is_allowed _ _ _ _ _ _ Hconf Hstep)
      as (Hconf1 & Hrate1 & Hcap1).
    destruct (IH _ _ _ _ _ Hnin Hconf1 Hrest)
      as (Hk & Hconf2 & Hrate2 & Hcap2 & Hread & Hcur).
    apply is_allowed_inv in Hstep. cbv zeta in Hstep.
    destruct Hstep as (b' & n & Hs1 & Hc1 & Hn & _).
    subst c1. simpl in Hread, Hcur.
    assert (Hk1 : _buckets s1 !! k = _buckets self !! k \/
                  _buckets s1 !! k = None).
    { rewrite Hs1. unfold store, set_buckets. simpl.
      rewrite lookup_insert_ne by congruence. rewrite lookup_cleanup_at.
      destruct (sweep_due _ self); [| left; reflexivity].
      destruct (_buckets self !! k) as [bk|]; [| left; reflexivity].
      destruct (Qltb _ _); [right | left]; reflexivity. }
    split.
    { destruct Hk as [Hk | Hk]; [| right; exact Hk]. rewrite Hk. exact Hk1. }
    split; [exact Hconf2 |]. split; [congruence |]. split; [congruence |].
    split; [exact Hread | lia].
Qed.

End Conforming.

Section Retry.

Import RateLimiter.

Lemma non_decreasing_readings (c c' : Clock) :
  readings c' = readings c -> non_decreasing c -> non_decreasing c'.
Proof. unfold non_decreasing. intros ->. auto. Qed.

(** X3.  After a denial with [retry_after = R], whatever the calls other
    clients make in between, the same client is admitted by the first call
    it makes [R] seconds or more after the denied one.  The limiter is
    conforming (every bucket has the limiter's positive rate and its
    capacity), its capacity is at least 1 and the clock does not go
    back. *)
Theorem retry_after_suffices (k : string) (others : list string)
    (self self1 self2 : t) (c c1 c2 : Clock) (R : Z)
    (log : list (string * Q * (bool * Z))) :
  conforming self -> 1 <= capacity self -> non_decreasing c ->
  is_allowed k self c = Some ((false, R), self1, c1) ->
  k ∉ others ->
  is_allowed_all others self1 c1 = Some ((log, self2), c2) ->
  (readings c (cursor c1 - 1) + inject_Z R <= readings c (cursor c2))%Q ->
  exists self3 c3, is_allowed k self2 c2 = Some ((true, 0), self3, c3).
Proof.
  intros Hconf Hcap Hmono Hden Hnin Hrun Hlate.
  destruct (conforming_is_allowed _ _ _ _ _ _ Hconf Hden)
    as (Hconf1 & Hrate1 & Hcap1).
  (* the bucket the denial left *)
  pose proof Hden as Hd. rewrite is_allowed_decision in Hd. cbv zeta in Hd.
  destruct (bucket_decision _ _ _ _) as [[[r0 b2] c0]|] eqn:Hdec;
    [| discriminate].
  injection Hd as -> <- <-.
  pose proof (conforming_cleanup_at (readings c (cursor c)) self Hconf)
    as Hconfc.
  pose proof (bucket_decision_capacity _ _ _ _ _ _ _ Hdec) as Hb2cap.
  pose proof (bucket_decision_inv _ _ _ _ _ _ _ Hdec)
    as (n & Hc0 & Hn & Hlu & Hb2rate).
  rewrite (decision_rate_positive _ k (proj1 Hconfc)) in Hb2rate.
  destruct (cleanup_at_fields (readings c (cursor c)) self)
    as (Hfr & Hfc & _).
  assert (Hpos : (0 < rate self)%Q) by apply Hconf.
  destruct (bucket_decision_denied _ _ _ _ _ _ _ Hdec) as [HR Hcover].
  { rewrite (decision_rate_positive _ k (proj1 Hconfc)), Hfr. exact Hpos. }
  assert (Hb2cap' : TokenBucket.capacity b2 = inject_Z (capacity self)).
  { rewrite Hb2cap.
    destruct (_buckets _ !! k) as [b|] eqn:E; [| now rewrite Hfc].
    rewrite (proj2 Hconfc k b E). now rewrite Hfc. }
  assert (Hk1 : _buckets (store k b2 (cleanup_at (readings c (cursor c)) self))
                !! k = Some b2)
    by (unfold store, set_buckets; simpl; apply lookup_insert_eq).
  (* what the other clients did *)
  destruct (others_keep_or_remove k others _ _ _ _ _ Hnin Hconf1 Hrun)
    as (Hk2 & Hconf2 & Hrate2 & Hcap2 & Hread & Hcur).
  rewrite Hk1 in Hk2. subst c0. simpl in Hread, Hcur, Hlu, Hlate.
  assert (Hmono2 : non_decreasing (advance 1 c2))
    by (apply (non_decreasing_readings c); [simpl; exact Hread | exact Hmono]).
  (* the retry *)
  rewrite is_allowed_decision. cbv zeta.
  set (now2 := readings c2 (cursor c2)).
  pose proof (conforming_cleanup_at now2 self2 Hconf2) as Hconfc2.
  destruct (cleanup_at_fields now2 self2) as (Hfr2 & Hfc2 & _).
  assert (Hfound : _buckets (cleanup_at now2 self2) !! k = Some b2 \/
                   _buckets (cleanup_at now2 self2) !! k = None).
  { rewrite lookup_cleanup_at. destruct (sweep_due now2 self2).
    - destruct Hk2 as [-> | ->]; [| right; reflexivity].
      destruct (Qltb _ _); [right | left]; reflexivity.
    - destruct Hk2 as [-> | ->]; [left | right]; reflexivity. }
  destruct Hfound as [-> | ->].
  - destruct (bucket_decision_enough b2 (rate (cleanup_at now2 self2))
                (capacity (cleanup_at now2 self2)) (advance 1 c2))
      as (b' & ->); [| eauto].
    set (t3 := readings (advance 1 c2) (cursor (advance 1 c2))).
    assert (Ht3 : (readings c (cursor c + 1 + n - 1) + inject_Z R <= t3)%Q).
    { eapply Qle_trans; [| apply Hmono2 with (i := cursor c2)].
      - subst t3. simpl. rewrite Hread.
        replace (cursor c + 1 + n - 1)%nat with (cursor c + 1 + n - 1)%nat
          in Hlate by reflexivity.
        exact Hlate.
      - simpl. lia. }
    rewrite <- Hlu in Ht3.
    assert (Hcapq : (1 <= inject_Z (capacity self))%Q)
      by (change 1%Q with (inject_Z 1); rewrite <- Zle_Qle; exact Hcap).
    rewrite Hb2rate, Hfr in *.
    assert (Hmul : (inject_Z R * rate self
                    <= (t3 - TokenBucket.last_update b2) * rate self)%Q)
      by (apply Qmult_le_r; [exact Hpos | lra]).
    apply Q.min_glb; [rewrite Hb2cap'; exact Hcapq | lra].
  - destruct (bucket_decision_fresh (rate (cleanup_at now2 self2))
                (capacity (cleanup_at now2 self2)) (advance 1 c2))
      as (b' & -> & _); [| | exact Hmono2 | eauto].
    + rewrite Hfr2, Hrate2, Hrate1. apply Qlt_le_weak. exact Hpos.
    + rewrite Hfc2, Hcap2, Hcap1. exact Hcap.
Qed.

(** The first call of a client the mapping does not hold. *)
Lemma is_allowed_new_client (k : string) (self : t) (c : Clock) :
  _buckets self !! k = None -> 1 <= capacity self -> (0 <= rate self)%Q ->
  non_decreasing c ->
  exists self' b,
    is_allowed k self c = Some ((true, 0), self', advance 3 c) /\
    _buckets self' !! k = Some b /\
    (TokenBucket.tokens b == inject_Z (capacity self) - 1)%Q.
Proof.
  intros Hnew Hcap Hrate Hmono.
  rewrite is_allowed_decision. cbv zeta.
  set (now := readings c (cursor c)).
  destruct (cleanup_at_fields now self) as (Hfr & Hfc & _).
  assert (Hfound : _buckets (cleanup_at now self) !! k = None).
  { rewrite lookup_cleanup_at, Hnew. destruct (sweep_due now self);
      reflexivity. }
  rewrite Hfound.
  destruct (bucket_decision_fresh (rate (cleanup_at now self))
              (capacity (cleanup_at now self)) (advance 1 c))
    as (b' & -> & Htok).
  - rewrite Hfr. exact Hrate.
  - rewrite Hfc. exact Hcap.
  - exact Hmono.
  - eexists _, b'. split; [rewrite advance_advance; reflexivity |].
    split; [unfold store, set_buckets; simpl; apply lookup_insert_eq |].
    rewrite Htok, Hfc. reflexivity.
Qed.

(** X4.  A client the mapping does not hold is admitted by its first call
    when the capacity is at least 1, the rate is not negative and the clock
    does not go back; its new bucket then holds the capacity minus one. *)
Theorem new_client_is_admitted (k : string) (self : t) (c : Clock) :
  _buckets self !! k = None -> 1 <= capacity self -> (0 <= rate self)%Q ->
  non_decreasing c ->
  exists self' b,
    is_allowed k self c = Some ((true, 0), self', advance 3 c) /\
    _buckets self' !! k = Some b /\
    (TokenBucket.tokens b == inject_Z (capacity self) - 1)%Q.
Proof. apply is_allowed_new_client. Qed.

(** X6.  When the sweep is due and finds the bucket of the calling client
    idle for more than the cleanup interval, the call is answered, and the
    limiter left, exactly as if the client had never been seen: the client
    starts again from a full bucket, whatever its old bucket held. *)
Theorem evicted_client_is_new (k : string) (self : t) (c : Clock)
    (b : TokenBucket.t) :
  let now := readings c (cursor c) in
  (_cleanup_interval self <= now - _last_cleanup self)%Q ->
  _buckets self !! k = Some b ->
  (_cleanup_interval self < now - TokenBucket.last_update b)%Q ->
  is_allowed k self c = is_allowed k (without_client k self) c.
Proof.
  intros now Hdue Hk Hstale.
  apply sweep_due_true in Hdue.
  assert (Hdue' : sweep_due now (without_client k self) = true) by exact Hdue.
  assert (Hsame : cleanup_at now (without_client k self) = cleanup_at now self).
  { unfold cleanup_at. rewrite Hdue, Hdue'.
    unfold without_client, set_buckets. cbn [requests_per_window window_seconds
      rate capacity _buckets _last_cleanup _cleanup_interval].
    f_equal. apply map_eq. intros k0.
    pose proof (lookup_cleanup_at now self k0) as H1.
    pose proof (lookup_cleanup_at now (without_client k self) k0) as H2.
    unfold cleanup_at in H1, H2. rewrite Hdue in H1. rewrite Hdue' in H2.
    cbn [_buckets] in H1, H2.
    unfold without_client, set_buckets in H2.
    cbn [_buckets _cleanup_interval] in H2.
    rewrite H1, H2. destruct (decide (k0 = k)) as [-> | Hne].
    - rewrite lookup_delete_eq, Hk. apply Qltb_true in Hstale.
      now rewrite Hstale.
    - rewrite lookup_delete_ne by congruence. reflexivity. }
  rewrite !is_allowed_decision. cbv zeta. fold now. rewrite Hsame.
  reflexivity.
Qed.

End Retry.

Section NoCapacity.

Import RateLimiter.




End NoCapacity.


Lemma drained_limiter_conforming : conforming drained_limiter.
Proof.
  split; [split |].
  - vm_compute. reflexivity.
  - intros k b Hk. unfold drained_limiter in Hk. simpl in Hk.
    apply lookup_singleton_Some in Hk as [_ <-]. reflexivity.
  - intros k b Hk. unfold drained_limiter in Hk. simpl in Hk.
    apply lookup_singleton_Some in Hk as [_ <-]. reflexivity.
Qed.

Lemma three_a_second_non_decreasing : non_decreasing three_a_second.
Proof.
  intros i j Hij. unfold three_a_second. cbn [readings]. rewrite <- Zle_Qle.
  apply Nat2Z.inj_le. apply Nat.Div0.div_le_mono. exact Hij.
Qed.

(** The drained client is denied at second 0 with [retry_after = 2];
    another client calls at second 1; the retry at second 2 is admitted. *)
Lemma retry_after_suffices_witness :
  exists self1 c1 log self2 c2 self3 c3,
    RateLimiter.is_allowed "a" drained_limiter three_a_second
      = Some ((false, 2), self1, c1) /\
    RateLimiter.is_allowed_all ["b"%string] self1 c1
      = Some ((log, self2), c2) /\
    (readings three_a_second (cursor c1 - 1) + inject_Z 2
     <= readings three_a_second (cursor c2))%Q /\
    RateLimiter.is_allowed "a" self2 c2 = Some ((true, 0), self3, c3).
Proof.
  destruct (RateLimiter.is_allowed "a" drained_limiter three_a_second)
    as [[[r self1] c1]|] eqn:Hden; [| vm_compute in Hden; discriminate].
  destruct (RateLimiter.is_allowed_all ["b"%string] self1 c1)
    as [[[log self2] c2]|] eqn:Hrun.
  2:{ vm_compute in Hden. injection Hden as _ <- <-.
      vm_compute in Hrun. discriminate. }
  assert (Hr : r = (false, 2)) by (vm_compute in Hden; congruence).
  subst r.
  assert (Hlate : (readings three_a_second (cursor c1 - 1) + inject_Z 2
                   <= readings three_a_second (cursor c2))%Q).
  { vm_compute in Hden. injection Hden as <- <-.
    vm_compute in Hrun. injection Hrun as _ _ <-.
    vm_compute. discriminate. }
  destruct (retry_after_suffices "a" ["b"%string] drained_limiter self1 self2
              three_a_second c1 c2 2 log drained_limiter_conforming)
    as (self3 & c3 & Hretry);
    [simpl; lia | exact three_a_second_non_decreasing | exact Hden
    | | exact Hrun | exact Hlate |].
  { intros Hin. apply list_elem_of_singleton in Hin. discriminate. }
  exists self1, c1, log, self2, c2, self3, c3. auto.
Defined.

(** A client unknown to the drained limiter. *)
Lemma new_client_is_admitted_witness :
  exists self' b,
    RateLimiter.is_allowed "z" drained_limiter ticking
      = Some ((true, 0), self', advance 3 ticking) /\
    RateLimiter._buckets self' !! "z"%string = Some b /\
    (TokenBucket.tokens b
     == inject_Z (RateLimiter.capacity drained_limiter) - 1)%Q.
Proof.
  apply (new_client_is_admitted "z" drained_limiter ticking).
  - reflexivity.
  - simpl. lia.
  - vm_compute. discriminate.
  - exact ticking_non_decreasing.
Defined.

(** The idle client of [two_client_limiter] calls at time 0, when the
    sweep is due. *)
Lemma evicted_client_is_new_witness :
  RateLimiter.is_allowed "idle" two_client_limiter (frozen 0)
  = RateLimiter.is_allowed "idle" (without_client "idle" two_client_limiter)
      (frozen 0).
Proof.
  eapply (evicted_client_is_new "idle" two_client_limiter (frozen 0)).
  - vm_compute. discriminate.
  - reflexivity.
  - vm_compute. reflexivity.
Defined.

(** * The string operations *)

Section Strings.

Lemma py_split_cons (sep : ascii) (s : string) :
  exists first rest, py_split sep s = first :: rest.
Proof.
  destruct s as [|a s]; simpl; [eauto |].
  destruct (Ascii.eqb a sep); [eauto |].
  destruct (py_split sep s); eauto.
Qed.

(** The first field of a split: the part of the string before the first
    separator. *)
Lemma py_split_first (sep : ascii) (s : string) :
  forall first rest,
    py_split sep s = first :: rest ->
    occurs sep first = false /\
    ((rest = [] /\ s = first) \/
     exists tail, s = (first +:+ String sep tail)%string /\
                  rest = py_split sep tail).
Proof.
  induction s as [|a s IH]; intros first rest H; simpl in H.
  - injection H as <- <-. split; [reflexivity | left; auto].
  - destruct (Ascii.eqb_spec a sep) as [-> | Hne].
    + injection H as <- <-. split; [reflexivity |].
      right. exists s. split; reflexivity.
    + destruct (py_split_cons sep s) as (f & r & Hs). rewrite Hs in H.
      injection H as <- <-. destruct (IH f r Hs) as [Hocc Hshape].
      split.
      * simpl. rewrite Hocc. destruct (Ascii.eqb_spec a sep); [contradiction |].
        reflexivity.
      * destruct Hshape as [[-> ->] | (tail & -> & ->)].
        -- left. auto.
        -- right. exists tail. split; reflexivity.
Qed.

Lemma py_split_length (sep : ascii) (s : string) :
  length (py_split sep s) = S (count_char sep s).
Proof.
  induction s as [|a s IH]; simpl; [reflexivity |].
  destruct (Ascii.eqb a sep); simpl; [now rewrite IH |].
  destruct (py_split_cons sep s) as (f & r & Hs). rewrite Hs in *.
  simpl in *. exact IH.
Qed.

Lemma py_split_no_sep (sep : ascii) (s : string) :
  Forall (fun field => occurs sep field = false) (py_split sep s).
Proof.
  induction s as [|a s IH]; simpl.
  - constructor; [reflexivity | constructor].
  - destruct (Ascii.eqb_spec a sep) as [-> | Hne].
    + constructor; [reflexivity | exact IH].
    + destruct (py_split_cons sep s) as (f & r & Hs). rewrite Hs in *.
      inversion IH as [|? ? Hf Hr]; subst. constructor; [| exact Hr].
      simpl. rewrite Hf. destruct (Ascii.eqb_spec a sep); [contradiction |].
      reflexivity.
Qed.

Lemma occurs_py_lstrip (a : ascii) (s : string) :
  occurs a (py_lstrip s) = true -> occurs a s = true.
Proof.
  induction s as [|b s IH]; simpl; [auto |].
  destruct (py_isspace b); [| auto].
  intros H. rewrite (IH H). apply orb_true_r.
Qed.

Lemma occurs_py_rstrip (a : ascii) (s : string) :
  occurs a (py_rstrip s) = true -> occurs a s = true.
Proof.
  induction s as [|b s IH]; simpl; [auto |].
  destruct (py_rstrip s) as [|b' r] eqn:E.
  - destruct (py_isspace b); simpl; [discriminate |].
    rewrite orb_false_r. intros ->. reflexivity.
  - simpl. simpl in IH. destruct (Ascii.eqb b a); simpl; [auto |]. exact IH.
Qed.

Lemma first_char_py_lstrip (s : string) (a : ascii) :
  first_char (py_lstrip s) = Some a -> py_isspace a = false.
Proof.
  induction s as [|b s IH]; simpl; [discriminate |].
  destruct (py_isspace b) eqn:E; [exact IH |].
  simpl. intros [= <-]. exact E.
Qed.

Lemma first_char_py_rstrip (s : string) (a : ascii) :
  first_char (py_rstrip s) = Some a -> first_char s = Some a.
Proof.
  destruct s as [|b s]; simpl; [auto |].
  destruct (py_rstrip s); [destruct (py_isspace b) |]; simpl; auto.
  discriminate.
Qed.

Lemma last_char_py_rstrip (s : string) (a : ascii) :
  last_char (py_rstrip s) = Some a -> py_isspace a = false.
Proof.
  induction s as [|b s IH]; simpl; [discriminate |].
  destruct (py_rstrip s) as [|b' r] eqn:E.
  - destruct (py_isspace b) eqn:Eb; simpl; [discriminate |].
    intros [= <-]. exact Eb.
  - intros H. apply IH. exact H.
Qed.

Lemma py_lstrip_empty (s : string) :
  py_lstrip s = EmptyString <-> blank s = true.
Proof.
  induction s as [|b s IH]; simpl; [tauto |].
  destruct (py_isspace b); simpl; [exact IH |].
  split; discriminate.
Qed.

Lemma py_rstrip_empty (s : string) :
  py_rstrip s = EmptyString <-> blank s = true.
Proof.
  induction s as [|b s IH]; simpl; [tauto |].
  destruct (py_rstrip s) as [|b' r] eqn:E.
  - destruct (py_isspace b); simpl.
    + split; [intros _; apply IH; reflexivity | reflexivity].
    + split; discriminate.
  - split; [discriminate |]. rewrite andb_true_iff. intros [_ H].
    apply IH in H. discriminate.
Qed.

Lemma blank_py_lstrip (s : string) : blank (py_lstrip s) = blank s.
Proof.
  induction s as [|b s IH]; simpl; [reflexivity |].
  destruct (py_isspace b) eqn:E; simpl; [exact IH | now rewrite E].
Qed.

Lemma py_strip_stripped (s : string) : stripped (py_strip s).
Proof.
  unfold py_strip. split; intros a H.
  - apply first_char_py_rstrip in H. eapply first_char_py_lstrip. exact H.
  - eapply last_char_py_rstrip. exact H.
Qed.

Lemma py_strip_empty (s : string) :
  py_strip s = EmptyString <-> blank s = true.
Proof. unfold py_strip. rewrite py_rstrip_empty. now rewrite blank_py_lstrip. Qed.

Lemma occurs_py_strip (a : ascii) (s : string) :
  occurs a s = false -> occurs a (py_strip s) = false.
Proof.
  intros H. destruct (occurs a (py_strip s)) eqn:E; [| reflexivity].
  unfold py_strip in E. apply occurs_py_rstrip, occurs_py_lstrip in E.
  congruence.
Qed.

End Strings.

(** * The middleware *)

Section ClientId.

Import RateLimitMiddleware.

(** X7.  When the request carries a non-empty [X-Forwarded-For] header,
    the client id is the part of the header before its first comma, with
    the surrounding white space removed, whatever the address of the
    connection: it contains no comma, neither begins nor ends with white
    space, and is the empty string exactly when that first part is
    blank. *)
Theorem client_id_from_forwarded (request : Request.t) (forwarded : string) :
  Request.x_forwarded_for request = Some forwarded ->
  forwarded <> EmptyString ->
  exists first,
    (forwarded = first \/
     exists tail, forwarded = (first +:+ String "," tail)%string) /\
    occurs "," first = false /\
    _get_client_id request = py_strip first /\
    occurs "," (_get_client_id request) = false /\
    stripped (_get_client_id request) /\
    (_get_client_id request = EmptyString <-> blank first = true).
Proof.
  intros Hfw Hne. unfold _get_client_id. rewrite Hfw.
  assert (Htruthy : py_bool_str forwarded = true).
  { unfold py_bool_str. destruct (String.eqb_spec forwarded "");
      [contradiction | reflexivity]. }
  rewrite Htruthy.
  destruct (py_split_cons "," forwarded) as (first & rest & Hsplit).
  rewrite Hsplit. cbn [py_first head].
  destruct (py_split_first _ _ _ _ Hsplit) as [Hocc Hshape].
  exists first. split; [| split; [exact Hocc | split; [reflexivity |]]].
  - destruct Hshape as [[_ ->] | (tail & -> & _)]; [left | right]; eauto.
  - split; [apply occurs_py_strip; exact Hocc |].
    split; [apply py_strip_stripped | apply py_strip_empty].
Qed.

End ClientId.

(** A proxy chain, with spaces, on a connection from 10.0.0.9. *)
Lemma client_id_from_forwarded_witness :
  exists first,
    (" 203.0.113.7 , 10.0.0.1"%string = first \/
     exists tail,
       " 203.0.113.7 , 10.0.0.1"%string = (first +:+ String "," tail)%string) /\
    occurs "," first = false /\
    RateLimitMiddleware._get_client_id
      (Request.mk "/api/chat" (Some " 203.0.113.7 , 10.0.0.1"%string)
         (Some "10.0.0.9"%string))
    = py_strip first /\
    occurs ","
      (RateLimitMiddleware._get_client_id
         (Request.mk "/api/chat" (Some " 203.0.113.7 , 10.0.0.1"%string)
            (Some "10.0.0.9"%string))) = false /\
    stripped
      (RateLimitMiddleware._get_client_id
         (Request.mk "/api/chat" (Some " 203.0.113.7 , 10.0.0.1"%string)
            (Some "10.0.0.9"%string))) /\
    (RateLimitMiddleware._get_client_id
       (Request.mk "/api/chat" (Some " 203.0.113.7 , 10.0.0.1"%string)
          (Some "10.0.0.9"%string)) = EmptyString
     <-> blank first = true).
Proof.
  apply (client_id_from_forwarded
           (Request.mk "/api/chat" (Some " 203.0.113.7 , 10.0.0.1"%string)
              (Some "10.0.0.9"%string))
           " 203.0.113.7 , 10.0.0.1"%string).
  - reflexivity.
  - discriminate.
Defined.

Example client_id_examples :
  RateLimitMiddleware._get_client_id
    (Request.mk "/api/chat" (Some " 203.0.113.7 , 10.0.0.1"%string)
       (Some "10.0.0.9"%string)) = "203.0.113.7"%string /\
  RateLimitMiddleware._get_client_id
    (Request.mk "/api/chat" (Some " ,10.0.0.1"%string)
       (Some "10.0.0.9"%string)) = EmptyString /\
  RateLimitMiddleware._get_client_id
    (Request.mk "/api/chat" (Some EmptyString) (Some "10.0.0.9"%string))
  = "10.0.0.9"%string /\
  RateLimitMiddleware._get_client_id (Request.mk "/api/chat" None None)
  = "unknown"%string.
Proof. repeat split. Qed.

Section Dispatch.

Import RateLimitMiddleware.

Context {Response App : Type}.
Variable call_next : Request.t -> App -> option Response * App.
Variable set_header : string -> string -> Response -> Response.

Lemma dispatch_excluded (self : t) (request : Request.t) (app : App)
    (c : Clock) :
  excluded self request = true ->
  dispatch call_next set_header self request app c
  = Some ((served call_next request app, self, snd (call_next request app)), c).
Proof.
  intros H. unfold dispatch, served. rewrite H.
  destruct (call_next request app) as [[r|] app']; reflexivity.
Qed.

(** X8.  With the exclusion list [main.py] installs, which ends with
    ["/"], every request whose path begins with a slash bypasses the
    limiter: the handler's answer is returned as it is, no rate-limit
    header is added, the clock is not read and the limiter is left
    untouched, whatever its state. *)
Theorem main_exclusions_disable_limiting (limiter : RateLimiter.t)
    (request : Request.t) (app : App) (c : Clock) :
  py_startswith (Request.path request) "/" = true ->
  dispatch call_next set_header
    {| limiter := limiter; exclude_paths := main_exclude_paths |}
    request app c
  = Some ((served call_next request app,
           {| limiter := limiter; exclude_paths := main_exclude_paths |},
           snd (call_next request app)), c).
Proof.
  intros H. apply dispatch_excluded. unfold excluded, main_exclude_paths.
  cbn [exclude_paths existsb]. rewrite H. now rewrite !orb_true_r.
Qed.

(** X9.  A constructed middleware always excludes some prefix: an empty
    [exclude_paths] argument is replaced by the four default prefixes like
    a missing one, so requests under them are still passed through. *)
Theorem empty_exclusions_fall_back (settings : Settings.t)
    (given : RateLimiter.t) (paths : option (list string)) (c : Clock) :
  exists self,
    __init__ settings (Some given) paths c = Some (self, c) /\
    limiter self = given /\
    exclude_paths self <> [] /\
    ((paths = None \/ paths = Some []) ->
     exclude_paths self = default_exclude_paths /\
     forall (request : Request.t) (prefix : string) (app : App) (c1 : Clock),
       prefix ∈ default_exclude_paths ->
       py_startswith (Request.path request) prefix = true ->
       dispatch call_next set_header self request app c1
       = Some ((served call_next request app, self, snd (call_next request app)), c1)).
Proof.
  eexists. split; [reflexivity |]. split; [reflexivity |]. split.
  - cbn [exclude_paths]. destruct paths as [[|p ps]|]; discriminate.
  - intros Hp.
    assert (Hex : match paths with
                  | Some (p :: ps) => p :: ps
                  | _ => default_exclude_paths
                  end = default_exclude_paths)
      by (destruct Hp as [-> | ->]; reflexivity).
    cbn [exclude_paths]. split; [exact Hex |].
    intros request prefix app c1 Hin Hstart. apply dispatch_excluded.
    unfold excluded. cbn [exclude_paths]. rewrite Hex.
    apply existsb_exists. exists prefix. split; [| exact Hstart].
    apply list_elem_of_In. exact Hin.
Qed.



(** X11.  A request on a path that is not excluded, whose client id the
    mapping does not hold, is never limited: it reaches the handler, when
    the capacity is at least 1, the rate not negative and the clock does
    not go back.  The state of every other bucket plays no part. *)
Theorem unknown_client_id_is_served (self : t) (request : Request.t)
    (app : App) (c : Clock) :
  excluded self request = false ->
  RateLimiter._buckets (limiter self) !! _get_client_id request = None ->
  1 <= RateLimiter.capacity (limiter self) ->
  (0 <= RateLimiter.rate (limiter self))%Q ->
  non_decreasing c ->
  exists outcome self',
    dispatch call_next set_header self request app c
    = Some ((outcome, self', snd (call_next request app)), advance 3 c) /\
    match outcome with
    | Returned _ | HandlerRaised => True
    | Limited _ => False
    end.
Proof.
  intros Hex Hnew Hcap Hrate Hmono. unfold dispatch. rewrite Hex.
  destruct (is_allowed_new_client _ _ _ Hnew Hcap Hrate Hmono)
    as (l' & b & Hrun & _).
  rewrite (bind_eq _ _ _ _ _ Hrun). cbn beta iota.
  destruct (call_next request app) as [[r0|] app']; eexists _, _;
    (split; [reflexivity | exact I]).
Qed.

End Dispatch.

(** The drained client of [drained_limiter] behind [main.py]'s exclusion
    list: its request goes through. *)
Lemma main_exclusions_disable_limiting_witness :
  RateLimitMiddleware.dispatch counting_handler cons_header
    {| RateLimitMiddleware.limiter := drained_limiter;
       RateLimitMiddleware.exclude_paths := main_exclude_paths |}
    (Request.mk "/api/chat" (Some "a"%string) None) 0%nat (frozen 0)
  = Some ((served counting_handler
             (Request.mk "/api/chat" (Some "a"%string) None) 0%nat,
           {| RateLimitMiddleware.limiter := drained_limiter;
              RateLimitMiddleware.exclude_paths := main_exclude_paths |},
           snd (counting_handler
                  (Request.mk "/api/chat" (Some "a"%string) None) 0%nat)),
          frozen 0).
Proof.
  apply (main_exclusions_disable_limiting counting_handler cons_header
           drained_limiter (Request.mk "/api/chat" (Some "a"%string) None)
           0%nat (frozen 0)).
  reflexivity.
Defined.

(** A middleware built with an empty exclusion list still lets a health
    probe through. *)
Lemma empty_exclusions_fall_back_witness :
  exists self,
    RateLimitMiddleware.__init__ Settings.default (Some drained_limiter)
      (Some []) (frozen 0) = Some (self, frozen 0) /\
    RateLimitMiddleware.dispatch counting_handler cons_header self
      (Request.mk "/health/live" (Some "a"%string) None) 0%nat (frozen 0)
    = Some ((served counting_handler
               (Request.mk "/health/live" (Some "a"%string) None) 0%nat,
             self, 1%nat), frozen 0).
Proof.
  destruct (empty_exclusions_fall_back counting_handler cons_header
              Settings.default drained_limiter (Some []) (frozen 0))
    as (self & Hinit & _ & _ & Hfall).
  exists self. split; [exact Hinit |].
  destruct (Hfall (or_intror eq_refl)) as [_ Hpass].
  apply (Hpass (Request.mk "/health/live" (Some "a"%string) None)
           "/health"%string 0%nat (frozen 0)).
  - unfold RateLimitMiddleware.default_exclude_paths. left.
  - reflexivity.
Defined.


(** The same limiter, a request that names another address in its
    header: served. *)
Lemma unknown_client_id_is_served_witness :
  exists outcome self',
    RateLimitMiddleware.dispatch counting_handler cons_header
      {| RateLimitMiddleware.limiter := drained_limiter;
         RateLimitMiddleware.exclude_paths :=
           RateLimitMiddleware.default_exclude_paths |}
      (Request.mk "/api/chat" (Some "b"%string) None) 0%nat ticking
    = Some ((outcome, self',
             snd (counting_handler
                    (Request.mk "/api/chat" (Some "b"%string) None) 0%nat)),
            advance 3 ticking) /\
    match outcome with
    | RateLimitMiddleware.Returned _ | RateLimitMiddleware.HandlerRaised =>
        True
    | RateLimitMiddleware.Limited _ => False
    end.
Proof.
  apply (unknown_client_id_is_served counting_handler cons_header
           {| RateLimitMiddleware.limiter := drained_limiter;
              RateLimitMiddleware.exclude_paths :=
                RateLimitMiddleware.default_exclude_paths |}
           (Request.mk "/api/chat" (Some "b"%string) None) 0%nat ticking).
  - reflexivity.
  - reflexivity.
  - simpl. lia.
  - vm_compute. discriminate.
  - exact ticking_non_decreasing.
Defined.

(** * The settings and the key manager *)

Section Slices.

Lemma length_app_string (a b : string) :
  String.length (a +:+ b) = (String.length a + String.length b)%nat.
Proof. induction a as [|x a IH]; simpl; [reflexivity | now rewrite IH]. Qed.

Lemma substring_all (s : string) : String.substring 0 (String.length s) s = s.
Proof. induction s as [|x s IH]; simpl; [reflexivity | now rewrite IH]. Qed.

Lemma substring_head_app (a r : string) :
  String.substring 0 (String.length a) (a +:+ r) = a.
Proof.
  induction a as [|x a IH]; simpl.
  - destruct r; reflexivity.
  - now rewrite IH.
Qed.

Lemma substring_skip_app (a b : string) (n : nat) :
  String.substring (String.length a) n (a +:+ b) = String.substring 0 n b.
Proof. induction a as [|x a IH]; simpl; [reflexivity | exact IH]. Qed.

Lemma py_head_app (n : nat) (a r : string) :
  String.length a = n -> py_head n (a +:+ r) = a.
Proof. intros <-. apply substring_head_app. Qed.

Lemma py_tail_app (n : nat) (a b : string) :
  String.length b = n -> py_tail n (a +:+ b) = b.
Proof.
  intros <-. unfold py_tail. rewrite length_app_string.
  replace (String.length a + String.length b - String.length b)%nat
    with (String.length a) by lia.
  rewrite substring_skip_app. apply substring_all.
Qed.

Lemma length_substring_le (s : string) :
  forall i n, (String.length (String.substring i n s) <= n)%nat.
Proof.
  induction s as [|x s IH]; intros i n.
  - destruct i, n; simpl; lia.
  - destruct i as [|i]; simpl.
    + destruct n as [|n]; simpl; [lia |]. specialize (IH 0%nat n). lia.
    + apply IH.
Qed.

Lemma py_bool_str_true (s : string) :
  py_bool_str s = true <-> s <> EmptyString.
Proof.
  unfold py_bool_str. destruct (String.eqb_spec s ""); simpl; split;
    intros H; try discriminate; try reflexivity; congruence.
Qed.

End Slices.

(** X12.  [mask_key] never shows more than eight characters of a key: a
    key of at most 8 characters becomes ["***"], and a longer key, read as
    four characters, a non-empty middle and four characters, becomes the
    first four, three dots and the last four, whatever the middle and its
    length. *)
Theorem mask_key_shows_only_ends (key : string) :
  ((String.length key <= 8)%nat -> APIKeyManager.mask_key key = "***"%string) /\
  (String.length (APIKeyManager.mask_key key) <= 11)%nat /\
  (forall a m b : string,
     key = (a +:+ m +:+ b)%string ->
     String.length a = 4%nat -> String.length b = 4%nat ->
     m <> EmptyString ->
     APIKeyManager.mask_key key = (a +:+ "..." +:+ b)%string).
Proof.
  unfold APIKeyManager.mask_key. split; [| split].
  - intros H. apply Nat.leb_le in H. now rewrite H.
  - destruct (String.length key <=? 8)%nat; [simpl; lia |].
    rewrite !length_app_string. unfold py_head, py_tail.
    pose proof (length_substring_le key 0 4).
    pose proof (length_substring_le key (String.length key - 4) 4).
    simpl. lia.
  - intros a m b -> Ha Hb Hm.
    assert (Hlen : (String.length (a +:+ m +:+ b) <=? 8)%nat = false).
    { apply Nat.leb_gt. rewrite !length_app_string, Ha, Hb.
      destruct m; [contradiction | simpl; lia]. }
    rewrite Hlen. rewrite (py_head_app 4 a (m +:+ b) Ha).
    assert (Hassoc : (a +:+ m +:+ b)%string = ((a +:+ m) +:+ b)%string).
    { clear. induction a as [|x a IH]; [reflexivity |].
      change (String x (a +:+ m +:+ b) = String x ((a +:+ m) +:+ b)).
      now rewrite IH. }
    rewrite Hassoc, (py_tail_app 4 (a +:+ m) b Hb). reflexivity.
Qed.

(** Two keys that differ in their middle only. *)
Lemma mask_key_shows_only_ends_witness :
  APIKeyManager.mask_key "AIzaSyD-secret-part-one-9f3K"%string
  = "AIza...9f3K"%string /\
  APIKeyManager.mask_key "AIza-another-9f3K"%string = "AIza...9f3K"%string.
Proof.
  split.
  - apply (proj2 (proj2 (mask_key_shows_only_ends
             "AIzaSyD-secret-part-one-9f3K"%string))
             "AIza"%string "SyD-secret-part-one-"%string "9f3K"%string);
      [reflexivity | reflexivity | reflexivity | discriminate].
  - apply (proj2 (proj2 (mask_key_shows_only_ends
             "AIza-another-9f3K"%string))
             "AIza"%string "-another-"%string "9f3K"%string);
      [reflexivity | reflexivity | reflexivity | discriminate].
Defined.

Lemma validate_api_key_Some (v v' : string) :
  TextSettings.validate_api_key v = Some v' ->
  v' = v /\ (v = EmptyString \/ (20 <= String.length v)%nat).
Proof.
  unfold TextSettings.validate_api_key.
  destruct (py_bool_str v) eqn:E; simpl.
  - destruct (Nat.ltb_spec (String.length v) 20); [discriminate |].
    intros [= <-]. auto.
  - intros [= <-]. split; [reflexivity |]. left.
    destruct (String.eqb_spec v ""); [assumption |].
    apply py_bool_str_true in n. congruence.
Qed.

Lemma validate_api_key_accepts (v : string) :
  TextSettings.validate_api_key v <> None <->
  (v = EmptyString \/ (20 <= String.length v)%nat).
Proof.
  unfold TextSettings.validate_api_key.
  destruct (py_bool_str v) eqn:E; simpl.
  - apply py_bool_str_true in E.
    destruct (Nat.ltb_spec (String.length v) 20) as [Hlt | Hge].
    + split; [intros H; exfalso; apply H; reflexivity |].
      intros [-> | Hge]; [contradiction | lia].
    + split; [auto | discriminate].
  - split; [intros _ | discriminate]. left.
    destruct (String.eqb_spec v ""); [assumption |].
    apply py_bool_str_true in n. congruence.
Qed.

(** X13.  Settings are accepted exactly when each of the two keys is empty
    or has at least 20 characters, and the validators return the keys
    unchanged; the key manager is then built exactly when the backend key
    is not empty.  So every key a key manager hands out has 20 characters
    or more, and [get_frontend_key] answers [None] exactly when no frontend
    key is configured. *)
Theorem managed_keys_are_long (api frontend origins : string) :
  (TextSettings.validated api frontend origins <> None <->
   (api = EmptyString \/ (20 <= String.length api)%nat) /\
   (frontend = EmptyString \/ (20 <= String.length frontend)%nat)) /\
  forall s : TextSettings.t,
    TextSettings.validated api frontend origins = Some s ->
    TextSettings.google_maps_api_key s = api /\
    TextSettings.google_maps_frontend_key s = frontend /\
    (APIKeyManager.__init__ s <> None <-> api <> EmptyString) /\
    forall m : APIKeyManager.t,
      APIKeyManager.__init__ s = Some m ->
      APIKeyManager.get_backend_key m = api /\
      (20 <= String.length (APIKeyManager.get_backend_key m))%nat /\
      (APIKeyManager.get_frontend_key m = None <-> frontend = EmptyString) /\
      forall f, APIKeyManager.get_frontend_key m = Some f ->
                f = frontend /\ (20 <= String.length f)%nat.
Proof.
  split.
  - unfold TextSettings.validated.
    pose proof (validate_api_key_accepts api) as Ha.
    pose proof (validate_api_key_accepts frontend) as Hf.
    destruct (TextSettings.validate_api_key api) as [a'|],
             (TextSettings.validate_api_key frontend) as [f'|].
    + split; [intros _ | discriminate].
      split; [apply Ha | apply Hf]; discriminate.
    + split; [intros H; exfalso; apply H; reflexivity |].
      intros [_ H]. apply Hf in H. contradiction.
    + split; [intros H; exfalso; apply H; reflexivity |].
      intros [H _]. apply Ha in H. contradiction.
    + split; [intros H; exfalso; apply H; reflexivity |].
      intros [H _]. apply Ha in H. contradiction.
  - intros s Hs. unfold TextSettings.validated in Hs.
    destruct (TextSettings.validate_api_key api) as [a'|] eqn:Ha;
      [| discriminate].
    destruct (TextSettings.validate_api_key frontend) as [f'|] eqn:Hf;
      [| discriminate].
    apply validate_api_key_Some in Ha as [-> Ha].
    apply validate_api_key_Some in Hf as [-> Hf].
    injection Hs as <-. cbn [TextSettings.google_maps_api_key
      TextSettings.google_maps_frontend_key].
    split; [reflexivity |]. split; [reflexivity |].
    unfold APIKeyManager.__init__, APIKeyManager._validate_keys.
    cbn [APIKeyManager.settings TextSettings.google_maps_api_key].
    split.
    + destruct (py_bool_str api) eqn:E; simpl.
      * apply py_bool_str_true in E. split; [auto | discriminate].
      * split; [intros H; exfalso; apply H; reflexivity |].
        intros H. apply py_bool_str_true in H. congruence.
    + intros m. destruct (py_bool_str api) eqn:E; simpl; [| discriminate].
      intros [= <-]. apply py_bool_str_true in E.
      unfold APIKeyManager.get_backend_key, APIKeyManager.get_frontend_key.
      cbn [APIKeyManager.settings TextSettings.google_maps_api_key
           TextSettings.google_maps_frontend_key].
      split; [reflexivity |].
      split; [destruct Ha; [contradiction | assumption] |].
      destruct (py_bool_str frontend) eqn:Ef.
      * apply py_bool_str_true in Ef. split.
        -- split; [discriminate | intros; contradiction].
        -- intros f [= <-]. split; [reflexivity |].
           destruct Hf; [contradiction | assumption].
      * split; [| discriminate]. split; [| reflexivity]. intros _.
        destruct (String.eqb_spec frontend ""); [assumption |].
        apply py_bool_str_true in n. congruence.
Qed.

(** The keys of the repository's test settings. *)
Lemma managed_keys_are_long_witness :
  exists s m,
    TextSettings.validated "test_api_key_12345678901234567890"
      "test_frontend_key_12345678901234567890" " http://localhost:3000 "
    = Some s /\
    APIKeyManager.__init__ s = Some m /\
    (20 <= String.length (APIKeyManager.get_backend_key m))%nat.
Proof.
  eexists _, _. split; [reflexivity |]. split; [reflexivity |].
  refine (proj1 (proj2 (proj2 (proj2 (proj2 (proj2
    (managed_keys_are_long "test_api_key_12345678901234567890"
       "test_frontend_key_12345678901234567890" " http://localhost:3000 ")
    _ eq_refl))) _ eq_refl))).
Defined.

(** X14.  For validated settings the masked key written to the start-up
    log is the one [mask_key] gives for the backend key, and nothing is
    written when the key is empty. *)
Theorem startup_mask_agrees (api frontend origins : string)
    (s : TextSettings.t) :
  TextSettings.validated api frontend origins = Some s ->
  lifespan_masked_key s
  = if py_bool_str api then Some (APIKeyManager.mask_key api) else None.
Proof.
  intros Hs. unfold TextSettings.validated in Hs.
  destruct (TextSettings.validate_api_key api) as [a'|] eqn:Ha;
    [| discriminate].
  destruct (TextSettings.validate_api_key frontend) as [f'|]; [| discriminate].
  apply validate_api_key_Some in Ha as [-> Ha]. injection Hs as <-.
  unfold lifespan_masked_key. cbn [TextSettings.google_maps_api_key].
  destruct (py_bool_str api) eqn:E; [| reflexivity].
  apply py_bool_str_true in E. destruct Ha as [Ha | Ha]; [contradiction |].
  unfold APIKeyManager.mask_key.
  replace (String.length api <=? 8)%nat with false; [reflexivity |].
  symmetry. apply Nat.leb_gt. lia.
Qed.

Lemma startup_mask_agrees_witness :
  lifespan_masked_key
    (TextSettings.mk "test_api_key_12345678901234567890" "" "")
  = Some (APIKeyManager.mask_key "test_api_key_12345678901234567890").
Proof.
  apply (startup_mask_agrees "test_api_key_12345678901234567890" "" "").
  reflexivity.
Defined.

(** X15.  [cors_origins] has one entry for each comma of the origins
    string plus one, so it is never empty; no entry contains a comma and
    none begins or ends with white space.  An entry is empty exactly where
    the string has a blank field, as with an empty string or a trailing
    comma. *)
Theorem cors_origins_fields (s : TextSettings.t) :
  length (TextSettings.cors_origins s)
  = S (count_char "," (TextSettings.allowed_origins s)) /\
  Forall (fun origin => occurs "," origin = false /\ stripped origin)
    (TextSettings.cors_origins s) /\
  (EmptyString ∈ TextSettings.cors_origins s <->
   exists field,
     field ∈ py_split "," (TextSettings.allowed_origins s) /\
     blank field = true).
Proof.
  unfold TextSettings.cors_origins. split; [| split].
  - rewrite length_fmap. apply py_split_length.
  - apply Forall_fmap.
    eapply Forall_impl; [apply (py_split_no_sep ",") |].
    intros field Hf. simpl. split;
      [apply occurs_py_strip; exact Hf | apply py_strip_stripped].
  - rewrite list_elem_of_fmap. split.
    + intros (field & Heq & Hin). exists field. split; [exact Hin |].
      apply py_strip_empty. symmetry. exact Heq.
    + intros (field & Hin & Hb). exists field. split; [| exact Hin].
      symmetry. apply py_strip_empty. exact Hb.
Qed.

Example cors_origins_examples :
  TextSettings.cors_origins
    (TextSettings.mk "" "" "http://localhost:3000, http://127.0.0.1:3000")
  = ["http://localhost:3000"; "http://127.0.0.1:3000"]%string /\
  TextSettings.cors_origins (TextSettings.mk "" "" "")
  = [EmptyString] /\
  TextSettings.cors_origins (TextSettings.mk "" "" "https://a.example,")
  = ["https://a.example"; EmptyString]%string.
Proof. repeat split. Qed.

(** * Further properties of the quota tracker *)

Section Quota.

Import QuotaTracker.

Lemma usage_get_increment_other (user_id other : string) (amount : Z)
    (self : t) :
  other <> user_id ->
  usage_get other (snd (increment_usage user_id amount self))
  = usage_get other self.
Proof.
  intros Hne. unfold increment_usage, usage_get. simpl.
  rewrite lookup_insert_ne by congruence. reflexivity.
Qed.

(** X16.  A run of [increment_usage(key, amount)] calls adds the amounts
    up: each call returns the usage it leaves, the final usage of the key
    is its initial usage plus the sum of the amounts, and neither the
    usage of any other key nor the daily limit changes. *)
Theorem increments_add_up (user_id : string) (amounts : list Z) (self : t) :
  let '(totals, self') := increment_each user_id amounts self in
  length totals = length amounts /\
  usage_get user_id self' = usage_get user_id self + foldr Z.add 0 amounts /\
  (forall total, last totals = Some total -> total = usage_get user_id self') /\
  daily_limit self' = daily_limit self /\
  forall other, other <> user_id ->
                usage_get other self' = usage_get other self.
Proof.
  revert self. induction amounts as [|amount rest IH]; intros self.
  - simpl. repeat split; [lia | discriminate].
  - cbn [increment_each].
    destruct (increment_usage user_id amount self) as [total s1] eqn:E1.
    specialize (IH s1).
    destruct (increment_each user_id rest s1) as [totals s2] eqn:E2.
    destruct IH as (Hlen & Hsum & Hlast & Hlimit & Hother).
    assert (Hs1 : s1 = snd (increment_usage user_id amount self))
      by (rewrite E1; reflexivity).
    assert (Htotal : total = usage_get user_id self + amount)
      by (unfold increment_usage in E1; injection E1 as <- _; reflexivity).
    assert (Hu1 : usage_get user_id s1 = usage_get user_id self + amount)
      by (rewrite Hs1; apply usage_get_increment).
    repeat split.
    + simpl. now rewrite Hlen.
    + rewrite Hsum, Hu1. simpl. lia.
    + intros t Ht. destruct totals as [|t0 totals].
      * simpl in Ht. injection Ht as <-.
        destruct rest; [| discriminate].
        simpl in E2. injection E2 as <-. congruence.
      * apply Hlast. rewrite last_cons in Ht.
        destruct (last (t0 :: totals)) eqn:El; [exact Ht |].
        apply last_None in El. discriminate.
    + rewrite Hlimit, Hs1. reflexivity.
    + intros other Hne. rewrite (Hother other Hne), Hs1.
      apply usage_get_increment_other. exact Hne.
Qed.

(** X17.  The two read operations agree: [check_quota(key)] answers [True]
    exactly when [get_remaining(key)] is positive. *)
Theorem check_quota_iff_remaining (user_id : string) (self : t) :
  fst (check_quota user_id self) = true <->
  0 < fst (get_remaining user_id self).
Proof.
  unfold check_quota, get_remaining. cbn [fst].
  rewrite Z.ltb_lt. lia.
Qed.

(** X18.  After [reset_user(key)] the tracker answers for that key as a
    tracker that has never seen it, and for every other key as before;
    after [reset_all()] it answers so for every key.  The daily limit is
    kept. *)
Theorem resets_read_as_fresh (user_id : string) (self : t) :
  quota_reads user_id (reset_user user_id self)
  = quota_reads user_id (__init__ (daily_limit self)) /\
  (forall other, other <> user_id ->
     quota_reads other (reset_user user_id self) = quota_reads other self) /\
  (forall any, quota_reads any (reset_all self)
               = quota_reads any (__init__ (daily_limit self))) /\
  daily_limit (reset_user user_id self) = daily_limit self /\
  daily_limit (reset_all self) = daily_limit self.
Proof.
  unfold quota_reads, check_quota, get_remaining, usage_get, reset_user,
    reset_all, __init__.
  cbn [fst daily_limit _usage].
  split; [| split; [| split; [| split]]]; try reflexivity.
  - rewrite lookup_insert_eq, lookup_empty. reflexivity.
  - intros other Hne. rewrite lookup_insert_ne by congruence. reflexivity.
Qed.

End Quota.

Lemma increments_add_up_witness :
  QuotaTracker.usage_get "k"
    (snd (increment_each "k" [1; 1; 5; -2] (QuotaTracker.__init__ 10)))
  = 0 + foldr Z.add 0 [1; 1; 5; -2].
Proof.
  pose proof (increments_add_up "k" [1; 1; 5; -2] (QuotaTracker.__init__ 10))
    as H.
  destruct (increment_each "k" [1; 1; 5; -2] (QuotaTracker.__init__ 10))
    as [totals self'].
  exact (proj1 (proj2 H)).
Defined.

(** * The quota gate of the maps service *)

Section MapsQuota.

Import MapsService.

Context {World Data Raw Place Details Directions Geocoded : Type}.
Variable api : Api World Data Raw Place Details Directions Geocoded.
Variable settings : SearchSettings.

Lemma _check_quota_spec (user_id : string) (self : t) :
  _check_quota user_id self = true <-> usage user_id self < limit self.
Proof.
  unfold _check_quota, QuotaTracker.check_quota, usage, limit. simpl.
  apply Z.ltb_lt.
Qed.

Lemma _increment_quota_usage (user_id other : string) (self : t) :
  usage other (_increment_quota user_id 1 self)
  = usage other self + (if decide (other = user_id) then 1 else 0).
Proof.
  unfold usage, _increment_quota. cbn [quota_tracker].
  destruct (decide (other = user_id)) as [-> | Hne].
  - apply usage_get_increment.
  - rewrite usage_get_increment_other by exact Hne. lia.
Qed.

Lemma gated_effect {Result : Type} (req : request)
    (build : Data -> option Result) (user_id : string) (self : t)
    (world : World) :
  let '(_, self', world') := gated api req build user_id self world in
  api_key self' = api_key self /\
  limit self' = limit self /\
  if _check_quota user_id self then
    world' = snd (client_get api req world) /\
    forall other,
      usage other self'
      = usage other self
        + (if decide (other = user_id)
           then charge_for (fst (client_get api req world)) else 0)
  else self' = self /\ world' = world.
Proof.
  unfold gated. destruct (_check_quota user_id self); cbn [negb].
  2:{ repeat split. }
  destruct (client_get api req world) as [r w]. cbn [fst snd].
  assert (Hfree : forall other : string,
            usage other self
            = usage other self + (if decide (other = user_id) then 0 else 0))
    by (intros; destruct (decide _); lia).
  destruct r as [code json | | message]; cbn [charge_for].
  - assert (Hinc := fun other => _increment_quota_usage user_id other self).
    destruct (negb (code =? 200)); [repeat split; auto |].
    destruct json as [data | message]; [| repeat split; auto].
    destruct (status api data) as [st|]; [| repeat split; auto].
    destruct (String.eqb st "OK"); repeat split; auto.
  - repeat split; auto.
  - repeat split; auto.
Qed.

Lemma search_places_effect (query : string) (location : option (Q * Q))
    (radius : option Z) (place_type : option string) (user_id : string)
    (self : t) (world : World) :
  let c := SearchPlaces query location radius place_type user_id in
  let '(_, self', world') :=
    search_places api settings query location radius place_type user_id self
      world in
  quota_effect api settings c self self' world world'.
Proof.
  cbv zeta. unfold search_places, search_places_resume, quota_effect.
  cbn [user_of request_of].
  destruct (_check_quota user_id self); cbn [negb].
  2:{ repeat split. }
  destruct (client_get api _ world) as [r w]. cbn [fst snd].
  assert (Hfree : forall other : string,
            usage other self
            = usage other self + (if decide (other = user_id) then 0 else 0))
    by (intros; destruct (decide _); lia).
  destruct r as [code json | | message]; cbn [charge_for].
  - assert (Hinc := fun other => _increment_quota_usage user_id other self).
    destruct (negb (code =? 200)); [repeat split; auto |].
    destruct json as [data | message]; [| repeat split; auto].
    destruct (negb _); [repeat split; auto |].
    destruct (build_places _ _); repeat split; auto.
  - repeat split; auto.
  - repeat split; auto.
Qed.

Lemma perform_effect (c : call) (self : t) (world : World) :
  let '(_, self', world') := perform api settings c self world in
  quota_effect api settings c self self' world world'.
Proof.
  destruct c as [query location radius place_type user_id
                | place_id user_id | origin destination mode user_id
                | address user_id]; cbn [perform].
  - pose proof (search_places_effect query location radius place_type
                  user_id self world) as H. cbv zeta in H.
    destruct (search_places _ _ _ _ _ _ _ _ _) as [[r s] w]. exact H.
  - unfold get_place_details.
    pose proof (gated_effect (PlaceDetailsOf place_id (api_key self))
                  (place_details api place_id) user_id self world) as H.
    destruct (gated _ _ _ _ _ _) as [[r s] w]. exact H.
  - unfold get_directions.
    pose proof (gated_effect
                  (DirectionsBetween origin destination mode (api_key self))
                  (directions_result api origin destination) user_id self
                  world) as H.
    destruct (gated _ _ _ _ _ _) as [[r s] w]. exact H.
  - unfold geocode.
    pose proof (gated_effect (GeocodeOf address (api_key self))
                  (geocode_result api) user_id self world) as H.
    destruct (gated _ _ _ _ _ _) as [[r s] w]. exact H.
Qed.

End MapsQuota.

Section MapsQuotaTheorems.

Import MapsService.

Context {World Data Raw Place Details Directions Geocoded : Type}.
Variable api : Api World Data Raw Place Details Directions Geocoded.
Variable settings : SearchSettings.

(** X19.  Each of the four service calls passes the same gate.  When the
    user's usage has reached the daily limit, nothing is sent and nothing
    changes.  Otherwise the request is sent once, and the user is charged
    one unit exactly when a response came back, whatever its status code
    and payload: not when the request timed out or raised.  No other
    user's usage changes, and the limit stays. *)
Theorem quota_gate (c : call) (self self' : t) (world world' : World)
    (a : answer) :
  perform api settings c self world = (a, self', world') ->
  api_key self' = api_key self /\ limit self' = limit self /\
  (limit self <= usage (user_of c) self -> self' = self /\ world' = world) /\
  (usage (user_of c) self < limit self ->
   let sent := client_get api (request_of settings c self) world in
   world' = snd sent /\
   usage (user_of c) self'
   = usage (user_of c) self + charge_for (fst sent) /\
   forall other, other <> user_of c -> usage other self' = usage other self).
Proof.
  intros Hrun. pose proof (perform_effect api settings c self world) as H.
  rewrite Hrun in H. destruct H as (Hkey & Hlimit & H).
  split; [exact Hkey |]. split; [exact Hlimit |].
  destruct (_check_quota (user_of c) self) eqn:E.
  - apply _check_quota_spec in E. destruct H as [Hw Hu]. split; [lia |].
    intros _. cbv zeta. split; [exact Hw |]. split.
    + rewrite Hu. destruct (decide _); [reflexivity | contradiction].
    + intros other Hne. rewrite Hu.
      destruct (decide _); [contradiction | lia].
  - split; [intros _; exact H |]. intros Hlt.
    apply _check_quota_spec in Hlt. congruence.
Qed.

Lemma perform_all_usage (cs : list call) :
  forall (self : t) (world : World) (user : string),
    let '(_, self', _) := perform_all api settings cs self world in
    limit self' = limit self /\
    usage user self <= usage user self' /\
    usage user self' <= Z.max (usage user self) (limit self).
Proof.
  induction cs as [|c cs IH]; intros self world user.
  - simpl. lia.
  - cbn [perform_all].
    pose proof (perform_effect api settings c self world) as H.
    destruct (perform api settings c self world) as [[a s1] w1].
    specialize (IH s1 w1 user).
    destruct (perform_all api settings cs s1 w1) as [[answers s2] w2].
    destruct H as (_ & Hlimit & H). destruct IH as (IHl & IH1 & IH2).
    assert (Hstep : usage user self <= usage user s1 /\
                    usage user s1 <= Z.max (usage user self) (limit self)).
    { destruct (_check_quota (user_of c) self) eqn:E.
      - apply _check_quota_spec in E. destruct H as [_ Hu]. rewrite Hu.
        destruct (decide (user = user_of c)) as [-> |]; [| lia].
        destruct (fst _); cbn [charge_for]; lia.
      - destruct H as [-> _]. lia. }
    rewrite Hlimit in *. lia.
Qed.

(** X20.  Over any sequence of service calls made one after another (each
    one finished before the next starts) the usage of a user never goes
    down and never passes the larger of its initial value and the daily
    limit: a service that starts within its limit stays within it, for
    every user. *)
Theorem usage_stays_within_limit (cs : list call) (self self' : t)
    (world world' : World) (answers : list answer) (user : string) :
  perform_all api settings cs self world = (answers, self', world') ->
  limit self' = limit self /\
  usage user self <= usage user self' /\
  usage user self' <= Z.max (usage user self) (limit self).
Proof.
  intros Hrun. pose proof (perform_all_usage cs self world user) as H.
  rewrite Hrun in H. exact H.
Qed.

Lemma length_py_upto {A : Type} (n : Z) (items : list A) :
  0 <= n -> (length (py_upto n items) <= Z.to_nat n)%nat.
Proof.
  intros Hn. unfold py_upto. destruct (Z.ltb_spec n 0); [lia |].
  rewrite length_take. lia.
Qed.

Lemma length_build_places (raws : list Raw) (places : list Place) :
  build_places api raws = inl places -> length places = length raws.
Proof.
  revert places. induction raws as [|raw rest IH]; intros places; simpl.
  - intros [= <-]. reflexivity.
  - destruct (place_result api raw) as [p|]; [| discriminate].
    destruct (build_places api rest) as [ps|]; [| discriminate].
    intros [= <-]. simpl. now rewrite (IH ps eq_refl).
Qed.

(** X21.  Take [search_places] at the moment its request comes back,
    whatever other calls did to the service while it waited.  A search
    that succeeds has charged its user one unit, reports no error and
    reports as [quota_remaining] the daily limit minus the usage it
    leaves, or 0 when that is negative; with a non-negative
    [max_search_results] it returns at most that many places.  When the
    user was still below the limit as the call resumed, which is so when
    no other call intervened, the usage left is within the limit and
    [quota_remaining] is the exact difference.  A search that fails
    returns no place. *)
Theorem search_success_reports (user_id : string) (came_back : reply Data)
    (resumed self' : t) (r : SearchResponse Place) :
  search_places_resume api settings user_id came_back resumed = (r, self') ->
  (success r = false -> places r = []) /\
  (success r = true ->
   error r = None /\
   limit self' = limit resumed /\
   usage user_id self' = usage user_id resumed + 1 /\
   quota_remaining r
   = Some (Z.max 0 (limit resumed - usage user_id self')) /\
   (usage user_id resumed < limit resumed ->
    usage user_id self' <= limit resumed /\
    quota_remaining r = Some (limit resumed - usage user_id self')) /\
   (0 <= max_search_results settings ->
    Z.of_nat (length (places r)) <= max_search_results settings)).
Proof.
  unfold search_places_resume.
  destruct came_back as [code json | | message];
    try (intros [= <- <-]; cbn [failure success places];
         split; [auto | discriminate]).
  cbv zeta.
  pose proof (_increment_quota_usage user_id user_id resumed) as Hu.
  assert (Hl : limit (_increment_quota user_id 1 resumed) = limit resumed)
    by reflexivity.
  set (charged := _increment_quota user_id 1 resumed) in *.
  destruct (negb (code =? 200));
    [intros [= <- <-]; cbn [failure success places];
     split; [auto | discriminate] |].
  destruct json as [data | message];
    [| intros [= <- <-]; cbn [failure success places];
       split; [auto | discriminate]].
  destruct (negb _);
    [intros [= <- <-]; cbn [failure success places];
     split; [auto | discriminate] |].
  destruct (build_places _ _) as [ps | message] eqn:Hb;
    [| intros [= <- <-]; cbn [failure success places];
       split; [auto | discriminate]].
  intros [= <- <-]. cbn [success places error quota_remaining].
  split; [discriminate |]. intros _.
  destruct (decide (user_id = user_id)); [| contradiction].
  split; [reflexivity |]. split; [exact Hl |]. split; [exact Hu |].
  split; [| split].
  - change (Some (Z.max 0 (limit charged - usage user_id charged))
            = Some (Z.max 0 (limit resumed - usage user_id charged))).
    now rewrite Hl.
  - intros Hopen. split; [lia |].
    change (Some (Z.max 0 (limit charged - usage user_id charged))
            = Some (limit resumed - usage user_id charged)).
    rewrite Hl. f_equal. lia.
  - intros Hmax. rewrite (length_build_places _ _ Hb).
    pose proof (length_py_upto (max_search_results settings)
                  (results api data) Hmax). lia.
Qed.

End MapsQuotaTheorems.

(** A user with a daily limit of 2 makes four calls: the first two reach
    the maps API, the last two do not. *)
Lemma quota_gate_witness :
  exists a s1 w1 a2 s2 w2,
    MapsService.perform counting_api two_results
      (MapsService.Geocode "Malioboro" "u") small_service 0%nat = (a, s1, w1) /\
    MapsService.usage "u" s1 = 1 /\ w1 = 1%nat /\
    MapsService.perform_all counting_api two_results
      [MapsService.GetPlaceDetails "ChIJ0123456789" "u";
       MapsService.Geocode "Tugu" "u";
       MapsService.SearchPlaces "gudeg" None None None "u"] s1 w1
    = (a2, s2, w2) /\
    MapsService.usage "u" s2 = 2 /\ w2 = 2%nat.
Proof.
  destruct (MapsService.perform counting_api two_results
              (MapsService.Geocode "Malioboro" "u") small_service 0%nat)
    as [[a s1] w1] eqn:H1.
  destruct (quota_gate counting_api two_results _ _ _ _ _ _ H1)
    as (_ & _ & _ & Hopen).
  destruct Hopen as (Hw & Hu & _); [vm_compute; reflexivity |].
  eexists a, s1, w1, _, _, _. split; [reflexivity |].
  split; [etransitivity; [exact Hu | reflexivity] |]. split; [exact Hw |].
  vm_compute in H1. injection H1 as _ <- <-.
  split; [vm_compute; reflexivity |]. split; reflexivity.
Defined.

Lemma usage_stays_within_limit_witness :
  exists answers self' world',
    MapsService.perform_all counting_api two_results
      [MapsService.Geocode "Malioboro" "u";
       MapsService.Geocode "Tugu" "u";
       MapsService.Geocode "Prambanan" "u";
       MapsService.SearchPlaces "gudeg" None None None "v"] small_service 0%nat
    = (answers, self', world') /\
    MapsService.usage "u" self' <= 2.
Proof.
  destruct (MapsService.perform_all counting_api two_results _ small_service
              0%nat) as [[answers self'] world'] eqn:Hrun.
  exists answers, self', world'. split; [reflexivity |].
  destruct (usage_stays_within_limit counting_api two_results _ _ _ _ _ _ "u"
              Hrun) as (_ & _ & H).
  exact H.
Defined.

(** A search of a user whose usage reached the limit of 2 while the
    request was awaited: the search succeeds, leaves the usage at 3 and
    reports 0 as the remaining quota. *)
Lemma search_success_reports_witness :
  exists r self',
    MapsService.search_places_resume counting_api two_results "u"
      (MapsService.Responded 200 (inl tt))
      (MapsService._increment_quota "u" 2 small_service) = (r, self') /\
    MapsService.success r = true /\
    MapsService.usage "u" self' = 3 /\
    MapsService.quota_remaining r = Some 0 /\
    Z.of_nat (length (MapsService.places r)) <= 2.
Proof.
  destruct (MapsService.search_places_resume counting_api two_results "u"
              (MapsService.Responded 200 (inl tt))
              (MapsService._increment_quota "u" 2 small_service))
    as [r self'] eqn:Hrun.
  destruct (search_success_reports counting_api two_results _ _ _ _ _ Hrun)
    as [_ Hok].
  assert (Hs : MapsService.success r = true)
    by (vm_compute in Hrun; injection Hrun as <- _; reflexivity).
  destruct (Hok Hs) as (_ & _ & Hu & Hrem & _ & Hlen).
  exists r, self'. split; [reflexivity |]. split; [exact Hs |].
  split; [exact Hu |]. split; [| apply Hlen; simpl; lia].
  rewrite Hrem, Hu. reflexivity.
Defined.

(** * The core on IEEE-754 doubles *)

(** ** Powers of two and binary logarithms *)


Lemma pow2_pos (e : Z) : (0 < pow2 e)%Q.
Proof. apply Qpower_0_lt. reflexivity. Qed.

Lemma pow2_add (a b : Z) : (pow2 (a + b) == pow2 a * pow2 b)%Q.
Proof. apply Qpower_plus. discriminate. Qed.

Lemma pow2_le (a b : Z) : a <= b -> (pow2 a <= pow2 b)%Q.
Proof. intros H. apply Qpower_le_compat_l; [exact H | discriminate]. Qed.

Lemma pow2_lt (a b : Z) : a < b -> (pow2 a < pow2 b)%Q.
Proof. intros H. apply Qpower_lt_compat_l; [exact H | reflexivity]. Qed.

Lemma pow2_lt_inv (a b : Z) : (pow2 a < pow2 b)%Q -> a < b.
Proof. intros H. apply (Qpower_lt_compat_l_inv 2); [exact H | reflexivity]. Qed.

Lemma pow2_Z (k : Z) : 0 <= k -> (pow2 k == inject_Z (2 ^ k))%Q.
Proof. intros H. unfold pow2. now rewrite Zpower_Qpower. Qed.

Lemma pow2_sub (a b : Z) : (pow2 (a - b) == pow2 a / pow2 b)%Q.
Proof.
  assert (H := pow2_add (a - b) b). replace (a - b + b) with a in H by ring.
  pose proof (pow2_pos b). rewrite H. field. lra.
Qed.

(** Division by a power of two moves the exponent. *)
Lemma pow2_div_le (q : Q) (a b : Z) :
  (q <= pow2 a)%Q -> (q / pow2 b <= pow2 (a - b))%Q.
Proof.
  intros H. rewrite pow2_sub. pose proof (pow2_pos b).
  apply Qmult_le_compat_r; [exact H |]. apply Qlt_le_weak, Qinv_lt_0_compat.
  assumption.
Qed.

Lemma pow2_le_div (q : Q) (a b : Z) :
  (pow2 a <= q)%Q -> (pow2 (a - b) <= q / pow2 b)%Q.
Proof.
  intros H. rewrite pow2_sub. pose proof (pow2_pos b).
  apply Qmult_le_compat_r; [exact H |]. apply Qlt_le_weak, Qinv_lt_0_compat.
  assumption.
Qed.

Lemma ilog2_spec (q : Q) :
  (0 < q)%Q -> (pow2 (ilog2 q) <= q)%Q /\ (q < pow2 (ilog2 q + 1))%Q.
Proof.
  intros Hq. destruct q as [n d]. unfold ilog2. cbn [Qnum Qden].
  assert (Hn : 0 < n) by (unfold Qlt in Hq; simpl in Hq; lia).
  set (a := Z.log2 n). set (b := Z.log2 (Z.pos d)).
  destruct (Z.log2_spec n Hn) as [Ha1 Ha2]. fold a in Ha1, Ha2.
  destruct (Z.log2_spec (Z.pos d) (Pos2Z.is_pos d)) as [Hb1 Hb2].
  fold b in Hb1, Hb2.
  assert (Ha0 : 0 <= a) by apply Z.log2_nonneg.
  assert (Hb0 : 0 <= b) by apply Z.log2_nonneg.
  assert (Hnd : (n # d == inject_Z n / inject_Z (Z.pos d))%Q)
    by (rewrite (Qmake_Qdiv n d); reflexivity).
  assert (Hdq : (0 < inject_Z (Z.pos d))%Q) by reflexivity.
  assert (Hup : (n # d < pow2 (a - b + 1))%Q).
  { rewrite Hnd. apply Qlt_shift_div_r; [exact Hdq |].
    replace (a - b + 1) with ((a + 1) - b) by ring. rewrite pow2_sub.
    rewrite (pow2_Z (a + 1)), (pow2_Z b) by lia.
    assert (H1 : (inject_Z n < inject_Z (2 ^ (a + 1)))%Q)
      by (rewrite <- Zlt_Qlt; replace (a + 1) with (Z.succ a) by ring; lia).
    assert (H2 : (inject_Z (2 ^ b) <= inject_Z (Z.pos d))%Q)
      by (rewrite <- Zle_Qle; lia).
    assert (H3 : (0 < inject_Z (2 ^ b))%Q).
    { rewrite <- (pow2_Z b) by lia. apply pow2_pos. }
    assert (H4 : (0 < inject_Z (2 ^ (a + 1)))%Q).
    { rewrite <- (pow2_Z (a + 1)) by lia. apply pow2_pos. }
    apply Qlt_le_trans with (inject_Z (2 ^ (a + 1))); [exact H1 |].
    assert (Heq : (inject_Z (2 ^ (a + 1)) / inject_Z (2 ^ b)
                     * inject_Z (Z.pos d)
                   == inject_Z (2 ^ (a + 1))
                      * (inject_Z (Z.pos d) / inject_Z (2 ^ b)))%Q)
      by (field; lra).
    rewrite Heq.
    rewrite <- (Qmult_1_r (inject_Z (2 ^ (a + 1)))) at 1.
    apply Qmult_le_l; [exact H4 |].
    apply Qle_shift_div_l; [exact H3 | lra]. }
  assert (Hlow : (pow2 (a - b - 1) <= n # d)%Q).
  { rewrite Hnd. apply Qle_shift_div_l; [exact Hdq |].
    replace (a - b - 1) with (a - (b + 1)) by ring. rewrite pow2_sub.
    rewrite (pow2_Z a), (pow2_Z (b + 1)) by lia.
    assert (H1 : (inject_Z (2 ^ a) <= inject_Z n)%Q)
      by (rewrite <- Zle_Qle; lia).
    assert (H2 : (inject_Z (Z.pos d) <= inject_Z (2 ^ (b + 1)))%Q)
      by (rewrite <- Zle_Qle; replace (b + 1) with (Z.succ b) by ring; lia).
    assert (H3 : (0 < inject_Z (2 ^ (b + 1)))%Q).
    { rewrite <- (pow2_Z (b + 1)) by lia. apply pow2_pos. }
    assert (H4 : (0 < inject_Z (2 ^ a))%Q).
    { rewrite <- (pow2_Z a) by lia. apply pow2_pos. }
    apply Qle_trans with (inject_Z (2 ^ a)); [| exact H1].
    assert (Heq : (inject_Z (2 ^ a) / inject_Z (2 ^ (b + 1))
                     * inject_Z (Z.pos d)
                   == inject_Z (2 ^ a)
                      * (inject_Z (Z.pos d) / inject_Z (2 ^ (b + 1))))%Q)
      by (field; lra).
    rewrite Heq.
    rewrite <- (Qmult_1_r (inject_Z (2 ^ a))) at 2.
    apply Qmult_le_l; [exact H4 |].
    apply Qle_shift_div_r; [exact H3 | lra]. }
  destruct (Qle_bool (pow2 (a - b)) (n # d)) eqn:E.
  - apply Qle_bool_iff in E. split; assumption.
  - split; [exact Hlow |]. replace (a - b - 1 + 1) with (a - b) by ring.
    apply Qnot_le_lt. intros H. apply Qle_bool_iff in H. congruence.
Qed.

Lemma ilog2_unique (q : Q) (e : Z) :
  (pow2 e <= q)%Q -> (q < pow2 (e + 1))%Q -> ilog2 q = e.
Proof.
  intros H1 H2. assert (Hq : (0 < q)%Q).
  { apply Qlt_le_trans with (pow2 e); [apply pow2_pos | exact H1]. }
  destruct (ilog2_spec q Hq) as [H3 H4].
  assert (ilog2 q < e + 1).
  { apply pow2_lt_inv. apply Qle_lt_trans with q; assumption. }
  assert (e < ilog2 q + 1).
  { apply pow2_lt_inv. apply Qle_lt_trans with q; assumption. }
  lia.
Qed.

Lemma ilog2_le (q1 q2 : Q) :
  (0 < q1)%Q -> (q1 <= q2)%Q -> ilog2 q1 <= ilog2 q2.
Proof.
  intros H1 H12. assert (H2 : (0 < q2)%Q) by lra.
  destruct (ilog2_spec q1 H1) as [Ha _]. destruct (ilog2_spec q2 H2) as [_ Hb].
  assert (ilog2 q1 < ilog2 q2 + 1); [| lia].
  apply pow2_lt_inv. lra.
Qed.

(** *** Rounding to an integer *)

Lemma rne_bounds (s : Q) : Qfloor s <= rne s <= Qfloor s + 1.
Proof.
  unfold rne. destruct (_ ?= _)%Q; [destruct (Z.even _) | |]; lia.
Qed.

Lemma rne_comp (s t : Q) : (s == t)%Q -> rne s = rne t.
Proof.
  intros H. unfold rne. rewrite (Qfloor_comp _ _ H).
  assert (H' : (s - inject_Z (Qfloor t) == t - inject_Z (Qfloor t))%Q)
    by (rewrite H; reflexivity).
  now rewrite (Qcompare_comp _ _ H' (1 # 2) (1 # 2) (Qeq_refl _)).
Qed.

Lemma rne_Z (z : Z) : rne (inject_Z z) = z.
Proof.
  unfold rne. rewrite Qfloor_Z.
  assert (H : (inject_Z z - inject_Z z ?= 1 # 2)%Q = Lt).
  { apply (proj1 (Qlt_alt _ _)). generalize (inject_Z z). intros x. lra. }
  now rewrite H.
Qed.

Lemma rne_error (s : Q) :
  (s - (1 # 2) <= inject_Z (rne s))%Q /\ (inject_Z (rne s) <= s + (1 # 2))%Q.
Proof.
  unfold rne. pose proof (Qfloor_le s) as Hl. pose proof (Qlt_floor s) as Hu.
  rewrite inject_Z_plus in Hu. change (inject_Z 1) with 1%Q in Hu.
  destruct (Qcompare_spec (s - inject_Z (Qfloor s)) (1 # 2)) as [H | H | H].
  - destruct (Z.even _); [| rewrite inject_Z_plus; change (inject_Z 1) with 1%Q];
      split; lra.
  - split; lra.
  - rewrite inject_Z_plus. change (inject_Z 1) with 1%Q. split; lra.
Qed.

Lemma rne_le (s t : Q) : (s <= t)%Q -> rne s <= rne t.
Proof.
  intros H. pose proof (Qfloor_resp_le _ _ H) as Hf.
  pose proof (rne_bounds s) as Hbs. pose proof (rne_bounds t) as Hbt.
  destruct (Z.eq_dec (Qfloor s) (Qfloor t)) as [E | E]; [| lia].
  unfold rne. rewrite E.
  destruct (Qcompare_spec (s - inject_Z (Qfloor t)) (1 # 2)) as [H1 | H1 | H1];
    destruct (Qcompare_spec (t - inject_Z (Qfloor t)) (1 # 2)) as [H2 | H2 | H2];
    try destruct (Z.even _); try lia; exfalso; lra.
Qed.

Lemma rne_nonneg (s : Q) : (0 <= s)%Q -> 0 <= rne s.
Proof.
  intros H. apply rne_le in H. change 0%Q with (inject_Z 0) in H.
  now rewrite rne_Z in H.
Qed.

(** *** Rounding to 53 bits *)

Lemma ulp_exponent_low (q : Q) : -1074 <= ulp_exponent q.
Proof. unfold ulp_exponent. lia. Qed.

Lemma ulp_exponent_le (q1 q2 : Q) :
  (0 < q1)%Q -> (q1 <= q2)%Q -> ulp_exponent q1 <= ulp_exponent q2.
Proof.
  intros H1 H2. pose proof (ilog2_le q1 q2 H1 H2). unfold ulp_exponent. lia.
Qed.

Lemma rounded_nonneg (q : Q) : (0 < q)%Q -> (0 <= rounded q)%Q.
Proof.
  intros Hq. unfold rounded. pose proof (pow2_pos (ulp_exponent q)) as Hp.
  apply Qmult_le_0_compat; [| lra].
  change 0%Q with (inject_Z 0). rewrite <- Zle_Qle. apply rne_nonneg.
  apply Qle_shift_div_l; [exact Hp | lra].
Qed.

(** The scaled value lies below 2^53. *)
Lemma scaled_below (q : Q) :
  (0 < q)%Q -> (q / pow2 (ulp_exponent q) < pow2 53)%Q.
Proof.
  intros Hq. destruct (ilog2_spec q Hq) as [_ Hu].
  pose proof (pow2_pos (ulp_exponent q)) as Hp.
  apply Qlt_shift_div_r; [exact Hp |]. rewrite <- pow2_add.
  apply Qlt_le_trans with (pow2 (ilog2 q + 1)); [exact Hu |].
  apply pow2_le. unfold ulp_exponent. lia.
Qed.

Lemma rounded_le (q1 q2 : Q) :
  (0 < q1)%Q -> (q1 <= q2)%Q -> (rounded q1 <= rounded q2)%Q.
Proof.
  intros H1 H12. assert (H2 : (0 < q2)%Q) by lra.
  pose proof (ulp_exponent_le q1 q2 H1 H12) as Hex.
  unfold rounded. set (x1 := ulp_exponent q1) in *.
  set (x2 := ulp_exponent q2) in *.
  pose proof (pow2_pos x1) as Hp1. pose proof (pow2_pos x2) as Hp2.
  destruct (Z.eq_dec x1 x2) as [E | E].
  - rewrite E. apply Qmult_le_compat_r; [| lra]. rewrite <- Zle_Qle.
    apply rne_le. apply Qmult_le_compat_r; [exact H12 |].
    apply Qlt_le_weak, Qinv_lt_0_compat. exact Hp2.
  - assert (Hlt : x1 < x2) by lia.
    assert (Hx2 : x2 = ilog2 q2 - 52)
      by (unfold x1, x2, ulp_exponent in *; lia).
    assert (He : ilog2 q1 + 1 <= ilog2 q2)
      by (unfold x1, x2, ulp_exponent in *; lia).
    destruct (ilog2_spec q1 H1) as [_ Hu1].
    destruct (ilog2_spec q2 H2) as [Hl2 _].
    set (e2 := ilog2 q2) in *.
    apply Qle_trans with (pow2 e2).
    + (* the smaller value rounds to at most 2^e2 *)
      assert (Hs : (q1 / pow2 x1 <= inject_Z (2 ^ (e2 - x1)))%Q).
      { rewrite <- pow2_Z by lia. apply pow2_div_le.
        apply Qle_trans with (pow2 (ilog2 q1 + 1)); [lra |].
        apply pow2_le. exact He. }
      apply rne_le in Hs. rewrite rne_Z in Hs.
      apply Qle_trans with (inject_Z (2 ^ (e2 - x1)) * pow2 x1)%Q.
      * apply Qmult_le_compat_r; [| lra]. rewrite <- Zle_Qle. exact Hs.
      * rewrite <- pow2_Z by lia. rewrite <- pow2_add.
        replace (e2 - x1 + x1) with e2 by ring. apply Qle_refl.
    + (* the larger value rounds to at least 2^e2 *)
      assert (Hs : (inject_Z (2 ^ 52) <= q2 / pow2 x2)%Q).
      { rewrite <- pow2_Z by lia. replace 52 with (e2 - x2) by lia.
        apply pow2_le_div. exact Hl2. }
      apply rne_le in Hs. rewrite rne_Z in Hs.
      apply Qle_trans with (inject_Z (2 ^ 52) * pow2 x2)%Q.
      * rewrite <- pow2_Z by lia. rewrite <- pow2_add.
        replace (52 + x2) with e2 by lia. apply Qle_refl.
      * apply Qmult_le_compat_r; [| lra]. rewrite <- Zle_Qle. exact Hs.
Qed.

(** A value with at most 53 significant bits above 2^-1074 is not
    changed. *)
Lemma rounded_exact (q : Q) (m e : Z) :
  0 < m <= 2 ^ 53 -> -1074 <= e -> (q == inject_Z m * pow2 e)%Q ->
  (rounded q == q)%Q.
Proof.
  intros Hm He Hq. pose proof (pow2_pos e) as Hpe.
  assert (Hq0 : (0 < q)%Q).
  { rewrite Hq. apply Qmult_lt_0_compat; [| exact Hpe].
    change 0%Q with (inject_Z 0). rewrite <- Zlt_Qlt. lia. }
  destruct (ilog2_spec q Hq0) as [Hl Hu].
  set (x := ulp_exponent q). pose proof (pow2_pos x) as Hpx.
  (* the scaled value is an integer *)
  assert (Hint : exists z : Z, (q / pow2 x == inject_Z z)%Q).
  { destruct (Z.le_gt_cases x e) as [Hxe | Hxe].
    - exists (m * 2 ^ (e - x)). rewrite inject_Z_mult, <- pow2_Z by lia.
      rewrite Hq, pow2_sub. field. lra.
    - (* then the value is 2^(e+53) *)
      assert (Hbig : e + 53 <= ilog2 q) by (unfold x, ulp_exponent in Hxe; lia).
      assert (Hm53 : m = 2 ^ 53).
      { assert (Hle : (pow2 (e + 53) <= inject_Z m * pow2 e)%Q).
        { rewrite <- Hq. apply Qle_trans with (pow2 (ilog2 q)); [| exact Hl].
          apply pow2_le. exact Hbig. }
        rewrite (Z.add_comm e 53), pow2_add in Hle.
        apply Qmult_le_r in Hle; [| exact Hpe].
        rewrite pow2_Z in Hle by lia. rewrite <- Zle_Qle in Hle. lia. }
      assert (Hq' : (q == pow2 (e + 53))%Q).
      { rewrite Hq, Hm53, <- pow2_Z by lia. rewrite <- pow2_add.
        now rewrite Z.add_comm. }
      assert (Hlog : ilog2 q = e + 53).
      { apply ilog2_unique; [rewrite Hq'; apply Qle_refl |].
        rewrite Hq'. apply pow2_lt. lia. }
      assert (Hx : x = e + 1) by (unfold x, ulp_exponent; lia).
      exists (2 ^ 52). rewrite <- pow2_Z by lia. rewrite Hq', Hx.
      rewrite <- pow2_sub. replace (e + 53 - (e + 1)) with 52 by ring.
      reflexivity. }
  destruct Hint as [z Hz]. unfold rounded. fold x.
  rewrite (rne_comp _ _ Hz), rne_Z, <- Hz. field. lra.
Qed.

(** The rounding error is at most half a unit in the last place. *)
Lemma rounded_error (q : Q) :
  (0 < q)%Q ->
  (q - pow2 (ulp_exponent q - 1) <= rounded q)%Q /\
  (rounded q <= q + pow2 (ulp_exponent q - 1))%Q.
Proof.
  intros Hq. set (x := ulp_exponent q). pose proof (pow2_pos x) as Hpx.
  destruct (rne_error (q / pow2 x)) as [Hl Hu].
  assert (Hhalf : (pow2 (x - 1) == (1 # 2) * pow2 x)%Q).
  { rewrite pow2_sub. change (pow2 1) with 2%Q. field. }
  unfold rounded. fold x. rewrite Hhalf.
  assert (Hqx : (q == q / pow2 x * pow2 x)%Q) by (field; lra).
  split.
  - apply (Qmult_le_compat_r _ _ (pow2 x)) in Hl; [| lra].
    rewrite Hqx at 1. lra.
  - apply (Qmult_le_compat_r _ _ (pow2 x)) in Hu; [| lra].
    rewrite Hqx at 2. lra.
Qed.

(** *** Rounding to a double *)

(** Some roundings: 0.1, 1.15 and 1/3; a tie, which goes to the even
    mantissa; the smallest double and the half of it, which rounds to 0;
    the largest double and the first value that overflows. *)
Lemma round64_examples :
  round64 (1 # 10) = Fin (3602879701896397 # 36028797018963968) /\
  round64 (115 # 100) = Fin (2589569785738035 # 2251799813685248) /\
  round64 (1 # 3) = Fin (6004799503160661 # 18014398509481984) /\
  round64 (inject_Z (2 ^ 53 + 1)) = Fin (inject_Z (2 ^ 53)) /\
  round64 (inject_Z (2 ^ 53 + 3)) = Fin (inject_Z (2 ^ 53 + 4)) /\
  round64 (pow2 (-1074)) = Fin (Qred (pow2 (-1074))) /\
  round64 (pow2 (-1075)) = Fin 0 /\
  round64 max_double = Fin (Qred max_double) /\
  round64 (inject_Z (2 ^ 1024 - 2 ^ 970)) = Inf false /\
  round64 (- (1 # 10)) = Fin (- (3602879701896397 # 36028797018963968)).
Proof. repeat split; vm_compute; reflexivity. Qed.

Lemma ilog2_comp (q1 q2 : Q) : (0 < q1)%Q -> (q1 == q2)%Q -> ilog2 q1 = ilog2 q2.
Proof.
  intros H1 E. destruct (ilog2_spec q1 H1) as [Hl Hu].
  symmetry. apply ilog2_unique; rewrite <- E; assumption.
Qed.

Lemma rounded_comp (q1 q2 : Q) :
  (0 < q1)%Q -> (q1 == q2)%Q -> (rounded q1 == rounded q2)%Q.
Proof.
  intros H1 E. unfold rounded, ulp_exponent.
  rewrite <- (ilog2_comp q1 q2 H1 E).
  set (x := Z.max _ _).
  assert (Hs : (q1 / pow2 x == q2 / pow2 x)%Q) by (rewrite E; reflexivity).
  rewrite (rne_comp _ _ Hs). reflexivity.
Qed.

Lemma round64_comp (q1 q2 : Q) : (q1 == q2)%Q -> round64 q1 = round64 q2.
Proof.
  intros E. unfold round64.
  rewrite (Qcompare_comp _ _ E 0%Q 0%Q (Qeq_refl 0%Q)).
  assert (Hpos : forall a b, (0 < a)%Q -> (a == b)%Q -> round_pos a = round_pos b).
  { intros a b Ha Hab. unfold round_pos.
    pose proof (rounded_comp a b Ha Hab) as Hr.
    assert (Hb : Qle_bool (pow2 1024) (rounded a)
                 = Qle_bool (pow2 1024) (rounded b)).
    { destruct (Qle_bool (pow2 1024) (rounded a)) eqn:E1;
        destruct (Qle_bool (pow2 1024) (rounded b)) eqn:E2; try reflexivity.
      - apply Qle_bool_iff in E1. rewrite Hr in E1.
        apply Qle_bool_iff in E1. congruence.
      - apply Qle_bool_iff in E2. rewrite <- Hr in E2.
        apply Qle_bool_iff in E2. congruence. }
    rewrite Hb. clear Hb.
    destruct (Qle_bool (pow2 1024) (rounded b)); [reflexivity |].
    f_equal. apply Qred_complete. exact Hr. }
  destruct (Qcompare_spec q2 0) as [H | H | H].
  - reflexivity.
  - f_equal. apply Hpos; [rewrite E; lra | rewrite E; reflexivity].
  - apply Hpos; [rewrite E; lra | exact E].
Qed.

Lemma round64_pos (q : Q) : (0 < q)%Q -> round64 q = round_pos q.
Proof.
  intros H. unfold round64.
  now rewrite (proj1 (Qgt_alt q 0%Q) H).
Qed.

Lemma round64_0 (q : Q) : (q == 0)%Q -> round64 q = Fin 0.
Proof.
  intros H. unfold round64. now rewrite (proj1 (Qeq_alt q 0%Q) H).
Qed.

(** The scaled value rounds to at most 2^53. *)
Lemma rne_scaled_le (q : Q) :
  (0 < q)%Q -> 0 <= rne (q / pow2 (ulp_exponent q)) <= 2 ^ 53.
Proof.
  intros Hq. pose proof (pow2_pos (ulp_exponent q)) as Hp. split.
  - apply rne_nonneg. apply Qle_shift_div_l; [exact Hp | lra].
  - pose proof (scaled_below q Hq) as H. rewrite (pow2_Z 53) in H by lia.
    apply Qlt_le_weak, rne_le in H. now rewrite rne_Z in H.
Qed.

(** A rounded value below 2^1024 is at most the largest double. *)
Lemma rounded_below_max (q : Q) :
  (0 < q)%Q -> (rounded q < pow2 1024)%Q -> (rounded q <= max_double)%Q.
Proof.
  intros Hq Hlt. unfold rounded in *. set (x := ulp_exponent q) in *.
  pose proof (rne_scaled_le q Hq) as [Hm0 Hm]. fold x in Hm0, Hm.
  set (m := rne (q / pow2 x)) in *. pose proof (pow2_pos x) as Hpx.
  unfold max_double.
  destruct (Z.le_gt_cases x 970) as [Hx | Hx].
  - apply Qle_trans with (inject_Z (2 ^ 53) * pow2 970)%Q.
    + apply Qle_trans with (inject_Z (2 ^ 53) * pow2 x)%Q.
      * apply Qmult_le_compat_r; [rewrite <- Zle_Qle; exact Hm | lra].
      * apply Qmult_le_l; [reflexivity | apply pow2_le; exact Hx].
    + vm_compute. discriminate.
  - destruct (Z.le_gt_cases x 1024) as [Hx' | Hx'].
    + assert (Hmz : m < 2 ^ (1024 - x)).
      { rewrite Zlt_Qlt. rewrite <- pow2_Z by lia.
        apply Qmult_lt_r with (pow2 x); [exact Hpx |].
        rewrite <- pow2_add. replace (1024 - x + x) with 1024 by ring.
        exact Hlt. }
      apply Qle_trans with (inject_Z (2 ^ (1024 - x) - 1) * pow2 x)%Q.
      * apply Qmult_le_compat_r; [rewrite <- Zle_Qle; lia | lra].
      * unfold Z.sub at 1. rewrite inject_Z_plus, <- pow2_Z by lia.
        change (inject_Z (- (1))) with (- (1))%Q.
        assert (H1 : ((pow2 (1024 - x) + - (1)) * pow2 x
                      == pow2 1024 - pow2 x)%Q).
        { assert (H := pow2_add (1024 - x) x).
          replace (1024 - x + x) with 1024 in H by ring. rewrite H. ring. }
        rewrite H1.
        assert (H2 : (inject_Z (2 ^ 53 - 1) * pow2 971
                      == pow2 1024 - pow2 971)%Q) by (vm_compute; reflexivity).
        rewrite H2. pose proof (pow2_le 971 x ltac:(lia)). lra.
    + (* the exponent is so large that the mantissa is 0 *)
      assert (Hm1 : m < 1).
      { rewrite Zlt_Qlt. apply Qmult_lt_r with (pow2 x); [exact Hpx |].
        apply Qlt_le_trans with (pow2 1024); [exact Hlt |].
        rewrite Qmult_1_l. apply pow2_le. lia. }
      assert (m = 0) by lia. subst m. replace (rne (q / pow2 x)) with 0 by lia.
      vm_compute. discriminate.
Qed.

Lemma round_pos_cases (q : Q) :
  (0 < q)%Q ->
  (round_pos q = Inf false /\ (pow2 1024 <= rounded q)%Q) \/
  (exists v, round_pos q = Fin v /\ (v == rounded q)%Q /\
             (0 <= v)%Q /\ (v <= max_double)%Q).
Proof.
  intros Hq. unfold round_pos. destruct (Qle_bool _ _) eqn:E.
  - left. split; [reflexivity | now apply Qle_bool_iff].
  - right. exists (Qred (rounded q)). split; [reflexivity |].
    pose proof (Qred_correct (rounded q)) as Hr. split; [exact Hr |].
    rewrite Hr. split; [apply rounded_nonneg; exact Hq |].
    apply rounded_below_max; [exact Hq |]. apply Qnot_le_lt. intros H.
    apply Qle_bool_iff in H. congruence.
Qed.

(** A non-negative value rounds to a non-negative double or overflows. *)
Lemma round64_nonneg (q : Q) :
  (0 <= q)%Q ->
  round64 q = Inf false \/
  exists v, round64 q = Fin v /\ (0 <= v)%Q /\ (v <= max_double)%Q.
Proof.
  intros Hq. destruct (Qle_lt_or_eq _ _ Hq) as [H | H].
  - rewrite (round64_pos q H).
    destruct (round_pos_cases q H) as [[-> _] | (v & -> & _ & H0 & H1)];
      [left; reflexivity | right; eauto].
  - right. exists 0%Q. rewrite round64_0 by (symmetry; exact H).
    split; [reflexivity |]. split; [apply Qle_refl |]. vm_compute. discriminate.
Qed.

(** Rounding is monotone. *)
Lemma round64_le (q1 q2 : Q) :
  (0 <= q1)%Q -> (q1 <= q2)%Q -> fle (round64 q1) (round64 q2).
Proof.
  intros H1 H12. destruct (Qle_lt_or_eq _ _ H1) as [Hp | Hz].
  - assert (Hp2 : (0 < q2)%Q) by lra.
    rewrite (round64_pos q1 Hp), (round64_pos q2 Hp2).
    pose proof (rounded_le q1 q2 Hp H12) as Hr.
    destruct (round_pos_cases q1 Hp) as [[-> Ha] | (v1 & -> & Hv1 & _ & Hm1)];
      destruct (round_pos_cases q2 Hp2) as [[-> Hb] | (v2 & -> & Hv2 & _ & Hm2)];
      simpl; trivial.
    + (* the smaller overflows but the larger does not *)
      assert (Hmax : (max_double < pow2 1024)%Q) by reflexivity.
      rewrite Hv2 in Hm2. lra.
    + rewrite Hv1, Hv2. exact Hr.
  - rewrite (round64_0 q1) by (symmetry; exact Hz).
    assert (H2 : (0 <= q2)%Q) by lra.
    destruct (round64_nonneg q2 H2) as [-> | (v & -> & H0 & _)]; simpl; trivial.
Qed.

(** Below a value that rounds to a finite double, rounding is finite. *)
Lemma round64_bounded (q b v : Q) :
  (0 <= q)%Q -> (q <= b)%Q -> round64 b = Fin v ->
  exists u, round64 q = Fin u /\ (0 <= u)%Q /\ (u <= v)%Q.
Proof.
  intros H0 Hb Hv. pose proof (round64_le q b H0 Hb) as Hle.
  rewrite Hv in Hle.
  destruct (round64_nonneg q H0) as [E | (u & E & Hu & _)]; rewrite E in Hle.
  - destruct Hle.
  - exists u. rewrite E. auto.
Qed.

(** A double is not changed by rounding. *)
Lemma round64_exact (q : Q) (m e : Z) :
  0 < m <= 2 ^ 53 -> -1074 <= e -> (q == inject_Z m * pow2 e)%Q ->
  (q < pow2 1024)%Q -> exists v, round64 q = Fin v /\ (v == q)%Q.
Proof.
  intros Hm He Hq Hlt. pose proof (rounded_exact q m e Hm He Hq) as Hr.
  assert (Hq0 : (0 < q)%Q).
  { rewrite Hq. apply Qmult_lt_0_compat; [| apply pow2_pos].
    change 0%Q with (inject_Z 0). rewrite <- Zlt_Qlt. lia. }
  rewrite (round64_pos q Hq0).
  destruct (round_pos_cases q Hq0) as [[_ Ha] | (v & -> & Hv & _)].
  - rewrite Hr in Ha. lra.
  - exists v. split; [reflexivity |]. now rewrite Hv.
Qed.


Lemma E_bind_inr {A B : Type} (m : E A) (k : A -> E B) (c c1 : Clock) (a : A) :
  m c = inr (a, c1) -> (m ≫= k) c = k a c1.
Proof. intros H. unfold mbind, E_bind. now rewrite H. Qed.

Lemma E_bind_lift {A B : Type} (a : A) (k : A -> E B) (c : Clock) :
  (lift (inr a) ≫= k) c = k a c.
Proof. reflexivity. Qed.

Lemma round64_max_double :
  exists v, round64 max_double = Fin v /\ (v == max_double)%Q.
Proof. eexists. split; vm_compute; reflexivity. Qed.

Lemma round64_one : round64 1 = Fin 1.
Proof. vm_compute. reflexivity. Qed.

Lemma max_double_ge_1 : (1 <= max_double)%Q.
Proof. vm_compute. discriminate. Qed.

(** Below the largest double, rounding gives a double. *)
Lemma round64_finite (q : Q) :
  (0 <= q)%Q -> (q <= max_double)%Q ->
  exists u, round64 q = Fin u /\ (0 <= u)%Q /\ (u <= max_double)%Q.
Proof.
  intros H0 H1. destruct round64_max_double as (v & Hv & Ev).
  destruct (round64_bounded q max_double v H0 H1 Hv) as (u & Hu & Hu0 & Hu1).
  exists u. rewrite <- Ev. auto.
Qed.

Lemma not_negative_round64 (q : Q) : (0 <= q)%Q -> not_negative (round64 q).
Proof.
  intros H. destruct (round64_nonneg q H) as [E | (v & E & Hv & _)];
    [left | right; exists v]; auto.
Qed.

Lemma not_negative_fsub (a b : Q) :
  (b <= a)%Q -> not_negative (fsub (Fin a) (Fin b)).
Proof.
  intros H. change (fsub (Fin a) (Fin b)) with (round64 (a + - b)).
  apply not_negative_round64. lra.
Qed.

Lemma not_negative_fmul (x : float) (r : Q) :
  not_negative x -> (0 < r)%Q -> not_negative (fmul x (Fin r)).
Proof.
  intros [-> | (v & -> & Hv)] Hr; simpl.
  - rewrite (proj1 (Qgt_alt r 0%Q) Hr). left. reflexivity.
  - apply not_negative_round64. apply Qmult_le_0_compat; lra.
Qed.

Lemma not_negative_fadd (q : Q) (y : float) :
  (0 <= q)%Q -> not_negative y -> not_negative (fadd (Fin q) y).
Proof.
  intros Hq [-> | (v & -> & Hv)]; simpl.
  - left. reflexivity.
  - apply not_negative_round64. lra.
Qed.

Lemma float_of_int_finite (z : Z) :
  0 <= z -> (inject_Z z <= max_double)%Q ->
  exists u, float_of_int z = inr (Fin u) /\ (0 <= u)%Q.
Proof.
  intros H0 H1. assert (Hq : (0 <= inject_Z z)%Q).
  { change 0%Q with (inject_Z 0). now rewrite <- Zle_Qle. }
  destruct (round64_finite _ Hq H1) as (u & Hu & Hu0 & _).
  exists u. unfold float_of_int. rewrite Hu. auto.
Qed.

Lemma float_of_int_one : float_of_int 1 = inr (Fin 1).
Proof. vm_compute. reflexivity. Qed.

Section SoundBuckets.

Import IEEE.

Variables (r : Q) (cap : Z).
Hypothesis Hr : (pow2 (-1022) <= r)%Q.
Hypothesis Hcap0 : 0 <= cap.
Hypothesis Hcap : (inject_Z cap <= max_double)%Q.

Lemma normal_rate_positive : (0 < r)%Q.
Proof. pose proof (pow2_pos (-1022)). lra. Qed.

Lemma token_count_to_float (x : num) :
  token_count cap x -> exists q, to_float x = inr (Fin q) /\ (0 <= q)%Q.
Proof.
  destruct x as [z | [q | |]]; simpl; try tauto.
  - intros [H0 H1]. apply float_of_int_finite; [exact H0 |].
    apply Qle_trans with (inject_Z cap); [| exact Hcap].
    now rewrite <- Zle_Qle.
  - intros [H0 _]. eauto.
Qed.

Lemma num_add_tokens (x : num) (y : float) :
  token_count cap x -> not_negative y ->
  exists s, num_add x (PyFloat y) = inr (PyFloat s) /\ not_negative s.
Proof.
  intros Hx Hy. destruct (token_count_to_float x Hx) as (q & Hq & Hq0).
  exists (fadd (Fin q) y). split; [| now apply not_negative_fadd].
  unfold num_add, mixed. rewrite Hq. destruct x; reflexivity.
Qed.

Lemma num_min_capacity (s : float) :
  not_negative s -> token_count cap (num_min (PyInt cap) (PyFloat s)).
Proof.
  intros [-> | (v & -> & Hv)]; unfold num_min, num_lt; simpl.
  - lia.
  - destruct (Qltb v (inject_Z cap)) eqn:E; simpl; [| lia].
    apply Qltb_true in E. split; [exact Hv | lra].
Qed.

Lemma num_ge_one (x : num) :
  token_count cap x ->
  (num_ge x (PyInt 1) = true ->
   (exists z, x = PyInt z /\ 1 <= z <= cap) \/
   (exists q, x = PyFloat (Fin q) /\ (1 <= q)%Q /\ (q <= max_double)%Q)) /\
  (num_ge x (PyInt 1) = false ->
   x = PyInt 0 \/
   (exists q, x = PyFloat (Fin q) /\ (0 <= q)%Q /\ (q < 1)%Q)).
Proof.
  destruct x as [z | [q | |]]; cbn [token_count]; try tauto; intros Hx;
    unfold num_ge; cbn [compared fleb]; change (inject_Z 1) with 1%Q.
  - split; intros H.
    + apply Qle_bool_iff in H. change 1%Q with (inject_Z 1) in H.
      rewrite <- Zle_Qle in H. left. exists z. split; [reflexivity | lia].
    + left. f_equal.
      assert (~ (1 <= inject_Z z)%Q) as Hn
        by (rewrite <- Qle_bool_iff; congruence).
      change 1%Q with (inject_Z 1) in Hn. rewrite <- Zle_Qle in Hn. lia.
  - destruct Hx as [H0 H1]. split; intros H.
    + apply Qle_bool_iff in H. right. exists q. auto.
    + right. exists q. split; [reflexivity |]. split; [exact H0 |].
      apply Qnot_le_lt. intros H'. apply Qle_bool_iff in H'. congruence.
Qed.

(** [self.tokens -= 1] when [self.tokens >= 1]. *)
Lemma num_sub_one (x : num) :
  token_count cap x -> num_ge x (PyInt 1) = true ->
  exists left, num_sub x (PyInt 1) = inr left /\ token_count cap left.
Proof.
  intros Hx Hge.
  destruct (proj1 (num_ge_one x Hx) Hge)
    as [(z & -> & Hz) | (q & -> & Hq1 & Hq2)].
  - exists (PyInt (z - 1)). split; [reflexivity |]. simpl. lia.
  - assert (Ha : (0 <= q + - (1))%Q) by lra.
    assert (Hb : (q + - (1) <= max_double)%Q) by lra.
    destruct (round64_finite _ Ha Hb) as (u & Hu & Hu0 & Hu1).
    exists (PyFloat (Fin u)). split; [| simpl; auto].
    unfold num_sub, mixed. cbn [to_float]. rewrite float_of_int_one.
    change (fsub (Fin q) (Fin 1)) with (round64 (q + - (1))).
    now rewrite Hu.
Qed.

Lemma round64_pow2_1022 :
  exists v, round64 (pow2 1022) = Fin v.
Proof. eexists. vm_compute. reflexivity. Qed.

(** [needed / self.rate] when [self.tokens < 1]. *)
Lemma wait_returns (x : num) :
  token_count cap x -> num_ge x (PyInt 1) = false ->
  exists needed w,
    num_sub (PyInt 1) x = inr needed /\
    num_truediv needed (PyFloat (Fin r)) = inr (PyFloat (Fin w)) /\
    (0 <= w)%Q.
Proof.
  pose proof normal_rate_positive as Hr0.
  assert (Hz : is_zero (Fin r) = false).
  { unfold is_zero. destruct (Qeq_bool r 0) eqn:E; [| reflexivity].
    apply Qeq_bool_iff in E. lra. }
  assert (Hquot : forall n : Q, (0 <= n)%Q -> (n <= 1)%Q ->
            exists w, round64 (n / r) = Fin w /\ (0 <= w)%Q).
  { intros n Hn0 Hn1. destruct round64_pow2_1022 as [v Hv].
    assert (H0 : (0 <= n / r)%Q).
    { apply Qle_shift_div_l; [exact Hr0 | lra]. }
    assert (H1 : (n / r <= pow2 1022)%Q).
    { apply Qle_shift_div_r; [exact Hr0 |].
      apply Qle_trans with (pow2 1022 * pow2 (-1022))%Q.
      - rewrite <- pow2_add. exact Hn1.
      - apply Qmult_le_l; [apply pow2_pos | exact Hr]. }
    destruct (round64_bounded _ _ _ H0 H1 Hv) as (w & Hw & Hw0 & _).
    eauto. }
  intros Hx Hge.
  destruct (proj2 (num_ge_one x Hx) Hge) as [-> | (q & -> & Hq0 & Hq1)].
  - destruct (Hquot 1%Q) as (w & Hw & Hw0); [lra | lra |].
    exists (PyInt 1), w. split; [reflexivity |]. split; [| exact Hw0].
    unfold num_truediv. cbn [to_float]. rewrite float_of_int_one, Hz.
    cbn [fdiv]. now rewrite Hw.
  - assert (Ha : (0 <= 1 + - q)%Q) by lra.
    assert (Hb : (1 + - q <= 1)%Q) by lra.
    destruct (round64_bounded _ 1 1 Ha Hb round64_one) as (n & Hn & Hn0 & Hn1).
    destruct (Hquot n Hn0 Hn1) as (w & Hw & Hw0).
    exists (PyFloat (Fin n)), w. split; [| split; [| exact Hw0]].
    + unfold num_sub, mixed. cbn [to_float]. rewrite float_of_int_one.
      change (fsub (Fin 1) (Fin q)) with (round64 (1 + - q)). now rewrite Hn.
    + unfold num_truediv. cbn [to_float]. rewrite Hz. cbn [fdiv].
      now rewrite Hw.
Qed.

Lemma bucket_sound_later (b : TokenBucket.t) (c : Clock) (k : nat) :
  non_decreasing c -> bucket_sound r cap c b ->
  bucket_sound r cap (advance k c) b.
Proof.
  intros Hc (H1 & H2 & H3 & t & H4 & H5). repeat split; try assumption.
  exists t. split; [exact H4 |]. simpl.
  apply Qle_trans with (readings c (cursor c)); [exact H5 |].
  apply Hc. lia.
Qed.

Lemma __init___sound (c : Clock) :
  exists b,
    TokenBucket.__init__ (PyFloat (Fin r)) (PyInt cap) c
      = inr (b, advance 1 c) /\
    (non_decreasing c -> bucket_sound r cap (advance 1 c) b).
Proof.
  eexists. split; [reflexivity |]. intros Hc.
  repeat split; simpl; try lia.
  eexists. split; [reflexivity |]. apply Hc. lia.
Qed.

Lemma _refill_sound (b : TokenBucket.t) (c : Clock) :
  non_decreasing c -> bucket_sound r cap c b ->
  exists b',
    TokenBucket._refill b c = inr (b', advance 1 c) /\
    bucket_sound r cap (advance 1 c) b'.
Proof.
  intros Hc (Hrate & Hcapacity & Htok & t & Hlast & Ht).
  set (now := readings c (cursor c)) in *.
  pose proof (not_negative_fmul _ r (not_negative_fsub now t Ht)
                normal_rate_positive) as Hadd.
  destruct (num_add_tokens _ _ Htok Hadd) as (s & Hs & Hs0).
  eexists. split.
  - unfold TokenBucket._refill, mbind, E_bind, time_time. fold now.
    rewrite Hlast, Hrate. cbn [lift num_mul mixed to_float].
    rewrite Hs. reflexivity.
  - repeat split; cbn [TokenBucket.rate TokenBucket.capacity
      TokenBucket.tokens TokenBucket.last_update]; try assumption.
    + rewrite Hcapacity. apply num_min_capacity. exact Hs0.
    + exists now. split; [reflexivity |]. apply Hc. simpl. lia.
Qed.

Lemma consume_sound (b : TokenBucket.t) (c : Clock) :
  non_decreasing c -> bucket_sound r cap c b ->
  exists ok b',
    TokenBucket.consume 1 b c = inr ((ok, b'), advance 1 c) /\
    bucket_sound r cap (advance 1 c) b'.
Proof.
  intros Hc Hb. destruct (_refill_sound b c Hc Hb) as (b1 & Hrun & Hb1).
  unfold TokenBucket.consume. rewrite (E_bind_inr _ _ _ _ _ Hrun).
  destruct Hb1 as (H1 & H2 & H3 & H4).
  destruct (num_ge (TokenBucket.tokens b1) (PyInt 1)) eqn:E.
  - destruct (num_sub_one _ H3 E) as (left & Hleft & Hl).
    rewrite Hleft, E_bind_lift. eexists _, _. split; [reflexivity |].
    repeat split; assumption.
  - eexists _, _. split; [reflexivity |]. repeat split; assumption.
Qed.

Lemma time_until_available_sound (b : TokenBucket.t) (c : Clock) :
  non_decreasing c -> bucket_sound r cap c b ->
  exists wait b' seconds,
    TokenBucket.time_until_available 1 b c = inr ((wait, b'), advance 1 c) /\
    num_int wait = inr seconds /\
    bucket_sound r cap (advance 1 c) b'.
Proof.
  intros Hc Hb. destruct (_refill_sound b c Hc Hb) as (b1 & Hrun & Hb1).
  unfold TokenBucket.time_until_available.
  rewrite (E_bind_inr _ _ _ _ _ Hrun).
  pose proof Hb1 as (H1 & H2 & H3 & H4).
  destruct (num_ge (TokenBucket.tokens b1) (PyInt 1)) eqn:E.
  - eexists _, _, _. split; [reflexivity |]. split; [reflexivity | exact Hb1].
  - destruct (wait_returns _ H3 E) as (needed & w & Hn & Hw & Hw0).
    rewrite Hn, H1, E_bind_lift, Hw, E_bind_lift.
    eexists _, _, _. split; [reflexivity |]. split; [reflexivity | exact Hb1].
Qed.

End SoundBuckets.

Section SoundLimiter.

Import IEEE.

Variable r : Q.

Lemma limiter_sound_later (self : RateLimiter.t) (c : Clock) (k : nat) :
  non_decreasing c -> limiter_sound r c self ->
  limiter_sound r (advance k c) self.
Proof.
  intros Hc (H1 & H2 & H3 & H4 & H5).
  refine (conj H1 (conj H2 (conj H3 (conj H4 _)))).
  intros key b Hb. apply bucket_sound_later; [exact Hc | eauto].
Qed.

Lemma delete_all_subset (keys : list string)
    (buckets : gmap string TokenBucket.t) (k : string) (b : TokenBucket.t) :
  RateLimiter.delete_all keys buckets !! k = Some b -> buckets !! k = Some b.
Proof.
  revert buckets. induction keys as [|key keys IH]; intros buckets; simpl.
  - trivial.
  - intros H. apply IH in H. destruct (decide (key = k)) as [-> | Hne].
    + rewrite lookup_delete_eq in H. discriminate.
    + now rewrite lookup_delete_ne in H.
Qed.

Lemma cleanup_at_sound (now : float) (self : RateLimiter.t) (c : Clock) :
  limiter_sound r c self -> limiter_sound r c (RateLimiter.cleanup_at now self).
Proof.
  intros (H1 & H2 & H3 & H4 & H5). unfold RateLimiter.cleanup_at.
  destruct (num_lt _ _); [exact (conj H1 (conj H2 (conj H3 (conj H4 H5)))) |].
  refine (conj H1 (conj H2 (conj H3 (conj H4 _)))).
  cbn [RateLimiter._buckets RateLimiter.capacity].
  intros k b Hb. apply delete_all_subset in Hb. eauto.
Qed.

Lemma store_sound (client_id : string) (b : TokenBucket.t)
    (self : RateLimiter.t) (c : Clock) :
  limiter_sound r c self ->
  bucket_sound r (RateLimiter.capacity self) c b ->
  limiter_sound r c (RateLimiter.store client_id b self).
Proof.
  intros (H1 & H2 & H3 & H4 & H5) Hb.
  refine (conj H1 (conj H2 (conj H3 (conj H4 _)))).
  cbn [RateLimiter.store RateLimiter.set_buckets RateLimiter._buckets
       RateLimiter.capacity].
  intros k b' Hk. destruct (decide (client_id = k)) as [-> | Hne].
  - rewrite lookup_insert_eq in Hk. now inversion Hk; subst.
  - rewrite lookup_insert_ne in Hk by exact Hne. eauto.
Qed.

Lemma getitem_sound (client_id : string) (self : RateLimiter.t) (c : Clock) :
  non_decreasing c -> limiter_sound r c self ->
  exists b self' k,
    RateLimiter.getitem client_id self c = inr ((b, self'), advance k c) /\
    limiter_sound r (advance k c) self' /\
    RateLimiter.capacity self' = RateLimiter.capacity self /\
    bucket_sound r (RateLimiter.capacity self) (advance k c) b.
Proof.
  intros Hc Hs. pose proof Hs as (H1 & H2 & H3 & H4 & H5).
  unfold RateLimiter.getitem.
  destruct (RateLimiter._buckets self !! client_id) as [b |] eqn:E.
  - exists b, self, 0%nat. replace (advance 0 c) with c
      by (destruct c; unfold advance; simpl; f_equal; lia).
    split; [reflexivity |]. split; [exact Hs |]. split; [reflexivity | eauto].
  - destruct (__init___sound r (RateLimiter.capacity self) H3 c)
      as (b & Hrun & Hb).
    rewrite H1, (E_bind_inr _ _ _ _ _ Hrun). specialize (Hb Hc).
    eexists b, _, 1%nat. split; [reflexivity |].
    split; [| split; [reflexivity | exact Hb]].
    apply (store_sound client_id b self);
      [apply limiter_sound_later; assumption | exact Hb].
Qed.

Lemma is_allowed_sound (client_id : string) (self : RateLimiter.t)
    (c : Clock) :
  non_decreasing c -> limiter_sound r c self ->
  exists res self' k,
    RateLimiter.is_allowed client_id self c = inr ((res, self'), advance k c) /\
    limiter_sound r (advance k c) self'.
Proof.
  intros Hc Hs. unfold RateLimiter.is_allowed.
  (* the cleanup *)
  assert (Hclean : RateLimiter._maybe_cleanup self c
                   = inr (RateLimiter.cleanup_at
                            (Fin (readings c (cursor c))) self, advance 1 c))
    by reflexivity.
  rewrite (E_bind_inr _ _ _ _ _ Hclean).
  set (s1 := RateLimiter.cleanup_at _ self).
  assert (Hs1 : limiter_sound r (advance 1 c) s1).
  { apply limiter_sound_later; [exact Hc |]. apply cleanup_at_sound, Hs. }
  assert (Hc1 : non_decreasing (advance 1 c)) by exact Hc.
  (* the bucket *)
  destruct (getitem_sound client_id s1 _ Hc1 Hs1)
    as (b & s2 & k & Hget & Hs2 & Hcap2 & Hb).
  rewrite (E_bind_inr _ _ _ _ _ Hget). rewrite advance_advance in *.
  set (c2 := advance (1 + k) c) in *.
  assert (Hc2 : non_decreasing c2) by exact Hc.
  pose proof Hs1 as (H1 & H2 & H3 & H4 & _).
  (* consume *)
  destruct (consume_sound r _ H2 H3 H4 b c2 Hc2 Hb) as (ok & b1 & Hcons & Hb1).
  rewrite (E_bind_inr _ _ _ _ _ Hcons). unfold c2 in *.
  rewrite advance_advance in *. set (c3 := advance (1 + k + 1) c) in *.
  assert (Hc3 : non_decreasing c3) by exact Hc.
  assert (Hs3 : limiter_sound r c3 (RateLimiter.store client_id b1 s2)).
  { apply store_sound; [| rewrite Hcap2; exact Hb1].
    change c3 with (advance (1 + k + 1) c).
    rewrite <- advance_advance. apply limiter_sound_later; assumption. }
  destruct ok.
  - eexists _, _, _. split; [reflexivity | exact Hs3].
  - destruct (time_until_available_sound r _ H2 H3 H4 b1 c3 Hc3 Hb1)
      as (wait & b2 & seconds & Hwait & Hint & Hb2).
    rewrite (E_bind_inr _ _ _ _ _ Hwait), Hint, E_bind_lift.
    unfold c3 in *. rewrite advance_advance in *.
    eexists _, _, _. split; [reflexivity |].
    apply store_sound.
    + rewrite <- advance_advance. apply limiter_sound_later; assumption.
    + cbn [RateLimiter.store RateLimiter.set_buckets RateLimiter.capacity].
      rewrite Hcap2. exact Hb2.
Qed.

End SoundLimiter.

(** *** The constructor *)

Lemma round64_cases (q : Q) :
  (exists v, round64 q = Fin v) \/ (exists s, round64 q = Inf s).
Proof.
  unfold round64, round_pos.
  destruct (q ?= 0)%Q; [eauto | |]; destruct (Qle_bool _ _); simpl; eauto.
Qed.

(** In the normal range the relative error of a rounding is at most
    2^-53. *)
Lemma round64_relative_error (q v : Q) :
  (pow2 (-1022) <= q)%Q -> round64 q = Fin v ->
  (q * (1 - pow2 (-53)) <= v)%Q /\ (v <= q * (1 + pow2 (-53)))%Q.
Proof.
  intros Hq Hv. assert (Hq0 : (0 < q)%Q).
  { pose proof (pow2_pos (-1022)). lra. }
  rewrite (round64_pos q Hq0) in Hv.
  destruct (round_pos_cases q Hq0) as [[E _] | (v' & E & Hv' & _)];
    rewrite E in Hv; [discriminate |].
  injection Hv as ->.
  assert (Hlog : -1022 <= ilog2 q).
  { rewrite <- (ilog2_unique (pow2 (-1022)) (-1022));
      [| apply Qle_refl | apply pow2_lt; lia].
    apply ilog2_le; [apply pow2_pos | exact Hq]. }
  destruct (ilog2_spec q Hq0) as [Hl _].
  destruct (rounded_error q Hq0) as [He1 He2].
  assert (Hulp : (pow2 (ulp_exponent q - 1) <= q * pow2 (-53))%Q).
  { unfold ulp_exponent. replace (Z.max (ilog2 q - 52) (-1074) - 1)
      with (ilog2 q + -53) by lia.
    rewrite pow2_add. apply Qmult_le_compat_r; [exact Hl |].
    apply Qlt_le_weak, pow2_pos. }
  rewrite Hv'. split; lra.
Qed.

Lemma round64_pow2_low :
  exists v, round64 (pow2 (-1022)) = Fin v /\ (v == pow2 (-1022))%Q.
Proof. eexists. split; vm_compute; reflexivity. Qed.

(** What the constructor computed when it returns. *)
Lemma __init___inv (settings : Settings.t)
    (requests_per_window window_seconds : option Z) (burst_multiplier : Q)
    (c c' : Clock) (self : IEEE.RateLimiter.t) :
  IEEE.RateLimiter.__init__ settings requests_per_window window_seconds
    (Fin burst_multiplier) c = inr (self, c') ->
  let n := py_or requests_per_window (Settings.rate_limit_requests settings) in
  let w := py_or window_seconds (Settings.rate_limit_window settings) in
  w <> 0 /\
  exists r x p : Q,
    round64 (inject_Z n / inject_Z w) = Fin r /\
    float_of_int n = inr (Fin x) /\
    round64 (x * burst_multiplier) = Fin p /\
    c' = advance 1 c /\
    self = {| IEEE.RateLimiter.requests_per_window := n;
              IEEE.RateLimiter.window_seconds := w;
              IEEE.RateLimiter.rate := PyFloat (Fin r);
              IEEE.RateLimiter.capacity := py_int p;
              IEEE.RateLimiter._buckets := ∅;
              IEEE.RateLimiter._last_cleanup := Fin (readings c (cursor c));
              IEEE.RateLimiter._cleanup_interval := 3600 |}.
Proof.
  intros Hrun n w. revert Hrun. unfold IEEE.RateLimiter.__init__. fold n w.
  unfold mbind, E_bind, lift, num_truediv, num_mul, mixed.
  cbn [to_float]. destruct (Z.eqb_spec w 0) as [| Hw]; [discriminate |].
  intros H. split; [exact Hw |]. revert H.
  destruct (round64_cases (inject_Z n / inject_Z w)) as [[r Er] | [s Er]];
    rewrite Er; [| discriminate].
  unfold float_of_int.
  destruct (round64_cases (inject_Z n)) as [[x Ex] | [s Ex]];
    rewrite Ex; [| discriminate].
  cbn [fmul].
  destruct (round64_cases (x * burst_multiplier)) as [[p Ep] | [s Ep]];
    rewrite Ep; cbn [num_int]; [| discriminate].
  unfold IEEE.time_time, mret, E_ret. intros [= <- <-].
  exists r, x, p. repeat split; try reflexivity; assumption.
Qed.


Lemma py_or_Some (v y : Z) : v <> 0 -> py_or (Some v) y = v.
Proof. intros H. unfold py_or. now destruct (Z.eqb_spec v 0). Qed.

Lemma float_of_int_inv (z : Z) (x : float) :
  float_of_int z = inr x -> round64 (inject_Z z) = x.
Proof.
  unfold float_of_int. destruct (round64 (inject_Z z)); intros H;
    [now injection H | discriminate H | now injection H].
Qed.

(** The conversion of an integer of at most 53 bits is exact. *)
Lemma float_of_int_exact (z : Z) (x : Q) :
  0 < z <= 2 ^ 53 -> float_of_int z = inr (Fin x) -> (x == inject_Z z)%Q.
Proof.
  intros Hz H. apply float_of_int_inv in H.
  destruct (round64_exact (inject_Z z) z 0 Hz ltac:(lia)) as (v & Hv & E).
  - change (pow2 0) with 1%Q. ring.
  - apply Qle_lt_trans with (inject_Z (2 ^ 53));
      [rewrite <- Zle_Qle; lia | reflexivity].
  - rewrite H in Hv. injection Hv as ->. exact E.
Qed.

Lemma quotient_normal (n w : Z) :
  0 < n -> 0 < w -> w <= n * 2 ^ 1022 ->
  (pow2 (-1022) <= inject_Z n / inject_Z w)%Q.
Proof.
  intros Hn Hw H. assert (Hwq : (0 < inject_Z w)%Q).
  { change 0%Q with (inject_Z 0). now rewrite <- Zlt_Qlt. }
  apply Qle_shift_div_l; [exact Hwq |].
  rewrite Zle_Qle, inject_Z_mult, <- pow2_Z in H by lia.
  apply Qmult_le_r with (pow2 1022); [apply pow2_pos |].
  assert (E : (pow2 (-1022) * inject_Z w * pow2 1022 == inject_Z w)%Q).
  { assert (E1 := pow2_add (-1022) 1022). change (pow2 (-1022 + 1022))
      with 1%Q in E1.
    transitivity (inject_Z w * (pow2 (-1022) * pow2 1022))%Q; [ring |].
    rewrite <- E1. ring. }
  rewrite E. exact H.
Qed.

(** The constructor returns whenever [requests_per_window] has at most 53
    bits and the burst multiplier is at most 2^970: neither the quotient
    nor the product leaves the doubles. *)
Lemma __init___returns (settings : Settings.t)
    (requests_per_window window_seconds : Z) (burst_multiplier : Q)
    (c : Clock) :
  0 < requests_per_window <= 2 ^ 53 -> 0 < window_seconds ->
  (0 <= burst_multiplier)%Q -> (burst_multiplier <= pow2 970)%Q ->
  exists self,
    IEEE.RateLimiter.__init__ settings (Some requests_per_window)
      (Some window_seconds) (Fin burst_multiplier) c
    = inr (self, advance 1 c).
Proof.
  intros Hn Hw Hb0 Hb1.
  assert (Hnq : (1 <= inject_Z requests_per_window)%Q).
  { change 1%Q with (inject_Z 1). rewrite <- Zle_Qle. lia. }
  assert (Hn53 : (inject_Z requests_per_window <= pow2 53)%Q).
  { rewrite (pow2_Z 53) by lia. rewrite <- Zle_Qle. lia. }
  assert (Hwq : (1 <= inject_Z window_seconds)%Q).
  { change 1%Q with (inject_Z 1). rewrite <- Zle_Qle. lia. }
  assert (H53 : (pow2 53 <= max_double)%Q) by (vm_compute; discriminate).
  (* the quotient *)
  assert (Hq0 : (0 <= inject_Z requests_per_window / inject_Z window_seconds)%Q).
  { apply Qle_shift_div_l; lra. }
  assert (Hq1 : (inject_Z requests_per_window / inject_Z window_seconds
                 <= max_double)%Q).
  { apply Qle_shift_div_r; [lra |].
    apply Qle_trans with (max_double * 1)%Q; [lra |].
    apply Qmult_le_l; [| exact Hwq]. lra. }
  destruct (round64_finite _ Hq0 Hq1) as (r & Er & _).
  (* the conversion and the product *)
  destruct (float_of_int_finite requests_per_window ltac:(lia) ltac:(lra))
    as (x & Ex & Hx0).
  pose proof (float_of_int_exact _ _ Hn Ex) as Hxe.
  assert (Hp1 : (x * burst_multiplier <= max_double)%Q).
  { apply Qle_trans with (pow2 53 * pow2 970)%Q.
    - apply Qle_trans with (x * pow2 970)%Q.
      + apply Qmult_le_l; [lra | exact Hb1].
      + apply Qmult_le_compat_r; [lra |]. apply Qlt_le_weak, pow2_pos.
    - vm_compute. discriminate. }
  destruct (round64_finite (x * burst_multiplier)
              ltac:(apply Qmult_le_0_compat; lra) Hp1) as (p & Ep & _).
  eexists. unfold IEEE.RateLimiter.__init__.
  rewrite !py_or_Some by lia.
  unfold num_truediv, num_mul, mixed. cbn [to_float].
  destruct (Z.eqb_spec window_seconds 0) as [| _]; [lia |].
  rewrite Er, E_bind_lift, Ex. cbn [fmul]. rewrite Ep, E_bind_lift.
  cbn [num_int]. rewrite E_bind_lift. reflexivity.
Qed.

(** The capacities of three limiters: the multiplier 1.5 of the default
    configuration is a double and its product with 100 is exact; the
    products with the doubles nearest to 1.15 and to 1.2 are rounded, to
    just below 115 and to 6. *)
Lemma constructed_capacity_examples :
  exists a b c,
    IEEE.RateLimiter.__init__ Settings.default (Some 100) (Some 3600)
      (double (3 # 2)) (frozen 0) = inr (a, advance 1 (frozen 0)) /\
    IEEE.RateLimiter.capacity a = 150 /\
    IEEE.RateLimiter.__init__ Settings.default (Some 100) (Some 3600)
      (double (115 # 100)) (frozen 0) = inr (b, advance 1 (frozen 0)) /\
    IEEE.RateLimiter.capacity b = 114 /\
    IEEE.RateLimiter.__init__ Settings.default (Some 5) (Some 1)
      (double (12 # 10)) (frozen 0) = inr (c, advance 1 (frozen 0)) /\
    IEEE.RateLimiter.capacity c = 6.
Proof.
  eexists _, _, _.
  split; [vm_compute; reflexivity |]. split; [reflexivity |].
  split; [vm_compute; reflexivity |]. split; [reflexivity |].
  split; [vm_compute; reflexivity |]. reflexivity.
Qed.

(** C5 (as amended).  With [requests_per_window > 0], [window_seconds > 0]
    and [burst_multiplier >= 1], a limiter the constructor returned has as
    rate the double nearest to [requests_per_window / window_seconds]
    (within a relative error of 2^-53 of the quotient when the quotient is
    at least 2^-1022) and as capacity the integer part of the double [p]
    nearest to the product of [float(requests_per_window)] and
    [burst_multiplier]: the largest integer not above [p], where [p] is
    within a relative error of 2^-53 of that product.  When
    [requests_per_window <= 2^53] the conversion to [float] is exact and
    the capacity is at least [requests_per_window]. *)
Theorem constructed_rate_and_capacity (settings : Settings.t)
    (requests_per_window window_seconds : Z) (burst_multiplier : Q)
    (c c' : Clock) (self : IEEE.RateLimiter.t) :
  0 < requests_per_window -> 0 < window_seconds ->
  (1 <= burst_multiplier)%Q ->
  IEEE.RateLimiter.__init__ settings (Some requests_per_window)
    (Some window_seconds) (Fin burst_multiplier) c = inr (self, c') ->
  exists r x p : Q,
    IEEE.RateLimiter.rate self = PyFloat (Fin r) /\
    round64 (inject_Z requests_per_window / inject_Z window_seconds) = Fin r /\
    (0 <= r)%Q /\
    (window_seconds <= requests_per_window * 2 ^ 1022 ->
     (inject_Z requests_per_window / inject_Z window_seconds
        * (1 - pow2 (-53)) <= r)%Q /\
     (r <= inject_Z requests_per_window / inject_Z window_seconds
             * (1 + pow2 (-53)))%Q) /\
    float_of_int requests_per_window = inr (Fin x) /\
    round64 (x * burst_multiplier) = Fin p /\
    (x * burst_multiplier * (1 - pow2 (-53)) <= p)%Q /\
    (p <= x * burst_multiplier * (1 + pow2 (-53)))%Q /\
    IEEE.RateLimiter.capacity self = Qfloor p /\
    (inject_Z (IEEE.RateLimiter.capacity self) <= p)%Q /\
    (p < inject_Z (IEEE.RateLimiter.capacity self + 1))%Q /\
    (requests_per_window <= 2 ^ 53 ->
     (x == inject_Z requests_per_window)%Q /\
     requests_per_window <= IEEE.RateLimiter.capacity self).
Proof.
  intros Hn Hw Hb Hrun.
  destruct (__init___inv _ _ _ _ _ _ _ Hrun)
    as (_ & r & x & p & Er & Ex & Ep & _ & ->).
  rewrite !py_or_Some in * by lia.
  cbn [IEEE.RateLimiter.rate IEEE.RateLimiter.capacity].
  assert (Hnq : (1 <= inject_Z requests_per_window)%Q).
  { change 1%Q with (inject_Z 1). rewrite <- Zle_Qle. lia. }
  assert (Hwq : (0 < inject_Z window_seconds)%Q).
  { change 0%Q with (inject_Z 0). now rewrite <- Zlt_Qlt. }
  assert (Hq0 : (0 <= inject_Z requests_per_window / inject_Z window_seconds)%Q).
  { apply Qle_shift_div_l; [exact Hwq | lra]. }
  pose proof (float_of_int_inv _ _ Ex) as Hx.
  assert (Hx1 : (1 <= x)%Q).
  { pose proof (round64_le 1 (inject_Z requests_per_window) ltac:(lra) Hnq)
      as Hle. now rewrite round64_one, Hx in Hle. }
  assert (Hprod : (x <= x * burst_multiplier)%Q).
  { rewrite <- (Qmult_1_r x) at 1. apply Qmult_le_l; lra. }
  assert (Hnormal : (pow2 (-1022) <= x * burst_multiplier)%Q).
  { assert (pow2 (-1022) <= 1)%Q by (vm_compute; discriminate). lra. }
  destruct (round64_relative_error _ _ Hnormal Ep) as [Hp1 Hp2].
  assert (Hp0 : (0 <= p)%Q).
  { destruct (round64_nonneg (x * burst_multiplier) ltac:(lra))
      as [E | (v & E & Hv & _)]; rewrite E in Ep; [discriminate |].
    now injection Ep as <-. }
  assert (Hr0 : (0 <= r)%Q).
  { destruct (round64_nonneg _ Hq0) as [E | (v & E & Hv & _)];
      rewrite E in Er; [discriminate |]. now injection Er as <-. }
  rewrite (py_int_floor p Hp0).
  exists r, x, p.
  split; [reflexivity |]. split; [exact Er |]. split; [exact Hr0 |].
  split.
  { intros Hsmall. apply round64_relative_error; [| exact Er].
    apply quotient_normal; assumption. }
  split; [exact Ex |]. split; [exact Ep |]. split; [exact Hp1 |].
  split; [exact Hp2 |]. split; [reflexivity |].
  split; [apply Qfloor_le |]. split; [apply Qlt_floor |].
  intros Hbits.
  pose proof (float_of_int_exact _ _ (conj Hn Hbits) Ex) as Hxe.
  split; [exact Hxe |].
  assert (Hxx : round64 x = Fin x)
    by (rewrite (round64_comp _ _ Hxe); exact Hx).
  pose proof (round64_le x (x * burst_multiplier) ltac:(lra) Hprod) as Hle.
  rewrite Hxx, Ep in Hle. simpl in Hle.
  assert (Hle' : (inject_Z requests_per_window <= p)%Q) by (rewrite <- Hxe; exact Hle).
  apply Qfloor_resp_le in Hle'. now rewrite Qfloor_Z in Hle'.
Qed.

(** The double nearest to 1.15. *)
Lemma double_1_15 :
  double (115 # 100) = Fin (2589569785738035 # 2251799813685248).
Proof. vm_compute. reflexivity. Qed.

(** [RateLimiter(100, 3600, 1.15)]: the product of 100 and the double
    nearest to 1.15 rounds to the double just below 115, and the capacity
    is 114. *)
Lemma constructed_rate_and_capacity_witness :
  exists self c',
    IEEE.RateLimiter.__init__ Settings.default (Some 100) (Some 3600)
      (double (115 # 100)) (frozen 0) = inr (self, c') /\
    IEEE.RateLimiter.capacity self = 114 /\
    exists r x p : Q,
      IEEE.RateLimiter.rate self = PyFloat (Fin r) /\
      round64 (inject_Z 100 / inject_Z 3600) = Fin r /\
      float_of_int 100 = inr (Fin x) /\
      round64 (x * (2589569785738035 # 2251799813685248)) = Fin p /\
      IEEE.RateLimiter.capacity self = Qfloor p /\
      100 <= IEEE.RateLimiter.capacity self.
Proof.
  rewrite double_1_15.
  destruct (IEEE.RateLimiter.__init__ Settings.default (Some 100) (Some 3600)
              (Fin (2589569785738035 # 2251799813685248)) (frozen 0))
    as [e | [self c']] eqn:Hrun; [vm_compute in Hrun; discriminate |].
  exists self, c'. split; [reflexivity |].
  assert (H1 : 0 < 100) by lia. assert (H2 : 0 < 3600) by lia.
  assert (H3 : (1 <= 2589569785738035 # 2251799813685248)%Q)
    by (vm_compute; discriminate).
  destruct (constructed_rate_and_capacity Settings.default 100 3600 _ _ _ _
              H1 H2 H3 Hrun)
    as (r & x & p & Hr & Er & _ & _ & Ex & Ep & _ & _ & Hcap & _ & _ & Hge).
  split.
  - vm_compute in Hrun. injection Hrun as <- _. reflexivity.
  - exists r, x, p. repeat split; try assumption.
    apply Hge. vm_compute. discriminate.
Defined.

(** C5, counterexample.  [RateLimiter(1, 3, 1.5)] satisfies the three
    preconditions; its capacity is [int(1.5) = 1], not the product 3/2,
    and its rate is the double nearest to 1/3, not 1/3. *)
Lemma constructed_capacity_counterexample :
  0 < 1 /\ 0 < 3 /\ (1 <= 3 # 2)%Q /\
  exists self c' r,
    IEEE.RateLimiter.__init__ Settings.default (Some 1) (Some 3) (Fin (3 # 2))
      (frozen 0) = inr (self, c') /\
    IEEE.RateLimiter.capacity self = 1 /\
    ~ (inject_Z (IEEE.RateLimiter.capacity self) == inject_Z 1 * (3 # 2))%Q /\
    IEEE.RateLimiter.rate self = PyFloat (Fin r) /\
    ~ (r == inject_Z 1 / inject_Z 3)%Q.
Proof.
  split; [lia |]. split; [lia |]. split; [unfold Qle; simpl; lia |].
  eexists _, _, _. split; [vm_compute; reflexivity |].
  split; [reflexivity |]. split; [vm_compute; discriminate |].
  split; [reflexivity |]. vm_compute. discriminate.
Qed.

(** *** Sequences of calls *)

Section SoundCore.

Import IEEE.

Variable r : Q.

Lemma perform_sound (op : Core.call) (self : Core.t) (c : Clock) :
  non_decreasing c -> limiter_sound r c (Core.limiter self) ->
  exists a self' k,
    Core.perform op self c = inr ((a, self'), advance k c) /\
    limiter_sound r (advance k c) (Core.limiter self').
Proof.
  intros Hc Hs. assert (E0 : advance 0 c = c)
    by (destruct c; unfold advance; simpl; f_equal; lia).
  destruct op as [k | k | k amount | k]; simpl.
  - destruct (is_allowed_sound r k (Core.limiter self) c Hc Hs)
      as ([allowed retry] & l' & n & Hrun & Hs').
    rewrite (E_bind_inr _ _ _ _ _ Hrun). eexists _, _, n.
    split; [reflexivity | exact Hs'].
  - eexists _, _, 0%nat. rewrite E0. split; [reflexivity | exact Hs].
  - eexists _, _, 0%nat. rewrite E0. split; [reflexivity | exact Hs].
  - eexists _, _, 0%nat. rewrite E0. split; [reflexivity | exact Hs].
Qed.

Lemma perform_all_sound (ops : list Core.call) :
  forall (self : Core.t) (c : Clock),
    non_decreasing c -> limiter_sound r c (Core.limiter self) ->
    exists answers self' k,
      Core.perform_all ops self c = inr ((answers, self'), advance k c) /\
      length answers = length ops /\
      limiter_sound r (advance k c) (Core.limiter self').
Proof.
  induction ops as [|op ops IH]; intros self c Hc Hs.
  - exists [], self, 0%nat. replace (advance 0 c) with c
      by (destruct c; unfold advance; simpl; f_equal; lia).
    split; [reflexivity |]. split; [reflexivity | exact Hs].
  - destruct (perform_sound op self c Hc Hs) as (a & s1 & k1 & Hstep & Hs1).
    destruct (IH s1 (advance k1 c) Hc Hs1)
      as (answers & s2 & k2 & Hrun & Hlen & Hs2).
    rewrite advance_advance in Hrun, Hs2.
    exists (a :: answers), s2, (k1 + k2)%nat.
    split; [| split; [simpl; lia | exact Hs2]].
    cbn [Core.perform_all]. rewrite (E_bind_inr _ _ _ _ _ Hstep).
    rewrite (E_bind_inr _ _ _ _ _ Hrun). reflexivity.
Qed.

End SoundCore.

(** C9 (as amended).  Take a configuration whose request count and window
    are positive, with a quotient [requests_per_window / window_seconds]
    of at least 2^-1022, and a burst multiplier that is not negative, and a
    clock that does not run backwards.  On a limiter the constructor
    returned, every sequence of [is_allowed], [check_quota],
    [increment_usage] and [get_remaining] calls, on any keys, returns an
    answer for each call.  In every state so reached the limiter and all
    its buckets carry the same rate, a double of at least 2^-1022: the
    division of [time_until_available] never meets a zero divisor. *)
Theorem no_exception (settings : Settings.t)
    (requests_per_window window_seconds : option Z) (burst_multiplier : Q)
    (daily_limit : Z) (ops : list Core.call) (c c0 : Clock)
    (core : IEEE.Core.t) :
  0 < py_or requests_per_window (Settings.rate_limit_requests settings) ->
  0 < py_or window_seconds (Settings.rate_limit_window settings) ->
  py_or window_seconds (Settings.rate_limit_window settings)
  <= py_or requests_per_window (Settings.rate_limit_requests settings)
     * 2 ^ 1022 ->
  (0 <= burst_multiplier)%Q ->
  non_decreasing c ->
  IEEE.Core.start settings requests_per_window window_seconds
    (Fin burst_multiplier) daily_limit c = inr (core, c0) ->
  exists answers core' c' r,
    IEEE.Core.perform_all ops core c0 = inr ((answers, core'), c') /\
    length answers = length ops /\
    IEEE.RateLimiter.rate (IEEE.Core.limiter core') = PyFloat (Fin r) /\
    (pow2 (-1022) <= r)%Q /\
    forall (k : string) (b : IEEE.TokenBucket.t),
      IEEE.RateLimiter._buckets (IEEE.Core.limiter core') !! k = Some b ->
      IEEE.TokenBucket.rate b = PyFloat (Fin r).
Proof.
  intros Hn Hw Hsmall Hb Hc Hstart.
  unfold IEEE.Core.start in Hstart.
  destruct (IEEE.RateLimiter.__init__ settings requests_per_window
              window_seconds (Fin burst_multiplier) c)
    as [e | [l c1]] eqn:Hinit.
  { unfold mbind, E_bind in Hstart. rewrite Hinit in Hstart. discriminate. }
  rewrite (E_bind_inr _ _ _ _ _ Hinit) in Hstart.
  injection Hstart as <- <-.
  destruct (__init___inv _ _ _ _ _ _ _ Hinit)
    as (_ & r & x & p & Er & Ex & Ep & -> & ->).
  set (n := py_or requests_per_window _) in *.
  set (w := py_or window_seconds _) in *.
  (* the rate is a normal double *)
  assert (Hr : (pow2 (-1022) <= r)%Q).
  { destruct round64_pow2_low as (v & Hv & Ev).
    pose proof (round64_le (pow2 (-1022)) (inject_Z n / inject_Z w)
                  (Qlt_le_weak _ _ (pow2_pos _))
                  (quotient_normal n w Hn Hw Hsmall)) as Hle.
    rewrite Hv, Er in Hle. simpl in Hle. now rewrite <- Ev. }
  (* the capacity is not negative and converts to a double *)
  pose proof (float_of_int_inv _ _ Ex) as Hx.
  assert (Hx0 : (0 <= x)%Q).
  { assert (Hnq : (0 <= inject_Z n)%Q)
      by (change 0%Q with (inject_Z 0); rewrite <- Zle_Qle; lia).
    destruct (round64_nonneg _ Hnq) as [E | (v & E & Hv & _)];
      rewrite E in Hx; [discriminate |]. now injection Hx as <-. }
  assert (Hp : (0 <= p)%Q /\ (p <= max_double)%Q).
  { destruct (round64_nonneg (x * burst_multiplier))
      as [E | (v & E & Hv & Hm)]; [apply Qmult_le_0_compat; assumption | |];
      rewrite E in Ep; [discriminate |]. injection Ep as <-. auto. }
  destruct Hp as [Hp0 Hp1].
  assert (Hsound : limiter_sound r (advance 1 c)
            {| IEEE.RateLimiter.requests_per_window := n;
               IEEE.RateLimiter.window_seconds := w;
               IEEE.RateLimiter.rate := PyFloat (Fin r);
               IEEE.RateLimiter.capacity := py_int p;
               IEEE.RateLimiter._buckets := ∅;
               IEEE.RateLimiter._last_cleanup := Fin (readings c (cursor c));
               IEEE.RateLimiter._cleanup_interval := 3600 |}).
  { unfold limiter_sound. cbn [IEEE.RateLimiter.rate IEEE.RateLimiter.capacity
      IEEE.RateLimiter._buckets]. rewrite (py_int_floor p Hp0).
    split; [reflexivity |]. split; [exact Hr |]. split; [| split].
    - apply Qfloor_resp_le in Hp0. change 0%Q with (inject_Z 0) in Hp0.
      now rewrite Qfloor_Z in Hp0.
    - apply Qle_trans with p; [apply Qfloor_le | exact Hp1].
    - intros k b Hk. rewrite lookup_empty in Hk. discriminate. }
  assert (Hc1 : non_decreasing (advance 1 c)) by exact Hc.
  destruct (perform_all_sound r ops
              {| IEEE.Core.limiter := _;
                 IEEE.Core.tracker := QuotaTracker.__init__ daily_limit |}
              (advance 1 c) Hc1 Hsound)
    as (answers & core' & k & Hrun & Hlen & Hs').
  destruct Hs' as (H1 & H2 & _ & _ & H5).
  exists answers, core', (advance k (advance 1 c)), r.
  split; [exact Hrun |]. split; [exact Hlen |]. split; [exact H1 |].
  split; [exact H2 |]. intros key b Hkey. exact (proj1 (H5 key b Hkey)).
Qed.

(** A run on the empty key and on an address, the window taken from the
    settings. *)
Lemma no_exception_witness :
  exists core c0 answers core' c' r,
    IEEE.Core.start Settings.default (Some 2) None (Fin (3 # 2)) 1000 ticking
      = inr (core, c0) /\
    IEEE.Core.perform_all
      [Core.IsAllowed ""; Core.IsAllowed ""; Core.IsAllowed "";
       Core.IsAllowed ""; Core.CheckQuota ""; Core.IncrementUsage "" 1;
       Core.GetRemaining ""; Core.IsAllowed "10.0.0.1"] core c0
      = inr ((answers, core'), c') /\
    length answers = 8%nat /\
    IEEE.RateLimiter.rate (IEEE.Core.limiter core') = PyFloat (Fin r) /\
    (pow2 (-1022) <= r)%Q.
Proof.
  destruct (IEEE.Core.start Settings.default (Some 2) None (Fin (3 # 2)) 1000
              ticking) as [e | [core c0]] eqn:Hstart;
    [vm_compute in Hstart; discriminate |].
  assert (H1 : 0 < py_or (Some 2) (Settings.rate_limit_requests Settings.default))
    by (vm_compute; reflexivity).
  assert (H2 : 0 < py_or None (Settings.rate_limit_window Settings.default))
    by (vm_compute; reflexivity).
  assert (H3 : py_or None (Settings.rate_limit_window Settings.default)
               <= py_or (Some 2) (Settings.rate_limit_requests Settings.default)
                  * 2 ^ 1022) by (vm_compute; discriminate).
  assert (H4 : (0 <= 3 # 2)%Q) by (vm_compute; discriminate).
  destruct (no_exception Settings.default (Some 2) None (3 # 2) 1000
              [Core.IsAllowed ""; Core.IsAllowed ""; Core.IsAllowed "";
               Core.IsAllowed ""; Core.CheckQuota ""; Core.IncrementUsage "" 1;
               Core.GetRemaining ""; Core.IsAllowed "10.0.0.1"]
              ticking c0 core H1 H2 H3 H4 ticking_non_decreasing Hstart)
    as (answers & core' & c' & r & Hrun & Hlen & Hrate & Hr & _).
  exists core, c0, answers, core', c', r. auto.
Defined.

(** C9, counterexample.  [RateLimiter(1, 10**400)] is a valid
    configuration; its rate [1 / 10**400] is the double 0.0 and its
    capacity is 1.  The first call of a client is admitted and the second
    one, denied, raises [ZeroDivisionError] in [time_until_available].
    With [RateLimiter(1, 10**320)] the rate is a positive double below the
    normal range, the wait [1.0 / rate] is infinite and the second call
    raises [OverflowError] in [int(...)]. *)
Lemma no_exception_counterexample :
  0 < 1 /\ 0 < 10 ^ 400 /\ 0 < 10 ^ 320 /\ 0 < 1000 /\
  (exists core c0,
     IEEE.Core.start Settings.default (Some 1) (Some (10 ^ 400)) (Fin (3 # 2))
       1000 ticking = inr (core, c0) /\
     IEEE.RateLimiter.rate (IEEE.Core.limiter core) = PyFloat (Fin 0) /\
     IEEE.RateLimiter.capacity (IEEE.Core.limiter core) = 1 /\
     (exists core1 c1,
        IEEE.Core.perform (Core.IsAllowed "") core c0
          = inr ((Core.Decision true 0, core1), c1)) /\
     IEEE.Core.perform_all [Core.IsAllowed ""; Core.IsAllowed ""] core c0
       = inl ZeroDivisionError) /\
  (exists core c0 r,
     IEEE.Core.start Settings.default (Some 1) (Some (10 ^ 320)) (Fin (3 # 2))
       1000 ticking = inr (core, c0) /\
     IEEE.RateLimiter.rate (IEEE.Core.limiter core) = PyFloat (Fin r) /\
     (0 < r)%Q /\
     IEEE.Core.perform_all [Core.IsAllowed ""; Core.IsAllowed ""] core c0
       = inl OverflowError).
Proof.
  split; [lia |]. split; [reflexivity |]. split; [reflexivity |].
  split; [lia |]. split.
  - eexists _, _. split; [vm_compute; reflexivity |].
    split; [reflexivity |]. split; [reflexivity |].
    split; [eexists _, _; vm_compute; reflexivity |].
    vm_compute. reflexivity.
  - eexists _, _, _. split; [vm_compute; reflexivity |].
    split; [reflexivity |]. split; [reflexivity |].
    vm_compute. reflexivity.
Qed.
